(** * m-ld-js replication core: SU-Set dataset, delta encoding and MQTT remotes

    A shallow embedding of the parts of m-ld-js that the replication
    properties rest on:

    - [Rdf]          RDF terms and triples, the reification vocabulary;
    - [MeldEncoding] [unreify] and [reifyTriplesTids];
    - [QuadStore]    [QuadStoreDataset.transact] and the [AsyncLock] it takes;
    - [SuSet]        [SuSetDataset]: [transact], [apply], [applyConstraint],
                     [operationsSince], [emitJournalFrom], [takeSnapshot],
                     [applySnapshot];
    - [Mqtt]         [MqttRemotes]: [onHello], [newClock], [nextSendAddress],
                     [send], [revupFrom], [onRemoteUpdate];
    - [Notify]       [MqttRemotes.notify] and the lock it shares;
    - [Ably]         [AblyRemotes]: the names of direct messages;
    - [MeldApi]      [update] and [asSubjectUpdates].

    Asynchronous code is written in explicit state-passing style; promises
    that reject are results in a sum type; [uuid()] and the broker's presence
    list are inputs of the operation that asks for them. *)

From Stdlib Require Import Ascii.
From stdpp Require Import base strings pretty list gmap sets sorting.

(** ** RDF terms *)

Module Rdf.

(** [rdf-js] terms; [value] is the IRI, the blank node label or the lexical
    form. *)
Inductive Term :=
| NamedNode (iri : string)
| BlankNode (label : string)
| Literal (lexical : string).

Definition value (t : Term) : string :=
  match t with
  | NamedNode v => v
  | BlankNode v => v
  | Literal v => v
  end.

Definition isNamedNode (t : Term) : bool :=
  match t with
  | NamedNode _ => true
  | _ => false
  end.

Record Triple := quad { subject : Term; predicate : Term; object : Term }.

#[global] Instance Term_eq_dec : EqDecision Term.
Proof. solve_decision. Defined.

#[global] Instance Triple_eq_dec : EqDecision Triple.
Proof. solve_decision. Defined.

(** The [RDF] and [M_LD] namespaces of [ns]. *)
Definition RDF_base : string := "http://www.w3.org/1999/02/22-rdf-syntax-ns#".
Definition RDF_type : string := RDF_base +:+ "type".
Definition RDF_Statement : string := RDF_base +:+ "Statement".
Definition RDF_subject : string := RDF_base +:+ "subject".
Definition RDF_predicate : string := RDF_base +:+ "predicate".
Definition RDF_object : string := RDF_base +:+ "object".
Definition M_LD_tid : string := "http://m-ld.org/#tid".

End Rdf.

Export Rdf.

(** Transaction identifiers. *)
Abbreviation UUID := string (only parsing).

(** ** Plain objects

    An object made by [{}] answers for a key that is not its own with the
    member that it inherits from [Object.prototype], if the key names one: a
    function, or the prototype itself for [__proto__]. *)
Definition Object_prototype : list string :=
  [ "constructor"; "__defineGetter__"; "__defineSetter__"; "hasOwnProperty";
    "__lookupGetter__"; "__lookupSetter__"; "isPrototypeOf";
    "propertyIsEnumerable"; "toString"; "valueOf"; "__proto__";
    "toLocaleString" ].

Definition inherited (key : string) : bool := bool_decide (key ∈ Object_prototype).

(** [array.reduce(callback, initial)] with a callback that can throw. *)
Fixpoint reduce {A B} (callback : B → A → option B) (initial : B) (array : list A)
    : option B :=
  match array with
  | [] => Some initial
  | x :: array => callback initial x ≫= λ acc, reduce callback acc array
  end.

(** ** MeldEncoding: reification of triples with their TIDs *)

Module MeldEncoding.

(** The triple under construction in [unreify]: it starts as [{}] and gets
    its positions from the reification quads. *)
Record PartialTriple := {
  psubject : option Term;
  ppredicate : option Term;
  pobject : option Term
}.

#[global] Instance PartialTriple_eq_dec : EqDecision PartialTriple.
Proof. solve_decision. Defined.

Definition emptyTriple : PartialTriple :=
  {| psubject := None; ppredicate := None; pobject := None |}.

Definition partial (t : Triple) : PartialTriple :=
  {| psubject := Some (subject t);
     ppredicate := Some (predicate t);
     pobject := Some (object t) |}.

Definition complete (t : PartialTriple) : option Triple :=
  match psubject t, ppredicate t, pobject t with
  | Some s, Some p, Some o => Some (quad s p o)
  | _, _, _ => None
  end.

(** One step of the [reduce] in [unreify]: [rids] holds the own properties
    of the object keyed by the reification id. [rids[rid] || [{}, []]] is
    the entry under [rid] if the object has one; for an id that names a
    member of [Object.prototype] it is that member, which is truthy and is
    not iterable, and [let [triple, tids] = ..] throws a [TypeError]: no
    result. *)
Definition unreify_step (rids : gmap string (PartialTriple * list UUID))
    (reification : Triple) : option (gmap string (PartialTriple * list UUID)) :=
  let rid := value (subject reification) in
  '(triple, tids) ← match rids !! rid with
                    | Some entry => Some entry
                    | None => if inherited rid then None else Some (emptyTriple, [])
                    end;
  let p := value (predicate reification) in
  let o := object reification in
  let '(triple, tids) :=
    if decide (p = RDF_subject) then
      (if isNamedNode o
       then {| psubject := Some o; ppredicate := ppredicate triple;
               pobject := pobject triple |}
       else triple, tids)
    else if decide (p = RDF_predicate) then
      (if isNamedNode o
       then {| psubject := psubject triple; ppredicate := Some o;
               pobject := pobject triple |}
       else triple, tids)
    else if decide (p = RDF_object) then
      ({| psubject := psubject triple; ppredicate := ppredicate triple;
          pobject := Some o |}, tids)
    else if decide (p = M_LD_tid) then
      (triple, tids ++ [value o])
    else (triple, tids) in
  Some (<[rid := (triple, tids)]> rids).

(** [unreify(reifications)]: [Object.values] of the reduced object, or no
    result when a step throws. JavaScript lists integer-like keys first,
    then the others in insertion order; the model takes the order of
    [map_to_list], and results are stated up to permutation. *)
Definition unreify (reifications : list Triple)
    : option (list (PartialTriple * list UUID)) :=
  rids ← reduce unreify_step ∅ reifications;
  Some (snd <$> map_to_list rids).

(** [this.rdf.blankNode()]: the data factory labels its blank nodes with a
    counter. *)
Definition blankNode (n : nat) : Term := BlankNode ("b" +:+ pretty n).

Definition name (iri : string) : Term := NamedNode iri.

(** The quads of one map entry, under the reification id [rid]. *)
Definition reifyEntry (rid : Term) (entry : Triple * list UUID) : list Triple :=
  [ quad rid (name RDF_type) (name RDF_Statement);
    quad rid (name RDF_subject) (subject entry.1);
    quad rid (name RDF_predicate) (predicate entry.1);
    quad rid (name RDF_object) (object entry.1) ]
  ++ ((λ tid, quad rid (name M_LD_tid) (Literal tid)) <$> entry.2).

(** [reifyTriplesTids]: [triplesTids] is the entry list of the [TripleMap],
    [next] the state of the blank node counter. *)
Fixpoint reifyTriplesTids (next : nat) (triplesTids : list (Triple * list UUID))
    : list Triple :=
  match triplesTids with
  | [] => []
  | entry :: rest =>
      reifyEntry (blankNode next) entry ++ reifyTriplesTids (S next) rest
  end.

(** An entry whose triple has an IRI as subject and as predicate. *)
Definition iriTriple (entry : Triple * list UUID) : Prop :=
  isNamedNode (subject entry.1) = true ∧ isNamedNode (predicate entry.1) = true.

(** What the quads of a reification of [t] make of the triple [prev] that
    [unreify] has under the reification id: the subject and the predicate
    are taken when they are named nodes, the object always. *)
Definition overlay (prev : PartialTriple) (t : Triple) : PartialTriple :=
  {| psubject := if isNamedNode (subject t) then Some (subject t) else psubject prev;
     ppredicate := if isNamedNode (predicate t) then Some (predicate t)
                   else ppredicate prev;
     pobject := Some (object t) |}.

End MeldEncoding.

(** ** The quad store dataset ([dataset/index.ts]) *)

Module QuadStore.

(** [PatchQuads]: an atomically applied patch that allows concatenation. *)
Record PatchQuads (Q : Type) := mkPatch { oldQuads : list Q; newQuads : list Q }.
Arguments mkPatch {Q} _ _.
Arguments oldQuads {Q} _.
Arguments newQuads {Q} _.

Definition concat {Q} (p q : PatchQuads Q) : PatchQuads Q :=
  mkPatch (oldQuads p ++ oldQuads q) (newQuads p ++ newQuads q).

(** [store.patch(oldQuads, newQuads)] on a set of quads: the old quads go,
    then the new ones are there. *)
Definition patchGraph `{EqDecision Q} (p : PatchQuads Q) (g : list Q) : list Q :=
  list_union (list_difference g (oldQuads p)) (remove_dups (newQuads p)).

(** [async-lock]. A lock object has a queue of waiting tasks for every key
    that is held; a key with no queue is free. [acquire] runs the task at
    once on a free key and queues it on a held one whose queue is not full
    (see [maxPending] below); [release], when the task is done, starts the
    next of the queue or frees the key. *)
Record AsyncLock := mkAsyncLock { queues : gmap string (list nat) }.

(** [new AsyncLock()]. *)
Definition newAsyncLock : AsyncLock := mkAsyncLock ∅.

Definition acquire (lock : AsyncLock) (key : string) (task : nat)
    : AsyncLock * bool :=
  match queues lock !! key with
  | None => (mkAsyncLock (<[key := []]> (queues lock)), true)
  | Some waiting => (mkAsyncLock (<[key := waiting ++ [task]]> (queues lock)), false)
  end.

Definition release (lock : AsyncLock) (key : string) : AsyncLock * option nat :=
  match queues lock !! key with
  | Some (next :: waiting) => (mkAsyncLock (<[key := waiting]> (queues lock)), Some next)
  | _ => (mkAsyncLock (delete key (queues lock)), None)
  end.

(** [maxPending] of a lock made with no options, and the tasks that wait for
    a key. The library's [acquire] on a key with [maxPending] tasks waiting
    rejects with 'Too many pending tasks': the task never runs and the queue
    is as it was. Here that test is made with [pending] by the caller whose
    lock is shared between calls ([notify]), before [acquire] queues the
    task; a lock made for one call, as in [QuadStoreDataset.transact], is
    free. *)
Definition maxPending : nat := 1000.

Definition pending (lock : AsyncLock) (key : string) : nat :=
  length (default [] (queues lock !! key)).

Section Transact.

Context {Q : Type} `{EqDecision Q} {E T : Type}.

(** What [prepare] resolves to: a patch or none, and a value or none; or it
    rejects. It reads the store. *)
Definition Prepare : Type := list Q → E + (option (PatchQuads Q) * option T).

(** Where a call of [transact] stands: queued on the lock; in
    [await prepare()]; in [await this.store.patch(..)]; returned or thrown. *)
Inductive Phase :=
| Queued
| Preparing
| Patching (patch : PatchQuads Q) (rtn : option T)
| Returned (result : E + option T).

Record Task := mkTask { lock : nat; prepare : Prepare; phase : Phase }.

(** What happens: [prepare] has settled in a task, with what it read;
    [store.patch] has settled; the task has returned or thrown, and its lock
    is released. *)
Inductive Event :=
| Prepared (task : nat) (read : list Q)
| Patched (task : nat)
| Settled (task : nat).

(** One [QuadStoreDataset] on the event loop: its store, the lock objects
    made so far, the calls of [transact] so far, and what happened. *)
Record Runtime := mkRuntime {
  id : string;
  store : list Q;
  locks : list AsyncLock;
  tasks : list Task;
  trace : list Event
}.

Definition setPhase (task : nat) (ph : Phase) (tasks : list Task) : list Task :=
  alter (λ t, mkTask (lock t) (prepare t) ph) task tasks.

(** The task is done: its lock lets the next waiting task in. *)
Definition done (t : Task) (rt : Runtime) : Runtime :=
  match locks rt !! lock t with
  | Some l =>
      let '(l, next) := release l (id rt) in
      mkRuntime (id rt) (store rt) (<[lock t := l]> (locks rt))
        (match next with
         | Some next => setPhase next Preparing (tasks rt)
         | None => tasks rt
         end)
        (trace rt)
  | None => rt
  end.

(** [transact(prepare)] is called: [new AsyncLock().acquire(this.id, ..)]. *)
Definition transact (prepare : Prepare) (rt : Runtime) : Runtime :=
  let task := length (tasks rt) in
  let '(l, now) := acquire newAsyncLock (id rt) task in
  mkRuntime (id rt) (store rt) (locks rt ++ [l])
    (tasks rt ++ [mkTask (length (locks rt)) prepare (if now then Preparing else Queued)])
    (trace rt).

(** [await prepare()] resumes in [task]: [prepare] has read the store; with
    a patch [store.patch] is called, with none the value is returned. *)
Definition resumePrepared (task : nat) (rt : Runtime) : Runtime :=
  match tasks rt !! task with
  | Some t =>
      match phase t with
      | Preparing =>
          let rt' ph events := mkRuntime (id rt) (store rt) (locks rt)
                                 (setPhase task ph (tasks rt))
                                 (trace rt ++ Prepared task (store rt) :: events) in
          match prepare t (store rt) with
          | inl err => done t (rt' (Returned (inl err)) [Settled task])
          | inr (Some patch, rtn) => rt' (Patching patch rtn) []
          | inr (None, rtn) => done t (rt' (Returned (inr rtn)) [Settled task])
          end
      | _ => rt
      end
  | None => rt
  end.

(** [await this.store.patch(..)] resumes in [task]: the patch is in the
    store, the value is returned. *)
Definition resumePatched (task : nat) (rt : Runtime) : Runtime :=
  match tasks rt !! task with
  | Some t =>
      match phase t with
      | Patching patch rtn =>
          done t (mkRuntime (id rt) (patchGraph patch (store rt)) (locks rt)
                    (setPhase task (Returned (inr rtn)) (tasks rt))
                    (trace rt ++ [Patched task; Settled task]))
      | _ => rt
      end
  | None => rt
  end.

(** The steps of the event loop, and a run of them. *)
Inductive Step :=
| Call (prepare : Prepare)
| ResumePrepared (task : nat)
| ResumePatched (task : nat).

Definition step (rt : Runtime) (s : Step) : Runtime :=
  match s with
  | Call prepare => transact prepare rt
  | ResumePrepared task => resumePrepared task rt
  | ResumePatched task => resumePatched task rt
  end.

Definition run (steps : list Step) (rt : Runtime) : Runtime := foldl step rt steps.

(** The transactions are serial in a trace when each one prepares, patches
    and settles with no event of another in between; [open] is the task that
    has prepared and not settled. *)
Fixpoint serial (open : option nat) (events : list Event) : bool :=
  match events with
  | [] => true
  | Prepared task _ :: events =>
      match open with
      | None => serial (Some task) events
      | Some _ => false
      end
  | Patched task :: events =>
      match open with
      | Some task' => bool_decide (task = task') && serial open events
      | None => false
      end
  | Settled task :: events =>
      match open with
      | Some task' => bool_decide (task = task') && serial None events
      | None => false
      end
  end.

End Transact.

Arguments Prepare : clear implicits.
Arguments Runtime : clear implicits.
Arguments Task : clear implicits.
Arguments Step : clear implicits.
Arguments Phase : clear implicits.
Arguments Event : clear implicits.

End QuadStore.

(** ** Causal clocks

    [TreeClock] is not among the sources; the dataset and the remotes use it
    through [ticks], [getTicks], [anyLt] and [GENESIS] only, which are taken
    as the interface of a clock type. [anyLt time other] stands for
    [time.anyLt(other, 'includeIds')]. *)
Class CausalClock (TreeClock : Type) := {
  ticks : TreeClock → nat;
  getTicks : TreeClock → TreeClock → option nat;
  anyLt : TreeClock → TreeClock → bool;
  GENESIS : TreeClock
}.

(** ** SuSetDataset *)

Module SuSet.

Import MeldEncoding.

Inductive MeldError := mkMeldError (message : string).

(** The patches are [PatchQuads] of [dataset/index.ts]; the quads of the
    default graph are carried as triples, those of the TID graph as TID
    entries. The later [PatchQuads] has empty defaults. *)
Export QuadStore (PatchQuads, mkPatch, oldQuads, newQuads, concat, patchGraph).

Definition emptyPatch {Q} : PatchQuads Q := mkPatch [] [].

(** [patch.oldQuads.push(quad)]. *)
Definition pushOld {Q} (p : PatchQuads Q) (q : Q) : PatchQuads Q :=
  mkPatch (oldQuads p ++ [q]) (newQuads p).

(** [patch.removeAll('newQuads', quads)], as [applyConstraint] uses it: the
    new quads that are among [quads] leave the patch and are returned. *)
Definition removeAll_newQuads `{EqDecision Q} (p : PatchQuads Q) (quads : list Q)
    : PatchQuads Q * list Q :=
  (mkPatch (oldQuads p) (filter (λ q, q ∉ quads) (newQuads p)),
   filter (λ q, q ∈ quads) (newQuads p)).

(** [tripleId]: the prefixed hash of a triple, taken as a name of the triple
    that no other triple shares. *)
Inductive TripleId := thash (t : Triple).

#[global] Instance TripleId_eq_dec : EqDecision TripleId.
Proof. solve_decision. Defined.

Definition tripleId (t : Triple) : TripleId := thash t.

(** [HashTid] quads of the TID graph, and the quads found for one triple
    with the triple. *)
Definition HashTid : Type := TripleId * UUID.

Record TripleTidQuads := mkTripleTidQuads {
  ttq_triple : Triple;
  ttq_tids : list HashTid
}.

Definition TripleTids : Type := Triple * list UUID.

Definition asTripleTids (tt : TripleTidQuads) : TripleTids :=
  (ttq_triple tt, snd <$> ttq_tids tt).

Record MeldUpdate := mkUpdate {
  upd_ticks : nat;
  upd_delete : list Triple;
  upd_insert : list Triple
}.

(** A delta; its JSON form carries the same fields, and [asMeldDelta] reads
    them back. [delete] holds the reifications of the deleted triples. *)
Record MeldDelta := mkDelta {
  tid : UUID;
  insert : list Triple;
  delete : list Triple
}.

(** A write request, by what [JrqlGraph.write] makes of it on a graph. *)
Definition Write : Type := list Triple → PatchQuads Triple.

(** [MeldConstraint]: [check] rejects with an error or passes; [apply]
    answers with a repair or with nothing. Both read the data graph. *)
Module Constraint.
Record MeldConstraint := mkConstraint {
  check : MeldUpdate → list Triple → option MeldError;
  apply : MeldUpdate → list Triple → option Write
}.
End Constraint.
Export Constraint (MeldConstraint, mkConstraint).

(** [new CheckList([])], the default constraint. *)
Definition NO_CONSTRAINT : MeldConstraint :=
  mkConstraint (λ _ _, None) (λ _ _, None).

(** What a subscriber of an [Observable] sees. *)
Inductive Notification (A : Type) :=
| Next (a : A)
| Error (e : MeldError)
| Complete.
Arguments Next {A} _.
Arguments Error {A} _.
Arguments Complete {A}.

(** The preparation of a transaction: it fails or returns, and on its way
    hands updates to [updateSource]. *)
Definition Prep (A : Type) : Type := (MeldError + A) * list MeldUpdate.

#[global] Instance Prep_ret : MRet Prep := λ A a, (inr a, []).

#[global] Instance Prep_bind : MBind Prep := λ A B f m,
  match m.1 with
  | inl e => (inl e, m.2)
  | inr a => ((f a).1, m.2 ++ (f a).2)
  end.

Definition throw {A} (e : MeldError) : Prep A := (inl e, []).

(** [this.updateSource.next(update)]. *)
Definition updateSource_next (update : MeldUpdate) : Prep () := (inr (), [update]).

Definition fromOption {A} (e : MeldError) (o : option A) : Prep A :=
  match o with
  | Some a => mret a
  | None => throw e
  end.

Section WithClock.

Context {TreeClock : Type} `{!CausalClock TreeClock}.

Record DeltaMessage := mkDeltaMessage { time : TreeClock; data : MeldDelta }.

(** Modelled from the spec: the journal of [SuSetJournal], which is not among
    the sources. An entry has its tick, the local time, the remote time of a
    remote delta, and the delta; the entries form an unbroken chain, kept
    here in chain order, the tail last; the journal holds the current local
    time. *)
Record JournalEntry := mkEntry {
  eticks : nat;
  etime : TreeClock;
  eremote : option TreeClock;
  edelta : MeldDelta
}.

(** The journaling part of a transaction's patch: entries chained after the
    tail, and the journal's new time. *)
Record JournalPatch := mkJournalPatch {
  appended : list JournalEntry;
  newTime : option TreeClock
}.

Definition jconcat (p q : JournalPatch) : JournalPatch :=
  mkJournalPatch (appended p ++ appended q)
    (match newTime q with Some t => Some t | None => newTime p end).

(** Modelled from the spec: [entry.createNext(delta, localTime, remoteTime?)]
    gives the patch that chains a new entry, keyed by the tick of
    [localTime], and the entry. *)
Definition createNext (prev : JournalEntry) (delta : MeldDelta)
    (localTime : TreeClock) (remoteTime : option TreeClock)
    : JournalPatch * JournalEntry :=
  let entry := mkEntry (ticks localTime) localTime remoteTime delta in
  (mkJournalPatch [entry] None, entry).

(** Modelled from the spec: [journal.setNext(entry, localTime)] makes [entry]
    the tail and [localTime] the journal's time. *)
Definition setNext (entry : JournalEntry) (localTime : TreeClock) : JournalPatch :=
  mkJournalPatch [] (Some localTime).

(** The dataset: the default graph, the TID graph ([qs:all] and the hashed
    triples) and the journal. *)
Record Dataset := mkDataset {
  graph : list Triple;
  allTids : list UUID;
  tripleTids : list HashTid;
  entries : list JournalEntry;
  journalTime : option TreeClock;
  closed : bool
}.

(** The patch of a whole transaction, over the three graphs. *)
Record TransactionPatch := mkTransactionPatch {
  dataPatch : PatchQuads Triple;
  allTidsPatch : PatchQuads UUID;
  tripleTidPatch : PatchQuads HashTid;
  journaling : JournalPatch
}.

Definition transactionPatch (dataPatch : PatchQuads Triple)
    (allTidsPatch : PatchQuads UUID) (tripleTidPatch : PatchQuads HashTid)
    (journaling : JournalPatch) : TransactionPatch :=
  mkTransactionPatch dataPatch allTidsPatch tripleTidPatch journaling.

(** The commit: every part of the patch, in one batch. *)
Definition commit (p : TransactionPatch) (ds : Dataset) : Dataset :=
  mkDataset
    (patchGraph (dataPatch p) (graph ds))
    (patchGraph (allTidsPatch p) (allTids ds))
    (patchGraph (tripleTidPatch p) (tripleTids ds))
    (entries ds ++ appended (journaling p))
    (match newTime (journaling p) with
     | Some t => Some t
     | None => journalTime ds
     end)
    (closed ds).

(** What [prepare] returns to [dataset.transact]. *)
Record Prepared (V : Type) := mkPrepared {
  patch : option TransactionPatch;
  value : V
}.
Arguments mkPrepared {V} _ _.
Arguments patch {V} _.
Arguments value {V} _.

(** What reaches the outside of a transaction. [updates] is
    [updateSource.pipe(observeOn(asapScheduler))]: a call of
    [updateSource.next] inside [prepare] queues the delivery of the update to
    the subscribers as a job of its own; the store is patched in the
    continuation of [await prepare()], a job queued when [prepare] has
    returned. Jobs run in the order they were queued. *)
Inductive Effect :=
| Notified (update : MeldUpdate)
| Patched (p : TransactionPatch).

(** What a call leaves: the dataset, the promise's outcome, and the effects
    in the order they took place. *)
Record Outcome (V : Type) := mkOutcome {
  dataset : Dataset;
  outcome : MeldError + V;
  effects : list Effect
}.
Arguments mkOutcome {V} _ _ _.
Arguments dataset {V} _.
Arguments outcome {V} _.
Arguments effects {V} _.

(** The updates that the subscribers of [updates] receive, in order. *)
Definition notified (effects : list Effect) : list MeldUpdate :=
  omap (λ e, match e with Notified u => Some u | Patched _ => None end) effects.

(** [dataset.transact({ id, prepare })], the form of [Dataset.transact]
    that [SuSetDataset] calls: under the transaction lock, [prepare] runs; a
    rejection leaves the store alone and is the caller's; a patch is
    committed; the value is returned. *)
Definition dataset_transact {V} (prepare : Dataset → Prep (Prepared V))
    (ds : Dataset) : Outcome V :=
  let prep := prepare ds in
  match prep.1 with
  | inl err => mkOutcome ds (inl err) (Notified <$> prep.2)
  | inr prepared =>
      match patch prepared with
      | Some p =>
          mkOutcome (commit p ds) (inr (value prepared))
            ((Notified <$> prep.2) ++ [Patched p])
      | None => mkOutcome ds (inr (value prepared)) (Notified <$> prep.2)
      end
  end.

(** The [@SuSetDataset.checkNotClosed.async] decorator. *)
Definition checkNotClosed {V} (method : Dataset → Outcome V) (ds : Dataset)
    : Outcome V :=
  if closed ds
  then mkOutcome ds (inl (mkMeldError "Clone has closed")) []
  else method ds.

(** *** Reading the TID graph and the journal *)

Definition asUpdate (time : TreeClock) (patch : PatchQuads Triple) : MeldUpdate :=
  mkUpdate (ticks time) (oldQuads patch) (newQuads patch).

(** [tidsGraph.insert({ '@id': 'qs:all', tid })]. *)
Definition newTid (tid : UUID) : PatchQuads UUID := mkPatch [] [tid].

Definition newTriplesTid (triples : list Triple) (tid : UUID) : PatchQuads HashTid :=
  mkPatch [] ((λ triple, (tripleId triple, tid)) <$> triples).

(** [tidsGraph.findQuads({ '@id': tripleId })]. *)
Definition findTripleTids (ds : Dataset) (id : TripleId) : list HashTid :=
  filter (λ tidQuad, tidQuad.1 = id) (tripleTids ds).

Definition findTriplesTids (ds : Dataset) (quads : list Triple)
    : list TripleTidQuads :=
  (λ quad, mkTripleTidQuads quad (findTripleTids ds (tripleId quad))) <$> quads.

(** [tids(triple)], the TIDs that assert a triple, and the invariant of the
    dataset that every triple of the data graph is asserted by some TID. *)
Definition tids (ds : Dataset) (triple : Triple) : list UUID :=
  snd <$> findTripleTids ds (tripleId triple).

Definition asserted (ds : Dataset) : Prop :=
  ∀ triple, triple ∈ graph ds → tids ds triple ≠ [].

(** [tidsGraph.find1({ '@id': 'qs:all', tid: [id] })], as a truth value. *)
Definition knowsTid (ds : Dataset) (id : UUID) : bool :=
  bool_decide (id ∈ allTids ds).

Definition txnTidPatches (tid : UUID) (insert : list Triple)
    (deletedTriplesTids : list TripleTidQuads)
    : PatchQuads UUID * PatchQuads HashTid :=
  (newTid tid,
   concat (newTriplesTid insert tid)
          (mkPatch (mjoin (ttq_tids <$> deletedTriplesTids)) [])).

(** [txnDelta]. [TripleTids.reify] is not among the sources: it is taken to
    be [reifyTriplesTids] on the list of the triples with their TIDs; [rid]
    is the state of the blank node counter. *)
Definition txnDelta (rid : nat) (tid : UUID) (insert : list Triple)
    (deletedTriplesTids : list TripleTids) : MeldDelta :=
  mkDelta tid insert (reifyTriplesTids rid deletedTriplesTids).

(** Modelled from the spec: [journal.state()] needs an initialised journal,
    which has its time. *)
Definition journal_state (ds : Dataset) : Prep TreeClock :=
  fromOption (mkMeldError "Journal has no state") (journalTime ds).

(** Modelled from the spec: [journal.tail()] is the last entry of the
    chain. *)
Definition journal_tail (ds : Dataset) : Prep JournalEntry :=
  fromOption (mkMeldError "Journal has no tail") (last (entries ds)).

(** Modelled from the spec: [findEntry(ticks)] locates the entry whose tick
    is [ticks]. An entry is held with the chain after it, which [next()]
    follows; nothing found is the empty chain. *)
Fixpoint findEntry (ticks : nat) (chain : list JournalEntry) : list JournalEntry :=
  match chain with
  | [] => []
  | entry :: next =>
      if decide (eticks entry = ticks) then entry :: next else findEntry ticks next
  end.

(** *** operationsSince *)

(** An [Observable], by what it sends to a subscriber that stays subscribed;
    the argument is [this.dataset.closed] while it emits. *)
Definition Observable (A : Type) : Type := bool → list (Notification A).

Fixpoint emitJournalFrom (datasetClosed : bool) (entry : list JournalEntry)
    (filter : JournalEntry → bool) : list (Notification DeltaMessage) :=
  match entry with
  | [] => [Complete]
  | e :: next =>
      if datasetClosed then [Error (mkMeldError "Clone has closed")]
      else (if filter e then [Next (mkDeltaMessage (etime e) (edelta e))] else [])
           ++ emitJournalFrom datasetClosed next filter
  end.

Definition operationsSince (time : TreeClock)
    : Dataset → Outcome (option (Observable DeltaMessage)) :=
  checkNotClosed (dataset_transact (λ ds,
    journalTime ← journal_state ds;
    (* How many ticks of mine has the requester seen? *)
    let ticks := getTicks time journalTime in
    let found := match ticks with
                 | Some ticks => findEntry ticks (entries ds)
                 | None => []
                 end in
    mret (mkPrepared None
      (match found with
       | [] => None
       | _ => Some (λ datasetClosed,
                emitJournalFrom datasetClosed found (λ entry, anyLt time (etime entry)))
       end)))).

(** *** transact *)

Section WithConstraint.

Context (constraint : MeldConstraint).

(** [transact(prepare)]; [txid] is the [uuid()] of the transaction, [rid] the
    blank node counter; the caller's [prepare] reads the dataset. *)
Definition transact_prepare (txid : UUID) (rid : nat)
    (prepare : Dataset → MeldError + (TreeClock * PatchQuads Triple))
    (ds : Dataset) : Prep (Prepared DeltaMessage) :=
    '(time, patch) ← (prepare ds, []);
    let update := asUpdate time patch in
    _ ← match Constraint.check constraint update (graph ds) with
        | Some err => throw err
        | None => mret ()
        end;
    let deletedTriplesTids := findTriplesTids ds (oldQuads patch) in
    let delta := txnDelta rid txid (newQuads patch)
                   (asTripleTids <$> deletedTriplesTids) in
    (* Include tid changes in final patch *)
    let '(allTidsPatch, tidPatch) :=
      txnTidPatches txid (newQuads patch) deletedTriplesTids in
    (* Include journaling in final patch *)
    _ ← journal_state ds;
    tail ← journal_tail ds;
    let '(journaling, entry) := createNext tail delta time None in
    let journaling := jconcat journaling (setNext entry time) in
    (* Notify the update *)
    _ ← updateSource_next update;
    mret (mkPrepared
      (Some (transactionPatch patch allTidsPatch tidPatch journaling))
      (mkDeltaMessage time delta)).

Definition transact (txid : UUID) (rid : nat)
    (prepare : Dataset → MeldError + (TreeClock * PatchQuads Triple))
    : Dataset → Outcome DeltaMessage :=
  checkNotClosed (dataset_transact (transact_prepare txid rid prepare)).

(** *** apply *)

Record ConstraintTxn := mkConstraintTxn {
  cx_delta : MeldDelta;
  cx_update : MeldUpdate;
  cx_patch : PatchQuads Triple;
  cx_allTidsPatch : PatchQuads UUID;
  cx_tidPatch : PatchQuads HashTid
}.

(** [applyConstraint(to, localTime)]. It mutates [to.patch]: the patch comes
    back with the result. [cxTid] is the [uuid()] of the repair. *)
Definition applyConstraint (ds : Dataset) (cxTid : UUID) (rid : nat)
    (to_patch : PatchQuads Triple) (to_update : MeldUpdate) (to_tid : UUID)
    (localTime : TreeClock) : PatchQuads Triple * option ConstraintTxn :=
  match Constraint.apply constraint to_update (graph ds) with
  | Some result =>
      let tid := cxTid in
      let patch := result (graph ds) in
      let update := asUpdate localTime patch in
      let deletedExistingTidQuads := findTriplesTids ds (oldQuads patch) in
      (* Triples that were inserted in the applied transaction may now be
         deleted - these need to be removed from the applied transaction
         patch but still published in the delta *)
      let '(to_patch, deleted) := removeAll_newQuads to_patch (oldQuads patch) in
      let deletedTriplesTids :=
        (asTripleTids <$> deletedExistingTidQuads)
        ++ ((λ delQuad, (delQuad, [to_tid])) <$> deleted) in
      let delta := txnDelta rid tid (newQuads patch) deletedTriplesTids in
      let '(allTidsPatch, tidPatch) :=
        txnTidPatches tid (newQuads patch) deletedExistingTidQuads in
      (to_patch, Some (mkConstraintTxn delta update patch allTidsPatch tidPatch))
  | None => (to_patch, None)
  end.

(** The triples and TIDs of [unreify(delta.delete)]. There are none when
    [unreify] throws; and a reification that lacks a position has no triple
    to hash: [tripleId] throws on it. Both are [TypeError]s. *)
Definition unreifyComplete (reifications : list Triple)
    : option (list (Triple * list UUID)) :=
  entries ← unreify reifications;
  mapM (λ r : PartialTriple * list UUID,
          match complete r.1 with
          | Some triple => Some (triple, r.2)
          | None => None
          end)
       entries.

Definition unreifyDeletes (reifications : list Triple)
    : Prep (list (Triple * list UUID)) :=
  fromOption (mkMeldError "TypeError") (unreifyComplete reifications).

(** The body of the [reduce] over the unreified deletions: [acc] is the data
    patch, whose [oldQuads] the body pushes to, with the TID patch. *)
Definition applyDeletion (ds : Dataset)
    (acc : PatchQuads Triple * PatchQuads HashTid)
    (deletion : Triple * list UUID) : PatchQuads Triple * PatchQuads HashTid :=
  let '(triple, theirTids) := deletion in
  (* For each unique deleted triple, subtract the claimed tids from the tids
     we have *)
  let ourTripleTids := findTripleTids ds (tripleId triple) in
  let toRemove := filter (λ tripleTid, tripleTid.2 ∈ theirTids) ourTripleTids in
  (* If no tids are left, delete the triple in our graph *)
  (if decide (length toRemove = length ourTripleTids)
   then pushOld acc.1 triple else acc.1,
   concat acc.2 (mkPatch toRemove [])).

Definition apply_prepare (msgData : MeldDelta) (msgTime arrivalTime localTime : TreeClock)
    (cxTid : UUID) (rid : nat) (ds : Dataset)
    : Prep (Prepared (option DeltaMessage)) :=
  let txid := tid msgData in
  (* Check we haven't seen this transaction before in the journal *)
  if negb (knowsTid ds txid) then
    let delta := msgData in
    let patch := mkPatch [] (insert delta) in
    let allTidsPatch := newTid (tid delta) in
    (* The delta's delete contains reifications of deleted triples *)
    deletions ← unreifyDeletes (delete delta);
    let '(patch, tidPatch) := foldl (applyDeletion ds) (patch, emptyPatch) deletions in
    let update := asUpdate arrivalTime patch in
    let '(patch, cxn) :=
      applyConstraint ds cxTid rid patch update txid localTime in
    (* After applying the constraint, patch new quads might have changed *)
    let tidPatch := concat tidPatch (newTriplesTid (newQuads patch) (tid delta)) in
    (* Include journaling in final patch *)
    _ ← journal_state ds;
    tail ← journal_tail ds;
    let '(journaling, entry) := createNext tail delta arrivalTime (Some msgTime) in
    let '(journaling, entry) :=
      match cxn with
      | Some cxn =>
          (* Create a follow-on entry for the constraint "transaction" *)
          let '(cxJournaling, cxEntry) := createNext entry (cx_delta cxn) localTime None in
          (jconcat journaling cxJournaling, cxEntry)
      | None => (journaling, entry)
      end in
    let journaling := jconcat journaling (setNext entry localTime) in
    (* Notify the update *)
    _ ← updateSource_next update;
    (* If the constraint has done anything, we need to merge its work into
       ours and notify its update too *)
    match cxn with
    | Some cxn =>
        let allTidsPatch := concat allTidsPatch (cx_allTidsPatch cxn) in
        let tidPatch := concat tidPatch (cx_tidPatch cxn) in
        let patch := concat patch (cx_patch cxn) in
        _ ← updateSource_next (cx_update cxn);
        mret (mkPrepared
          (Some (transactionPatch patch allTidsPatch tidPatch journaling))
          (Some (mkDeltaMessage localTime (cx_delta cxn))))
    | None =>
        mret (mkPrepared
          (Some (transactionPatch patch allTidsPatch tidPatch journaling))
          None)
    end
  else
    (* We don't have to save the new local clock time, nothing's happened *)
    mret (mkPrepared None None).

(** [apply(msgData, msgTime, arrivalTime, localTime)]. *)
Definition apply (msgData : MeldDelta) (msgTime arrivalTime localTime : TreeClock)
    (cxTid : UUID) (rid : nat) : Dataset → Outcome (option DeltaMessage) :=
  checkNotClosed (dataset_transact
    (apply_prepare msgData msgTime arrivalTime localTime cxTid rid)).

(** What [apply_prepare] comes to for a delta that is new, whose deletions
    are [deletions], on a journal that has its state and tail: the patch,
    the value and the updates, with the monad unfolded. *)
Definition prepared (msgData : MeldDelta)
    (msgTime arrivalTime localTime : TreeClock) (cxTid : UUID) (rid : nat)
    (ds : Dataset) (deletions : list (Triple * list UUID))
    : Prep (Prepared (option DeltaMessage)) :=
  let reduced := foldl (applyDeletion ds) (mkPatch [] (insert msgData), emptyPatch)
                   deletions in
  let update := asUpdate arrivalTime reduced.1 in
  let repaired := applyConstraint ds cxTid rid reduced.1 update
                    (tid msgData) localTime in
  let tidPatch := concat reduced.2 (newTriplesTid (newQuads repaired.1) (tid msgData)) in
  let entry := mkEntry (ticks arrivalTime) arrivalTime (Some msgTime) msgData in
  match repaired.2 with
  | Some cxn =>
      (inr (mkPrepared
              (Some (transactionPatch
                       (concat repaired.1 (cx_patch cxn))
                       (concat (newTid (tid msgData)) (cx_allTidsPatch cxn))
                       (concat tidPatch (cx_tidPatch cxn))
                       (mkJournalPatch
                          [entry; mkEntry (ticks localTime) localTime None (cx_delta cxn)]
                          (Some localTime))))
              (Some (mkDeltaMessage localTime (cx_delta cxn)))),
       [update; cx_update cxn])
  | None =>
      (inr (mkPrepared
              (Some (transactionPatch repaired.1 (newTid (tid msgData)) tidPatch
                       (mkJournalPatch [entry] (Some localTime))))
              None),
       [update])
  end.

(** *** A session: calls one after the other, as the transaction lock has
    them, with the effects of each. *)
Inductive Call :=
| Transact (txid : UUID) (rid : nat)
    (prepare : Dataset → MeldError + (TreeClock * PatchQuads Triple))
| Apply (msgData : MeldDelta) (msgTime arrivalTime localTime : TreeClock)
    (cxTid : UUID) (rid : nat).

Definition call (c : Call) (ds : Dataset) : Dataset * list Effect :=
  match c with
  | Transact txid rid prepare =>
      let called := transact txid rid prepare ds in
      (dataset called, effects called)
  | Apply msgData msgTime arrivalTime localTime cxTid rid =>
      let called := apply msgData msgTime arrivalTime localTime cxTid rid ds in
      (dataset called, effects called)
  end.


(** The dataset that a session leaves. *)
Definition sessionEnd (calls : list Call) (ds : Dataset) : Dataset :=
  foldl (λ ds c, (call c ds).1) ds calls.

End WithConstraint.

(** *** Snapshots *)

(** [bufferCount(size)]: the values are buffered and a buffer is emitted when
    it has [size] values; what is left in the buffer when the source
    completes is emitted if there is any. *)
Fixpoint bufferCount_from {A} (size : nat) (buffer : list A) (source : list A)
    : list (list A) :=
  match source with
  | [] => match buffer with [] => [] | _ => [buffer] end
  | x :: source =>
      let buffer := buffer ++ [x] in
      if decide (length buffer = size)
      then buffer :: bufferCount_from size [] source
      else bufferCount_from size buffer source
  end.

Definition bufferCount {A} (size : nat) (source : list A) : list (list A) :=
  bufferCount_from size [] source.

(** The data of a [DatasetSnapshot]: the time of the journal's tail, the
    batches of reified quads with their TIDs and the batches of the TIDs of
    [qs:all]. The hash of the tail is the journal's, which is not among the
    sources. *)
Record DatasetSnapshot := mkSnapshot {
  lastTime : TreeClock;
  snapshotQuads : list (list Triple);
  snapshotTids : list (list UUID)
}.

(** The batches of [takeSnapshot], each reified with its TIDs
    ([TripleTids.reify] is taken to be [reifyTriplesTids], as in [txnDelta]);
    [rid] is the state of the blank node counter. *)
Fixpoint reifyBatches (ds : Dataset) (rid : nat) (batches : list (list Triple))
    : list (list Triple) :=
  match batches with
  | [] => []
  | batch :: batches =>
      reifyTriplesTids rid (asTripleTids <$> findTriplesTids ds batch)
      :: reifyBatches ds (rid + length batch) batches
  end.

(** [takeSnapshot()]: under the transaction lock, the quads of the data
    graph and the TIDs of [qs:all], in batches of ten; no patch. *)
Definition takeSnapshot (rid : nat) : Dataset → Outcome DatasetSnapshot :=
  checkNotClosed (dataset_transact (λ ds,
    _ ← journal_state ds;
    tail ← journal_tail ds;
    mret (mkPrepared None
            (mkSnapshot (etime tail)
               (reifyBatches ds rid (bufferCount 10 (graph ds)))
               (bufferCount 10 (allTids ds)))))).

(** [newTid(tids)] with an array of TIDs, and [newTripleTids]. *)
Definition newTids (tids : list UUID) : PatchQuads UUID := mkPatch [] tids.

Definition newTripleTids (triple : Triple) (tids : list UUID) : PatchQuads HashTid :=
  let theTripleId := tripleId triple in
  mkPatch [] ((λ tid, (theTripleId, tid)) <$> tids).

(** The transaction [snapshot-tids-batch] of [applySnapshot]: each batch of
    TIDs goes in as an array. *)
Definition snapshotTidsBatch (tids : list UUID) : Dataset → Outcome () :=
  dataset_transact (λ _,
    mret (mkPrepared
            (Some (transactionPatch emptyPatch (newTids tids) emptyPatch
                     (mkJournalPatch [] None)))
            ())).

(** The transaction [snapshot-batch] of [applySnapshot]: for each triple of
    the unreified batch its TIDs go into the TID graph and the triple into
    the data graph; the patches of the entries are concatenated by a
    [reduce] without a seed, so an empty batch has no patch. *)
Definition snapshotBatch (batch : list Triple) : Dataset → Outcome () :=
  dataset_transact (λ _,
    entries ← unreifyDeletes batch;
    let entryPatches :=
      (λ entry : Triple * list UUID,
         (mkPatch [] [entry.1], newTripleTids entry.1 entry.2)) <$> entries in
    mret (mkPrepared
            (match entryPatches with
             | [] => None
             | entryPatch :: entryPatches =>
                 let batchPatch :=
                   foldl (λ batchPatch entryPatch : PatchQuads Triple * PatchQuads HashTid,
                            (concat batchPatch.1 entryPatch.1,
                             concat batchPatch.2 entryPatch.2))
                         entryPatch entryPatches in
                 Some (transactionPatch batchPatch.1 emptyPatch batchPatch.2
                         (mkJournalPatch [] None))
             end)
            ())).

(** What a dataset has when the triples, the transaction ids and the TIDs
    of triples of a snapshot have come on top of [ds]; the journal is the
    same. *)
Definition extends (ds' ds : Dataset) (triples : list Triple) (ids : list UUID)
    (tidQuads : list HashTid) : Prop :=
  (∀ triple, triple ∈ graph ds' ↔ triple ∈ graph ds ∨ triple ∈ triples)
  ∧ (∀ id, id ∈ allTids ds' ↔ id ∈ allTids ds ∨ id ∈ ids)
  ∧ (∀ q, q ∈ tripleTids ds' ↔ q ∈ tripleTids ds ∨ q ∈ tidQuads)
  ∧ entries ds' = entries ds
  ∧ journalTime ds' = journalTime ds
  ∧ closed ds' = closed ds.

Definition transactAll (transactions : list (Dataset → Outcome ()))
    (state : Dataset * list MeldError) : Dataset * list MeldError :=
  foldl (λ (state : Dataset * list MeldError) transaction,
           let applied := transaction state.1 in
           (dataset applied,
            state.2 ++ match outcome applied with inl err => [err] | inr _ => [] end))
        state transactions.

(** [applySnapshot(snapshot, localTime)] without the reset of the journal,
    which is [SuSetJournal]'s: the transactions of the batches of TIDs and of
    the batches of quads. They are all inserts, into the TID graph and the
    data graph; they are taken here batch by batch, the TIDs first. The
    result is the dataset and the rejections, if any. *)
Definition applySnapshot (snapshot : DatasetSnapshot) (ds : Dataset)
    : Dataset * list MeldError :=
  if closed ds then (ds, [mkMeldError "Clone has closed"])
  else transactAll (snapshotBatch <$> snapshotQuads snapshot)
         (transactAll (snapshotTidsBatch <$> snapshotTids snapshot) (ds, [])).


End WithClock.

Arguments DeltaMessage : clear implicits.
Arguments JournalEntry : clear implicits.
Arguments JournalPatch : clear implicits.
Arguments Dataset : clear implicits.
Arguments TransactionPatch : clear implicits.
Arguments Effect : clear implicits.
Arguments Prepared : clear implicits.
Arguments Outcome : clear implicits.
Arguments Call : clear implicits.
Arguments DatasetSnapshot : clear implicits.
Arguments mkPrepared {TreeClock V} _ _.
Arguments patch {TreeClock V} _.
Arguments value {TreeClock V} _.
Arguments mkOutcome {TreeClock V} _ _ _.
Arguments dataset {TreeClock V} _.
Arguments outcome {TreeClock V} _.
Arguments effects {TreeClock V} _.

End SuSet.

(** ** MqttRemotes *)

Module Mqtt.

Inductive Error :=
| NONE_VISIBLE (detail : string)
| SendTimeout.

(** [SEND_TOPIC.with({ toId, fromId, messageId, address })]. *)
Record SendTopic := mkSendTopic {
  toId : string;
  fromId : string;
  messageId : string;
  address : string
}.

Section WithClock.

Context {TreeClock : Type} `{!CausalClock TreeClock}.

(** The control messages of [ControlMessage]. *)
Inductive Request :=
| NewClockRequest
| SnapshotRequest
| RevupRequest (time : TreeClock).

Record NewClockResponse := mkNewClockResponse { clock : TreeClock }.

(** The fields of [MqttRemotes] that [newClock] and [send] use. [isGenesis]
    is a [Future]: unresolved, or resolved once and for all. [published] is
    what went to [mqtt.publish] on send topics, oldest first. *)
Record MqttRemotes := mkRemotes {
  id : string;
  controlTopic : string;
  isGenesis : option bool;
  recentlySentTo : gset string;
  published : list (SendTopic * Request)
}.

(** [future.resolve(v)]: a Future ignores a re-resolve. *)
Definition resolve {A} (future : option A) (v : A) : option A :=
  match future with
  | Some settled => Some settled
  | None => Some v
  end.

(** [onHello(payload)], with the id of the parsed [Hello]. *)
Definition onHello (hello : string) (r : MqttRemotes) : MqttRemotes :=
  mkRemotes (id r) (controlTopic r)
    (if decide (id r = hello)
     then resolve (isGenesis r) true
     else resolve (isGenesis r) false)
    (recentlySentTo r) (published r).

(** The hellos that arrive on the registry topic, in order. *)
Definition observe (hellos : list string) (r : MqttRemotes) : MqttRemotes :=
  foldl (λ r hello, onHello hello r) r hellos.

(** [nextSendAddress(messageId)]; [present] is what the broker's presence
    gives for the control topic. *)
Definition nextSendAddress (present : list string) (messageId : string)
    (r : MqttRemotes) : MqttRemotes * option SendTopic :=
  let recentlySentTo :=
    if forallb (λ id, bool_decide (id ∈ recentlySentTo r)) present
    then ∅ else recentlySentTo r in
  let recentlySentTo := recentlySentTo ∪ {[ id r ]} in
  match filter (λ id, id ∉ recentlySentTo) present with
  | toId :: _ =>
      (mkRemotes (id r) (controlTopic r) (isGenesis r)
         (recentlySentTo ∪ {[ toId ]}) (published r),
       Some (mkSendTopic toId (id r) messageId (controlTopic r)))
  | [] =>
      (mkRemotes (id r) (controlTopic r) (isGenesis r) recentlySentTo (published r),
       None)
  end.

(** [getResponse(messageId, ack)]: the reply that comes in time, or the
    timeout. *)
Definition getResponse {T} (reply : option T) : Error + T :=
  match reply with
  | Some res => inr res
  | None => inl SendTimeout
  end.

(** [send<T>(request)]; [messageId] is its [uuid()], [reply] what comes back
    before the timeout, if anything. *)
Definition send {T} (present : list string) (messageId : string)
    (reply : option T) (request : Request) (r : MqttRemotes)
    : MqttRemotes * (Error + T) :=
  let '(r, address) := nextSendAddress present messageId r in
  match address with
  | None =>
      (r, inl (NONE_VISIBLE ("No-one present on " +:+ controlTopic r
                             +:+ " to send message to")))
  | Some address =>
      (mkRemotes (id r) (controlTopic r) (isGenesis r) (recentlySentTo r)
         (published r ++ [(address, request)]),
       getResponse reply)
  end.

(** [newClock()]. While [isGenesis] is unresolved the call waits: [None]. *)
Definition newClock (present : list string) (messageId : string)
    (reply : option NewClockResponse) (r : MqttRemotes)
    : MqttRemotes * option (Error + TreeClock) :=
  match isGenesis r with
  | None => (r, None)
  | Some true => (r, Some (inr GENESIS))
  | Some false =>
      let '(r, res) := send present messageId reply NewClockRequest r in
      (r, Some (sum_map (λ err, err) clock res))
  end.

(** The listener of presence changes: with more than just me present, we
    are online. The result is what [setOnline] is called with. *)
Definition onPresenceChange (present : list string) (r : MqttRemotes) : bool :=
  foldl (λ online id', online || bool_decide (id' ≠ id r)) false present.

(** [Response.Revup]. *)
Record RevupResponse := mkRevupResponse { canRevup : bool; updatesAddress : string }.

(** What [replyRevup] answers with at the clone [cloneId]: with updates to
    give, the address that it produces them on, a [uuid()]; with none, its
    own id. *)
Definition replyRevup (cloneId : string) (revup : option string) : RevupResponse :=
  match revup with
  | Some updatesAddress => mkRevupResponse true updatesAddress
  | None => mkRevupResponse false cloneId
  end.

(** [revupFromNext(time, tried)]. Each request takes its message id and what
    comes back for it from [sends]; with none left the call is still
    waiting: [None]. With a response that can revup the updates are consumed
    from the sub-address [updatesAddress] of the control topic, which is the
    result here; with none the result is undefined. *)
Fixpoint revupFromNext (present : list string)
    (sends : list (string * option RevupResponse)) (time : TreeClock)
    (tried : gset string) (r : MqttRemotes)
    : MqttRemotes * option (Error + option string) :=
  match sends with
  | [] => (r, None)
  | (messageId, reply) :: sends =>
      let '(r, res) := send present messageId reply (RevupRequest time) r in
      match res with
      | inl err => (r, Some (inl err))
      | inr res =>
          if canRevup res then (r, Some (inr (Some (updatesAddress res))))
          else if decide (updatesAddress res ∉ tried)
          then revupFromNext present sends time (tried ∪ {[ updatesAddress res ]}) r
          else (r, Some (inr None))
      end
  end.

Definition revupFrom (present : list string)
    (sends : list (string * option RevupResponse)) (time : TreeClock) (r : MqttRemotes)
    : MqttRemotes * option (Error + option string) :=
  revupFromNext present sends time ∅ r.

(** Requests sent one after the other while the same clones are present,
    each with its message id and with what comes back for it. *)
Definition sendAll {T} (present : list string) (request : Request)
    (sends : list (string * option T)) (r : MqttRemotes) : MqttRemotes :=
  foldl (λ r s, (send present s.1 s.2 request r).1) r sends.

End WithClock.

Arguments Request : clear implicits.
Arguments NewClockResponse : clear implicits.
Arguments MqttRemotes : clear implicits.

(** [onRemoteUpdate(payload)]. What arrives on the operations topic is the
    JSON of a delta message with the id of the channel that published it
    under [__channel.id], if it has one; [update] is what
    [DeltaMessage.fromJson] makes of the JSON. An update that this clone
    published is ignored; another goes to [nextUpdate]; a JSON that is no
    delta message closes the remotes with [BAD_UPDATE]. *)
Record OperationsJson (D : Type) := mkOperationsJson {
  channelId : option string;
  update : option D
}.
Arguments mkOperationsJson {D} _ _.
Arguments channelId {D} _.
Arguments update {D} _.

Inductive RemoteUpdate (D : Type) :=
| Ignored
| NextUpdate (update : D)
| CloseBadUpdate.
Arguments Ignored {D}.
Arguments NextUpdate {D} _.
Arguments CloseBadUpdate {D}.

Definition onRemoteUpdate {D} (id : string) (json : OperationsJson D) : RemoteUpdate D :=
  let echoed :=
    match channelId json with
    | Some channel => negb (bool_decide (channel = "")) && bool_decide (channel = id)
    | None => false
    end in
  if echoed then Ignored
  else match update json with
       | Some update => NextUpdate update
       | None => CloseBadUpdate
       end.

(** What the subscriber of the local clone's updates publishes on the
    operations topic for [msg] when the remotes are online: the message's
    JSON with the id of the remotes as the channel id. Offline, nothing.
    [DeltaMessage.fromJson] reads the message back from its JSON. *)
Definition relay {D} (id : string) (online : bool) (msg : D) : option (OperationsJson D) :=
  if online then Some (mkOperationsJson (Some id) (Some msg)) else None.

End Mqtt.

(** ** MqttRemotes: notifications under the notify lock

    [notify(address, notification)] publishes a notification to a
    subscriber's address. The remotes have one [notifyLock] for all their
    notifications, keyed by the address; the notification may be a promise,
    which is awaited with the lock held. A call that finds [maxPending]
    calls waiting for its address is refused by the lock: its promise
    rejects and it publishes nothing. *)

Module Notify.

Import QuadStore.

Section Notify.

Context {J E : Type}.

(** [JSON.stringify]. *)
Context (stringify : J → string).

(** [JsonNotification | Promise<JsonNotification>]. *)
Inductive Notification :=
| Value (json : J)
| Promise (promise : nat).

(** Where a call of [notify] stands: queued on the lock; in
    [await notification]; in the promise of [this.mqtt.publish(..)];
    settled; or refused by the lock. *)
Inductive Phase :=
| Queued
| Awaiting
| Publishing
| Settled
| Refused.

#[global] Instance Phase_eq_dec : EqDecision Phase.
Proof. solve_decision. Defined.

Record Task := mkTask {
  address : string;
  notification : Notification;
  phase : Phase
}.

(** The remotes on the event loop: the notify lock, the calls of [notify]
    so far, the promises that have settled, and the calls of
    [this.mqtt.publish] so far, each with the task that made it, the topic
    and the payload. *)
Record Remotes := mkRemotes {
  notifyLock : AsyncLock;
  tasks : list Task;
  promises : gmap nat (E + J);
  published : list (nat * string * string)
}.

(** [private readonly notifyLock = new AsyncLock]. *)
Definition newRemotes : Remotes := mkRemotes newAsyncLock [] ∅ [].

Definition setPhase (task : nat) (ph : Phase) (tasks : list Task) : list Task :=
  alter (λ t, mkTask (address t) (notification t) ph) task tasks.

(** What [await notification] gives, once it is there. *)
Definition awaited (rt : Remotes) (notification : Notification) : option (E + J) :=
  match notification with
  | Value json => Some (inr json)
  | Promise promise => promises rt !! promise
  end.

(** [notify(address, notification)] is called:
    [this.notifyLock.acquire(address, ..)]. The lock refuses the call when
    [maxPending] calls wait for the address: the callback never runs. *)
Definition notify (address : string) (notification : Notification) (rt : Remotes)
    : Remotes :=
  let task := length (tasks rt) in
  if decide (maxPending ≤ pending (notifyLock rt) address)
  then mkRemotes (notifyLock rt) (tasks rt ++ [mkTask address notification Refused])
         (promises rt) (published rt)
  else
    let '(lock, now) := acquire (notifyLock rt) address task in
    mkRemotes lock
      (tasks rt ++ [mkTask address notification (if now then Awaiting else Queued)])
      (promises rt) (published rt).

(** The task has settled: the lock lets the next task waiting for the
    address in. *)
Definition finish (task : nat) (t : Task) (rt : Remotes) : Remotes :=
  let '(lock, next) := release (notifyLock rt) (address t) in
  let tasks := setPhase task Settled (tasks rt) in
  mkRemotes lock
    (match next with
     | Some next => setPhase next Awaiting tasks
     | None => tasks
     end)
    (promises rt) (published rt).

(** A promise settles, once. *)
Definition settle (promise : nat) (outcome : E + J) (rt : Remotes) : Remotes :=
  mkRemotes (notifyLock rt) (tasks rt)
    (match promises rt !! promise with
     | None => <[promise := outcome]> (promises rt)
     | Some _ => promises rt
     end)
    (published rt).

(** [await notification] resumes in [task]: with the notification
    [this.mqtt.publish] is called; a rejected promise rejects the task. *)
Definition resumeAwait (task : nat) (rt : Remotes) : Remotes :=
  match tasks rt !! task with
  | Some t =>
      match phase t with
      | Awaiting =>
          match awaited rt (notification t) with
          | Some (inr json) =>
              mkRemotes (notifyLock rt) (setPhase task Publishing (tasks rt))
                (promises rt) (published rt ++ [(task, address t, stringify json)])
          | Some (inl _) => finish task t rt
          | None => rt
          end
      | _ => rt
      end
  | None => rt
  end.

(** The promise of [this.mqtt.publish] has settled, either way. *)
Definition resumePublished (task : nat) (rt : Remotes) : Remotes :=
  match tasks rt !! task with
  | Some t =>
      match phase t with
      | Publishing => finish task t rt
      | _ => rt
      end
  | None => rt
  end.

(** The steps of the event loop, and a run of them. *)
Inductive Step :=
| Notify (address : string) (notification : Notification)
| Settle (promise : nat) (outcome : E + J)
| ResumeAwait (task : nat)
| ResumePublished (task : nat).

Definition step (rt : Remotes) (s : Step) : Remotes :=
  match s with
  | Notify address notification => notify address notification rt
  | Settle promise outcome => settle promise outcome rt
  | ResumeAwait task => resumeAwait task rt
  | ResumePublished task => resumePublished task rt
  end.

Definition run (steps : list Step) (rt : Remotes) : Remotes := foldl step rt steps.

(** What the calls of [notify] for an address have to publish, in the order
    of the calls: for every call that the lock did not refuse and whose
    notification was not rejected, the task, the address and the JSON string
    of the notification. *)
Definition notified (rt : Remotes) (a : string) : list (nat * string * string) :=
  omap (λ task,
          t ← tasks rt !! task;
          if decide (address t = a ∧ phase t ≠ Refused) then
            match awaited rt (notification t) with
            | Some (inr json) => Some (task, a, stringify json)
            | _ => None
            end
          else None)
       (seq 0 (length (tasks rt))).

(** A call is over when it has settled or was refused. *)
Definition over (ph : Phase) : Prop := ph = Settled ∨ ph = Refused.

#[global] Instance over_dec ph : Decision (over ph).
Proof. unfold over. apply _. Defined.

(** What holds of the remotes at every step. The tasks waiting for an
    address are queued calls for it, in the order of the calls; a task that
    is not over holds or waits for the lock of its address; a task has left
    the queue only when the earlier ones for its address are over; a task is
    refused only after [maxPending] others;
    what has been published is of tasks that have left [await notification]
    with it, and is in the order of the calls for each address; a task that
    has left [await notification] has published, unless its notification was
    rejected. *)
Record invariant (rt : Remotes) : Prop := mkInvariant {
  waiting_queued : ∀ a waiting w,
    queues (notifyLock rt) !! a = Some waiting → w ∈ waiting →
    ∃ t, tasks rt !! w = Some t ∧ address t = a ∧ phase t = Queued;
  waiting_sorted : ∀ a waiting,
    queues (notifyLock rt) !! a = Some waiting → StronglySorted lt waiting;
  unsettled_locked : ∀ task t,
    tasks rt !! task = Some t → ¬ over (phase t) →
    ∃ waiting, queues (notifyLock rt) !! address t = Some waiting
               ∧ (phase t = Queued → task ∈ waiting);
  started_in_turn : ∀ i j ti tj,
    tasks rt !! i = Some ti → tasks rt !! j = Some tj → address ti = address tj →
    i < j → phase tj ≠ Queued → phase tj ≠ Refused → over (phase ti);
  published_task : ∀ k task a payload,
    published rt !! k = Some (task, a, payload) →
    ∃ t json, tasks rt !! task = Some t ∧ address t = a
              ∧ (phase t = Publishing ∨ phase t = Settled)
              ∧ awaited rt (notification t) = Some (inr json)
              ∧ payload = stringify json;
  published_in_turn : ∀ i j task task' a payload payload',
    published rt !! i = Some (task, a, payload) →
    published rt !! j = Some (task', a, payload') →
    i < j → task < task';
  started_published : ∀ task t,
    tasks rt !! task = Some t → phase t = Publishing ∨ phase t = Settled →
    (∃ err, awaited rt (notification t) = Some (inl err))
    ∨ (∃ k payload, published rt !! k = Some (task, address t, payload));
  refused_late : ∀ task t,
    tasks rt !! task = Some t → phase t = Refused → maxPending ≤ task
}.

End Notify.

Arguments Notification : clear implicits.
Arguments Task : clear implicits.
Arguments Remotes : clear implicits.
Arguments Step : clear implicits.

End Notify.

(** ** AblyRemotes: the names of direct messages *)

Module Ably.

(** [name.split(sep)] on a separator of one character: the result is never
    empty; it is given as its first piece and the pieces after it. *)
Fixpoint split (sep : Ascii.ascii) (s : string) : string * list string :=
  match s with
  | EmptyString => (EmptyString, [])
  | String c s =>
      let '(piece, pieces) := split sep s in
      if decide (c = sep) then (EmptyString, piece :: pieces)
      else (String c piece, pieces)
  end.

(** An [Ably.Types.Message], by the fields that are read. *)
Record Message (D : Type) := mkMessage {
  name : string;
  clientId : string;
  data : D
}.
Arguments mkMessage {D} _ _ _.
Arguments name {D} _.
Arguments clientId {D} _.
Arguments data {D} _.

(** [SendTypeParams | ReplyTypeParams]. The ids come out of a destructured
    array: a piece that the name lacks is undefined. *)
Inductive DirectParams :=
| SendTypeParams (messageId : option string) (fromId toId : string)
| ReplyTypeParams (messageId sentMessageId : option string) (fromId toId : string).

(** [getParams(message)] in the remotes of the clone [id]. *)
Definition getParams {D} (id : string) (message : Message D) : option DirectParams :=
  let '(type, pieces) := split ":"%char (name message) in
  let messageId := pieces !! 0 in
  let sentMessageId := pieces !! 1 in
  if decide (type = "__send")
  then Some (SendTypeParams messageId (clientId message) id)
  else if decide (type = "__reply")
  then Some (ReplyTypeParams messageId sentMessageId (clientId message) id)
  else None.

(** What [onDirectMessage] does with a message: [onSent] or [onReply] is
    called with the data and the params, or nothing is. *)
Inductive Handled (D : Type) :=
| OnSent (data : D) (params : DirectParams)
| OnReply (data : D) (params : DirectParams)
| Unhandled.
Arguments OnSent {D} _ _.
Arguments OnReply {D} _ _.
Arguments Unhandled {D}.

Definition onDirectMessage {D} (id : string) (message : Message D) : Handled D :=
  match getParams id message with
  | Some (SendTypeParams _ _ _ as params) => OnSent (data message) params
  | Some (ReplyTypeParams _ _ _ _ as params) => OnReply (data message) params
  | None => Unhandled
  end.

(** What [getSubPub] is given: the params of a send or of a reply, without
    [fromId]. *)
Inductive DirectName :=
| SendName (toId messageId : string)
| ReplyName (toId messageId sentMessageId : string).

(** A [SubPub], by its id and by the name that [publish] gives its
    messages. *)
Record SubPub := mkSubPub { subPubId : string; publishName : string }.

Definition channelName (domain id : string) : string := domain +:+ ":" +:+ id.

Definition getSubPub (domain : string) (name : DirectName) : SubPub :=
  match name with
  | SendName toId messageId =>
      mkSubPub (channelName domain toId) ("__send:" +:+ messageId)
  | ReplyName toId messageId sentMessageId =>
      mkSubPub (channelName domain toId)
        ("__reply:" +:+ messageId +:+ ":" +:+ sentMessageId)
  end.

Definition sender (domain toId messageId : string) : SubPub :=
  getSubPub domain (SendName toId messageId).

Definition replier (domain toId messageId sentMessageId : string) : SubPub :=
  getSubPub domain (ReplyName toId messageId sentMessageId).

End Ably.

(** ** MeldApi: updates by subject *)

Module MeldApi.

Section Values.

(** The atoms are the strings, numbers and booleans of JSON, equal as
    [Array.prototype.includes] has them; [Body] is what an object holds
    besides what is read here. *)
Context {Atom Body : Type} `{EqDecision Atom}.

(** A json-rql [Value]: an atom; a [Subject] or [Reference], with its [@id]
    if it has one; or a value object, a JavaScript object that is compared
    by identity, which [ref] stands for. *)
Inductive Value :=
| VAtom (a : Atom)
| VSubject (id : option string) (body : Body)
| VValueObject (ref : nat) (body : Body).

(** [!!value['@id']]: the id is there and is not the empty string. *)
Definition truthy (id : option string) : bool :=
  match id with
  | Some id => negb (bool_decide (id = ""))
  | None => false
  end.

(** [v['@id']]; an atom or a value object has none. *)
Definition idOf (v : Value) : option string :=
  match v with
  | VSubject id _ => id
  | _ => None
  end.

(** [includesValue(arr, value)]. The inner [isSubjectOrRef(v)] tests
    [value], not [v]: when [value] is a subject or a reference the filter
    keeps all of [arr]. *)
Definition includesValue (arr : list Value) (value : Value) : bool :=
  match value with
  | VSubject id _ => truthy id && bool_decide (id ∈ idOf <$> arr)
  | VAtom a =>
      existsb (λ v, match v with VAtom b => bool_decide (a = b) | _ => false end) arr
  | VValueObject ref _ =>
      existsb (λ v, match v with
                    | VValueObject ref' _ => bool_decide (ref = ref')
                    | _ => false
                    end) arr
  end.

(** What a subject has under a key: one value or an array of values. *)
Inductive Property :=
| One (v : Value)
| Many (vs : list Value).

(** [array(value)] of [util], which is not among the sources; [Resource]'s
    comment has [[]], undefined and null equivalent under it: nothing gives
    no values, a value gives itself, an array gives its values. *)
Definition array (value : option Property) : list Value :=
  match value with
  | None => []
  | Some (One v) => [v]
  | Some (Many vs) => vs
  end.

Definition isArray (value : option Property) : bool :=
  match value with
  | Some (Many _) => true
  | _ => false
  end.

Definition updateProperty (value insertVal deleteVal : option Property) : Property :=
  let rtn := filter (λ v, includesValue (array deleteVal) v = false) (array value) in
  let rtn := rtn ++ filter (λ v, includesValue rtn v = false) (array insertVal) in
  match rtn with
  | [v] => if isArray value then Many rtn else One v
  | _ => Many rtn
  end.

(** A [Subject]: its [@id], if any, and its other keys. *)
Record Subject := mkSubject {
  sid : option string;
  props : gmap string Property
}.

(** [DeleteInsert<Subject>], as [bySubject] builds it: either side can be
    missing. *)
Record DeleteInsert := mkDeleteInsert {
  delete : option Subject;
  insert : option Subject
}.

(** [side && msg['@id'] == side['@id'] ? side : {}], for the inserts and for
    the deletes of [update]. The ids are compared with [==], under which two
    missing ids are equal. *)
Definition forSubject (msg : Subject) (side : option Subject) : gmap string Property :=
  match side with
  | Some side => if decide (sid msg = sid side) then props side else ∅
  | None => ∅
  end.

(** An object none of whose own keys names a member of [Object.prototype]:
    under such a key another object answers with the member it inherits. *)
Definition plain (properties : gmap string Property) : Prop :=
  ∀ key, is_Some (properties !! key) → inherited key = false.

(** [update(msg, update)]: every key of [msg] and of the inserts, but
    [@id], is assigned its updated property. The maps hold the own
    properties of the objects, and [msg[key]], [inserts[key]] and
    [deletes[key]] are read from them: that is the source's reading for the
    keys that name no member of [Object.prototype]. Under a key that names
    one, an object that has no such property of its own answers with the
    inherited member, which is no atom. *)
Definition update (msg : Subject) (update : DeleteInsert) : Subject :=
  let inserts := forSubject msg (insert update) in
  let deletes := forSubject msg (delete update) in
  mkSubject (sid msg)
    (map_imap
       (λ key (keyed : option Property * option Property),
          Some (updateProperty keyed.1 keyed.2 (deletes !! key)))
       (merge (λ value insertVal,
                 match value, insertVal with
                 | None, None => None
                 | _, _ => Some (value, insertVal)
                 end)
              (props msg) inserts)).

(** [DeleteInsert<Subject[]>] and [SubjectUpdates]. *)
Record Update := mkUpdate {
  deleted : list Subject;
  inserted : list Subject
}.

Inductive Key := KDelete | KInsert.

Definition side (key : Key) (update : Update) : list Subject :=
  match key with
  | KDelete => deleted update
  | KInsert => inserted update
  end.

(** [{ ...entry, [key]: subject }]. *)
Definition withSide (key : Key) (subject : Subject) (entry : option DeleteInsert)
    : DeleteInsert :=
  let entry := default (mkDeleteInsert None None) entry in
  match key with
  | KDelete => mkDeleteInsert (Some subject) (insert entry)
  | KInsert => mkDeleteInsert (delete entry) (Some subject)
  end.

(** [subject['@id'] ?? '*']. *)
Definition idKey (subject : Subject) : string := default "*" (sid subject).

Definition bySubject (update : Update) (key : Key) (bySubject : gmap string DeleteInsert)
    : gmap string DeleteInsert :=
  foldl (λ byId subject,
           <[idKey subject := withSide key subject (byId !! idKey subject)]> byId)
        bySubject (side key update).

Definition asSubjectUpdates (update : Update) : gmap string DeleteInsert :=
  bySubject update KInsert (bySubject update KDelete ∅).

End Values.

Arguments Value : clear implicits.
Arguments Property : clear implicits.
Arguments Subject : clear implicits.
Arguments DeleteInsert : clear implicits.
Arguments Update : clear implicits.

End MeldApi.

(** ** Examples *)

Module Examples.

Import MeldEncoding SuSet.

(** A vector clock, the flat form of a tree clock: the ticks seen of each
    process, and the process the clock belongs to. *)
Record VClock := mkVClock { vid : string; seen : list (string * nat) }.

Fixpoint seenOf (v : list (string * nat)) (id : string) : option nat :=
  match v with
  | [] => None
  | (k, n) :: v => if decide (k = id) then Some n else seenOf v id
  end.

#[global] Instance VClock_clock : CausalClock VClock := {|
  ticks c := default 0 (seenOf (seen c) (vid c));
  getTicks c other := seenOf (seen c) (vid other);
  anyLt c other :=
    existsb (λ kn : string * nat, default 0 (seenOf (seen c) kn.1) <? kn.2) (seen other);
  GENESIS := mkVClock "genesis" [("genesis", 0)]
|}.

Definition fred_name : Triple :=
  quad (NamedNode "http://test.m-ld.org/fred")
       (NamedNode "http://test.m-ld.org/#name") (Literal "Fred").
Definition fred_flintstone : Triple :=
  quad (NamedNode "http://test.m-ld.org/fred")
       (NamedNode "http://test.m-ld.org/#name") (Literal "Flintstone").
Definition fred_height : Triple :=
  quad (NamedNode "http://test.m-ld.org/fred")
       (NamedNode "http://test.m-ld.org/#height") (Literal "5").

(** The time of clone [A], and of clone [B], having seen [a] ticks of [A]
    and [b] ticks of [B]. *)
Definition clockA (a b : nat) : VClock := mkVClock "A" [("A", a); ("B", b)].
Definition clockB (a b : nat) : VClock := mkVClock "B" [("A", a); ("B", b)].


Definition dsFred : Dataset VClock :=
  mkDataset [fred_name] ["t1"] [(tripleId fred_name, "t1")]
    [ mkEntry 0 (clockA 0 0) None (mkDelta "init" [] []);
      mkEntry 1 (clockA 1 0) None (mkDelta "t1" [fred_name] []) ]
    (Some (clockA 1 0)) false.

(** [SingleValued] is not among the sources; its test has it reject an
    update that gives a subject a second value of the property, and repair
    one by deleting the values after the first. *)
Definition valuesOf (property : string) (s : Term) (quads : list Triple) : list Triple :=
  filter (λ t, subject t = s ∧ predicate t = NamedNode property) (remove_dups quads).

Definition surplus (property : string) (update : MeldUpdate) (graph : list Triple)
    : list Triple :=
  mjoin ((λ t, tail (valuesOf property (subject t) (graph ++ upd_insert update)))
           <$> filter (λ t, predicate t = NamedNode property) (upd_insert update)).

Definition SingleValued (property : string) : MeldConstraint :=
  mkConstraint
    (λ update graph,
       match surplus property update graph with
       | [] => None
       | _ => Some (mkMeldError "Multiple values for single-valued property")
       end)
    (λ update graph,
       match surplus property update graph with
       | [] => None
       | values => Some (λ _, mkPatch (remove_dups values) [])
       end).

Definition singleName : MeldConstraint := SingleValued "http://test.m-ld.org/#name".

(** The delta of a clone [B] that names Fred Flintstone, and clone [A]
    after it has applied it with no constraint. *)
Definition deltaFlintstone : MeldDelta := mkDelta "t2" [fred_flintstone] [].

Definition dsFlintstone : Dataset VClock :=
  dataset (apply NO_CONSTRAINT deltaFlintstone (clockB 0 1) (clockA 2 1) (clockA 3 1)
             "cx" 0 dsFred).

(** Fred's name asserted by two transactions, and a delta that retracts it
    in two reifications, one for each TID. *)
Definition dsTwoTids : Dataset VClock :=
  mkDataset [fred_name] ["t1"; "t2"]
    [(tripleId fred_name, "t1"); (tripleId fred_name, "t2")]
    [ mkEntry 0 (clockA 0 0) None (mkDelta "init" [] []) ]
    (Some (clockA 0 0)) false.

Definition splitRetraction : MeldDelta :=
  mkDelta "t3" [] (reifyTriplesTids 0 [(fred_name, ["t1"]); (fred_name, ["t2"])]).


(** A clone [A] whose journal was reset by a snapshot taken at its tick 5. *)
Definition dsReset : Dataset VClock :=
  mkDataset [fred_name] ["t1"] [(tripleId fred_name, "t1")]
    [ mkEntry 5 (clockA 5 2) None (mkDelta "reset" [] []) ]
    (Some (clockA 5 2)) false.

(** Clone [B], and [B] after it has applied the delta that named Fred. *)
Definition dsB : Dataset VClock :=
  mkDataset [] [] []
    [mkEntry 0 (clockB 0 0) None (mkDelta "init" [] [])] (Some (clockB 0 0)) false.

Definition deltaFred : MeldDelta := mkDelta "t1" [fred_name] [].

Definition dsBFred : Dataset VClock :=
  dataset (apply NO_CONSTRAINT deltaFred (clockA 1 0) (clockB 1 1) (clockB 1 2)
             "cx" 0 dsB).

(** A delta that states Fred's height and retracts both names of the clone
    that has applied [deltaFlintstone], each in a reification of its own. *)
Definition retractionOfNames : MeldDelta :=
  mkDelta "t3" [fred_height]
    (reifyTriplesTids 0 [(fred_name, ["t1"]); (fred_flintstone, ["t2"])]).

(** The repair that [A] publishes when [B] names Fred Flintstone. *)
Definition repairOfFlintstone : DeltaMessage VClock :=
  mkDeltaMessage (clockA 3 1)
    (mkDelta "cx" []
       (reifyTriplesTids 7 [(fred_flintstone, []); (fred_flintstone, ["t2"])])).

(** The remotes of clone [A], before any hello. *)
Definition remotesA : Mqtt.MqttRemotes VClock :=
  Mqtt.mkRemotes "A" "test.m-ld.org/control" None ∅ [].

(** Two writers on one [QuadStoreDataset]: each inserts its quad unless it
    reads the other's. *)
Definition insertUnless (mine other : string) : QuadStore.Prepare string string () :=
  λ store, inr (Some (mkPatch [] (if decide (other ∈ store) then [] else [mine])), None).

Definition emptyStore : QuadStore.Runtime string string () :=
  QuadStore.mkRuntime "ds" [] [] [] [].

Definition twoCalls : list (QuadStore.Step string string ()) :=
  [ QuadStore.Call (insertUnless "a" "b"); QuadStore.Call (insertUnless "b" "a");
    QuadStore.ResumePrepared 0; QuadStore.ResumePrepared 1;
    QuadStore.ResumePatched 0; QuadStore.ResumePatched 1 ].

(** Subjects of the API, with strings for atoms: Fred, and an update that
    takes his name away and names him Flintstone. *)
Definition apiFred : MeldApi.Subject string () :=
  MeldApi.mkSubject (Some "fred") {[ "name" := MeldApi.One (MeldApi.VAtom "Fred") ]}.

Definition apiRename : MeldApi.DeleteInsert string () :=
  MeldApi.mkDeleteInsert
    (Some (MeldApi.mkSubject (Some "fred")
             {[ "name" := MeldApi.One (MeldApi.VAtom "Fred") ]}))
    (Some (MeldApi.mkSubject (Some "fred")
             {[ "name" := MeldApi.One (MeldApi.VAtom "Flintstone") ]})).

Definition apiWilma : MeldApi.DeleteInsert string () :=
  MeldApi.mkDeleteInsert None
    (Some (MeldApi.mkSubject (Some "wilma")
             {[ "name" := MeldApi.One (MeldApi.VAtom "Wilma") ]})).

(** No peer of [A] can revup: [B] and [C] refuse, and [B] refuses again. *)
Definition refusals : list (string * option Mqtt.RevupResponse) :=
  [ ("m1", Some (Mqtt.replyRevup "B" None));
    ("m2", Some (Mqtt.replyRevup "C" None));
    ("m3", Some (Mqtt.replyRevup "B" None)) ].

(** Two notifications to one subscriber, the promise of the second
    settling before the promise of the first. *)
Definition notifySteps : list (Notify.Step string string) :=
  [ Notify.Notify "sub" (Notify.Promise 0);
    Notify.Notify "sub" (Notify.Promise 1);
    Notify.Settle 1 (inr "two");
    Notify.ResumeAwait 1;
    Notify.Settle 0 (inr "one");
    Notify.ResumeAwait 0;
    Notify.ResumePublished 0;
    Notify.ResumeAwait 1;
    Notify.ResumePublished 1 ].

End Examples.

(** * Properties *)

(** ** Reification round trip *)

Section Reification.

Import MeldEncoding.

Lemma blankNode_inj n m : value (blankNode n) = value (blankNode m) → n = m.
Proof.
  unfold blankNode; cbn [value]. intros Heq.
  apply pretty_nat_inj. by apply (inj (String.append "b")) in Heq.
Qed.

Lemma complete_partial t : complete (partial t) = Some t.
Proof. by destruct t. Qed.

(** The labels of the data factory's blank nodes name no inherited member. *)
Lemma blankNode_own n : inherited (value (blankNode n)) = false.
Proof.
  unfold inherited, blankNode, Object_prototype; cbn [value].
  apply bool_decide_eq_false_2. set_unfold. intros Hin.
  repeat (destruct Hin as [Hin|Hin]; [discriminate Hin|]). done.
Qed.

Lemma reduce_app {A B} (callback : B → A → option B) initial (l1 l2 : list A) :
  reduce callback initial (l1 ++ l2)
  = reduce callback initial l1 ≫= λ acc, reduce callback acc l2.
Proof.
  revert initial. induction l1 as [|x l1 IH]; intros initial; [done|].
  cbn. destruct (callback initial x); cbn; [apply IH|done].
Qed.

(** What [unreify_step] does with each quad of a reification whose entry
    is [(triple, tids)] so far. *)
Lemma unreify_step_subject rids rid triple tids o :
  rids !! rid = Some (triple, tids) →
  isNamedNode o = true →
  unreify_step rids (quad (BlankNode rid) (name RDF_subject) o)
  = Some (<[rid := ({| psubject := Some o; ppredicate := ppredicate triple;
                       pobject := pobject triple |}, tids)]> rids).
Proof.
  intros Hrid Ho. unfold unreify_step; simpl. rewrite Hrid; simpl.
  repeat case_decide; try done. by rewrite Ho.
Qed.

Lemma unreify_step_predicate rids rid triple tids o :
  rids !! rid = Some (triple, tids) →
  isNamedNode o = true →
  unreify_step rids (quad (BlankNode rid) (name RDF_predicate) o)
  = Some (<[rid := ({| psubject := psubject triple; ppredicate := Some o;
                       pobject := pobject triple |}, tids)]> rids).
Proof.
  intros Hrid Ho. unfold unreify_step; simpl. rewrite Hrid; simpl.
  repeat case_decide; try done. by rewrite Ho.
Qed.

Lemma unreify_step_object rids rid triple tids o :
  rids !! rid = Some (triple, tids) →
  unreify_step rids (quad (BlankNode rid) (name RDF_object) o)
  = Some (<[rid := ({| psubject := psubject triple; ppredicate := ppredicate triple;
                       pobject := Some o |}, tids)]> rids).
Proof.
  intros Hrid. unfold unreify_step; simpl. rewrite Hrid; simpl.
  repeat case_decide; done.
Qed.

Lemma unreify_step_tid rids rid triple tids tid :
  rids !! rid = Some (triple, tids) →
  unreify_step rids (quad (BlankNode rid) (name M_LD_tid) (Literal tid))
  = Some (<[rid := (triple, tids ++ [tid])]> rids).
Proof.
  intros Hrid. unfold unreify_step; simpl. rewrite Hrid; simpl.
  repeat case_decide; done.
Qed.

(** The TID quads of a reification add their TIDs, in order. *)
Lemma unreify_tids rids rid triple acc (tids : list UUID) :
  reduce unreify_step (<[rid := (triple, acc)]> rids)
    ((λ tid, quad (BlankNode rid) (name M_LD_tid) (Literal tid)) <$> tids)
  = Some (<[rid := (triple, acc ++ tids)]> rids).
Proof.
  revert acc. induction tids as [|tid tids IH]; intros acc; simpl.
  - by rewrite app_nil_r.
  - rewrite (unreify_step_tid _ rid triple acc) by apply lookup_insert_eq. cbn.
    rewrite insert_insert_eq, IH. by rewrite <- app_assoc.
Qed.

(** One entry, reified under a fresh id that names no inherited member,
    comes back whole. *)
Lemma unreify_entry rids rid (entry : Triple * list UUID) :
  rids !! rid = None →
  inherited rid = false →
  isNamedNode (subject entry.1) = true →
  isNamedNode (predicate entry.1) = true →
  reduce unreify_step rids (reifyEntry (BlankNode rid) entry)
  = Some (<[rid := (partial entry.1, entry.2)]> rids).
Proof.
  intros Hfresh Hown Hs Hp. destruct entry as [[s p o] tids]; simpl in *.
  assert (unreify_step rids (quad (BlankNode rid) (name RDF_type) (name RDF_Statement))
          = Some (<[rid := (emptyTriple, [])]> rids)) as ->.
  { unfold unreify_step; simpl. rewrite Hfresh, Hown; simpl. repeat case_decide; done. }
  cbn.
  rewrite (unreify_step_subject _ rid emptyTriple []) by (done || apply lookup_insert_eq).
  cbn. rewrite insert_insert_eq; simpl.
  rewrite (unreify_step_predicate _ rid _ []) by (done || apply lookup_insert_eq).
  cbn. rewrite insert_insert_eq; simpl.
  rewrite (unreify_step_object _ rid _ []) by apply lookup_insert_eq.
  cbn. rewrite insert_insert_eq; simpl.
  by rewrite unreify_tids.
Qed.

Lemma unreify_entries (triplesTids : list (Triple * list UUID)) :
  ∀ next rids,
    (∀ k, next ≤ k → rids !! value (blankNode k) = None) →
    Forall iriTriple triplesTids →
    ∃ reduced,
      reduce unreify_step rids (reifyTriplesTids next triplesTids) = Some reduced
      ∧ snd <$> map_to_list reduced
        ≡ₚ (snd <$> map_to_list rids)
           ++ ((λ entry, (partial entry.1, entry.2)) <$> triplesTids).
Proof.
  induction triplesTids as [|entry rest IH]; intros next rids Hfresh Hiri;
    cbn [reifyTriplesTids].
  - exists rids. split; [done|]. simpl. by rewrite app_nil_r.
  - apply Forall_cons in Hiri as [[Hs Hp] Hiri].
    rewrite reduce_app.
    change (blankNode next) with (BlankNode (value (blankNode next))).
    rewrite unreify_entry
      by first [done | apply blankNode_own | apply (Hfresh next); lia].
    cbn [mbind option_bind].
    destruct (IH (S next) (<[value (blankNode next) := (partial entry.1, entry.2)]> rids))
      as (reduced & -> & Hperm); [intros k Hk|done|].
    + rewrite lookup_insert_ne; [apply Hfresh; lia|].
      intros Heq. apply (blankNode_inj next k) in Heq. lia.
    + exists reduced. split; [done|]. rewrite Hperm.
      rewrite map_to_list_insert by (apply (Hfresh next); lia).
      simpl. by rewrite Permutation_middle.
Qed.

(** C10. For a map from triples whose subject and predicate are IRIs to
    lists of TIDs, [unreify] of the reification by [reifyTriplesTids] gives
    back the triples with their TIDs: the same associations, up to the order
    of the entries, whatever the state of the blank node counter. *)
Theorem unreify_reifyTriplesTids (next : nat) (triplesTids : list (Triple * list UUID)) :
  Forall iriTriple triplesTids →
  ∃ entries,
    unreify (reifyTriplesTids next triplesTids) = Some entries
    ∧ entries ≡ₚ (λ entry, (partial entry.1, entry.2)) <$> triplesTids.
Proof.
  intros Hiri. unfold unreify.
  destruct (unreify_entries triplesTids next ∅) as (reduced & -> & Hperm);
    [intros; apply lookup_empty|done|].
  eexists. split; [done|]. by rewrite Hperm, map_to_list_empty.
Qed.

End Reification.

(** ** The transaction lock of [QuadStoreDataset] *)

Section TransactionLock.

Import QuadStore.

Context {Q : Type} `{EqDecision Q} {E T : Type}.

(** A lock made by [new AsyncLock()] is free for every key. *)
Lemma acquire_new key task :
  acquire newAsyncLock key task = (mkAsyncLock {[ key := [] ]}, true).
Proof. unfold acquire, newAsyncLock; simpl. by rewrite lookup_empty. Qed.

(** A lock that is held makes the next task wait. *)
Lemma acquire_held lock key task waiting :
  queues lock !! key = Some waiting →
  acquire lock key task
  = (mkAsyncLock (<[key := waiting ++ [task]]> (queues lock)), false).
Proof. intros Hheld. unfold acquire. by rewrite Hheld. Qed.

(** So no call of [transact] ever waits: its task is in [await prepare()]
    as soon as it is called, whatever the other tasks are doing. *)
Lemma transact_never_waits (prepare : Prepare Q E T) (rt : Runtime Q E T) :
  transact prepare rt
  = mkRuntime (id rt) (store rt) (locks rt ++ [mkAsyncLock {[ id rt := [] ]}])
      (tasks rt ++ [mkTask (length (locks rt)) prepare Preparing]) (trace rt).
Proof. unfold transact. by rewrite acquire_new. Qed.

(** Of two calls in a row, whatever they prepare, the second can prepare
    before the patch of the first is in the store: both read the store as it
    was. *)
Lemma second_prepares_before_first_patches
    (prepare1 prepare2 : Prepare Q E T) id store patch1 rtn1 :
  prepare1 store = inr (Some patch1, rtn1) →
  take 2 (trace (run [Call prepare1; Call prepare2; ResumePrepared 0; ResumePrepared 1]
                   (mkRuntime id store [] [] [])))
  = [Prepared 0 store; Prepared 1 store].
Proof.
  intros Hpatch1. unfold run. cbn [foldl step].
  rewrite !transact_never_waits.
  cbn [tasks locks length app QuadStore.id QuadStore.store trace].
  unfold resumePrepared at 2. cbn. rewrite Hpatch1. cbn.
  unfold resumePrepared. cbn.
  destruct (prepare2 store) as [err|[[patch2|] rtn2]]; cbn; [|done|];
    by destruct (release _ _).
Qed.

(** A [prepare] that rejects leaves the store as it is. *)
Lemma resumePrepared_rejected task (rt : Runtime Q E T) t err :
  tasks rt !! task = Some t →
  phase t = Preparing →
  prepare t (store rt) = inl err →
  store (resumePrepared task rt) = store rt.
Proof.
  intros Htask Hphase Hrejected. unfold resumePrepared.
  rewrite Htask, Hphase, Hrejected. unfold done. cbn.
  destruct (locks rt !! lock t) as [l|]; [|done]. by destruct (release l (id rt)).
Qed.

End TransactionLock.

(** C7. Two calls of [transact] on one dataset, the second made before the
    first has settled: each call takes a lock of its own, so the second
    prepares before the first has patched. Both read the empty store, the
    trace is not serial, and both quads are written, which no serial order
    of the two gives. *)
Theorem transact_interleaves :
  let rt := QuadStore.run Examples.twoCalls Examples.emptyStore in
  QuadStore.trace rt
  = [ QuadStore.Prepared 0 []; QuadStore.Prepared 1 [];
      QuadStore.Patched 0; QuadStore.Settled 0;
      QuadStore.Patched 1; QuadStore.Settled 1 ]
  ∧ QuadStore.serial None (QuadStore.trace rt) = false
  ∧ QuadStore.store rt = ["a"; "b"].
Proof. vm_compute. done. Qed.

(** ** MqttRemotes: genesis and send *)

Section Remotes.

Import Mqtt.

Context {TreeClock : Type} `{!CausalClock TreeClock}.

Implicit Types (r : MqttRemotes TreeClock) (present : list string).

Lemma onHello_resolved hello r b :
  isGenesis r = Some b → isGenesis (onHello hello r) = Some b.
Proof. intros Hb. unfold onHello; simpl. rewrite Hb. by case_decide. Qed.

Lemma onHello_id hello r : id (onHello hello r) = id r.
Proof. done. Qed.

Lemma observe_resolved hellos r b :
  isGenesis r = Some b → isGenesis (observe hellos r) = Some b.
Proof.
  revert r. induction hellos as [|hello hellos IH]; intros r Hb; [done|].
  simpl. by apply IH, onHello_resolved.
Qed.

Lemma observe_first hello hellos r :
  isGenesis r = None →
  isGenesis (observe (hello :: hellos) r) = Some (bool_decide (id r = hello)).
Proof.
  intros Hnone. simpl. apply observe_resolved.
  unfold onHello; simpl. rewrite Hnone.
  case_decide; [rewrite bool_decide_eq_true_2|rewrite bool_decide_eq_false_2]; done.
Qed.

Lemma forallb_Forall {A} (P : A → Prop) `{∀ x, Decision (P x)} (l : list A) :
  reflect (Forall P l) (forallb (λ x, bool_decide (P x)) l).
Proof.
  induction l as [|x l IH]; simpl.
  - by left.
  - case_bool_decide; simpl.
    + destruct IH; constructor; [by constructor|by inversion 1].
    + constructor. by inversion 1.
Qed.

(** The hellos leave the rest of the remotes alone. *)
Lemma observe_fields hellos r :
  id (observe hellos r) = id r
  ∧ controlTopic (observe hellos r) = controlTopic r
  ∧ recentlySentTo (observe hellos r) = recentlySentTo r
  ∧ published (observe hellos r) = published r.
Proof.
  revert r. induction hellos as [|hello hellos IH]; intros r; [done|].
  change (observe (hello :: hellos) r) with (observe hellos (onHello hello r)).
  by destruct (IH (onHello hello r)) as (-> & -> & -> & ->).
Qed.

(** C8. The first hello that a clone sees on the registry topic settles
    [isGenesis], whatever hellos follow. When it carried the clone's own id,
    [newClock] resolves to [GENESIS] and nothing is published. When it
    carried another id, [newClock] publishes a [NewClock] request on the
    send topic of the first peer present that is not the clone itself and is
    not in [recentlySentTo] (cleared when all present are in it), and
    resolves to the clock of the response, or rejects with the timeout when
    none comes; with no such peer it rejects with [NONE_VISIBLE] and
    publishes nothing. So [newClock] resolves to [GENESIS] exactly when the
    first hello was the clone's own, given that no peer answers with
    [GENESIS]: the clock of a response is a fork of the peer's clock, made
    by [TreeClock], which is not among the sources. *)
Theorem newClock_first_hello r hello hellos present messageId reply :
  isGenesis r = None →
  (∀ res, reply = Some res → clock res ≠ GENESIS) →
  let r1 := observe (hello :: hellos) r in
  let called := newClock present messageId reply r1 in
  let recent : gset string :=
    if decide (Forall (λ peer, peer ∈ recentlySentTo r) present)
    then ∅ else recentlySentTo r in
  let eligible := filter (λ peer, peer ≠ id r ∧ peer ∉ recent) present in
  (id r = hello → called = (r1, Some (inr GENESIS)) ∧ published r1 = published r)
  ∧ (id r ≠ hello →
     match eligible with
     | toId :: _ =>
         published called.1
         = published r
           ++ [(mkSendTopic toId (id r) messageId (controlTopic r), NewClockRequest)]
         ∧ called.2 = Some match reply with
                           | Some res => inr (clock res)
                           | None => inl SendTimeout
                           end
     | [] =>
         published called.1 = published r
         ∧ ∃ detail, called.2 = Some (inl (NONE_VISIBLE detail))
     end)
  ∧ (called.2 = Some (inr GENESIS) ↔ id r = hello).
Proof.
  intros Hnone Hfork r1 called recent eligible.
  assert (isGenesis r1 = Some (bool_decide (id r = hello))) as Hfirst
    by by apply observe_first.
  destruct (observe_fields (hello :: hellos) r) as (Hid & Htopic & Hrecent & Hpublished).
  fold r1 in Hid, Htopic, Hrecent, Hpublished.
  assert (id r = hello → called = (r1, Some (inr GENESIS))) as Hown.
  { intros Heq. unfold called, newClock. rewrite Hfirst.
    by rewrite bool_decide_eq_true_2. }
  assert (id r ≠ hello →
          match eligible with
          | toId :: _ =>
              published called.1
              = published r
                ++ [(mkSendTopic toId (id r) messageId (controlTopic r), NewClockRequest)]
              ∧ called.2 = Some match reply with
                                | Some res => inr (clock res)
                                | None => inl SendTimeout
                                end
          | [] =>
              published called.1 = published r
              ∧ ∃ detail, called.2 = Some (inl (NONE_VISIBLE detail))
          end) as Hother.
  { intros Hne. unfold called, newClock. rewrite Hfirst.
    rewrite bool_decide_eq_false_2 by done.
    unfold send, nextSendAddress. rewrite Hid, Htopic, Hrecent, Hpublished.
    assert ((if forallb (λ id, bool_decide (id ∈ recentlySentTo r)) present
             then ∅ else recentlySentTo r) = recent) as ->.
    { unfold recent.
      destruct (forallb_Forall (λ peer, peer ∈ recentlySentTo r) present);
        [by rewrite decide_True|by rewrite decide_False]. }
    assert (filter (λ id0, id0 ∉ recent ∪ {[id r]}) present = eligible) as ->.
    { unfold eligible. apply list_filter_iff. intros peer.
      rewrite not_elem_of_union, not_elem_of_singleton. tauto. }
    destruct eligible as [|toId ?]; cbn; [eauto|].
    split; [done|]. by destruct reply. }
  split; [|split; [done|split]].
  - intros Heq. split; [by apply Hown|done].
  - intros Hres. destruct (decide (id r = hello)) as [|Hne]; [done|].
    exfalso. specialize (Hother Hne). destruct eligible as [|toId ?].
    + destruct Hother as (_ & detail & Herr). congruence.
    + destruct Hother as [_ Hcalled]. rewrite Hcalled in Hres.
      destruct reply as [res|]; [|done]. injection Hres as Hres.
      by apply (Hfork res).
  - intros Heq. by rewrite (Hown Heq).
Qed.

(** C9. [send] takes its target from the peers present, leaving out itself
    and the peers in [recentlySentTo], which it clears first when every peer
    present is in it; the target is the first such peer, the request goes to
    its send topic and the peer joins [recentlySentTo]. With no such peer
    [send] raises [NONE_VISIBLE] and publishes nothing. *)
Theorem send_target {R} present messageId (reply : option R) request r :
  let recent : gset string :=
    if decide (Forall (λ peer, peer ∈ recentlySentTo r) present)
    then ∅ else recentlySentTo r in
  let eligible := filter (λ peer, peer ≠ id r ∧ peer ∉ recent) present in
  let sent := send present messageId reply request r in
  match eligible with
  | [] =>
      (∃ detail, sent.2 = inl (NONE_VISIBLE detail))
      ∧ published sent.1 = published r
      ∧ recentlySentTo sent.1 = recent ∪ {[ id r ]}
  | toId :: _ =>
      toId ∈ present ∧ toId ≠ id r ∧ (toId ∉ recent)
      ∧ sent.2 = getResponse reply
      ∧ published sent.1
        = published r ++ [(mkSendTopic toId (id r) messageId (controlTopic r), request)]
      ∧ recentlySentTo sent.1 = recent ∪ {[ id r ]} ∪ {[ toId ]}
  end.
Proof.
  intros recent eligible sent. unfold sent, send, nextSendAddress.
  assert ((if forallb (λ id, bool_decide (id ∈ recentlySentTo r)) present
           then ∅ else recentlySentTo r) = recent) as ->.
  { unfold recent. destruct (forallb_Forall (λ peer, peer ∈ recentlySentTo r) present);
      by case_decide. }
  assert (filter (λ id0, id0 ∉ recent ∪ {[id r]}) present = eligible) as ->.
  { unfold eligible. apply list_filter_iff. intros peer.
    rewrite not_elem_of_union, not_elem_of_singleton. tauto. }
  assert (∀ peer, peer ∈ eligible → peer ∈ present ∧ peer ≠ id r ∧ peer ∉ recent)
    as Heligible.
  { intros peer Hin. unfold eligible in Hin.
    apply list_elem_of_filter in Hin. tauto. }
  destruct eligible as [|toId ?]; simpl; [eauto|].
  destruct (Heligible toId) as (? & ? & ?); [left|]. done.
Qed.

(** Round-robin: with [B] and [C] present, three sends of [A] go to [B], to
    [C], and to [B] again once both have been sent to. *)
Example send_round_robin :
  let present := ["A"; "B"; "C"] in
  let r0 : MqttRemotes TreeClock :=
    mkRemotes "A" "test.m-ld.org/control" (Some false) ∅ [] in
  let r1 := (send present "m1" (None : option ()) NewClockRequest r0).1 in
  let r2 := (send present "m2" (None : option ()) NewClockRequest r1).1 in
  let r3 := (send present "m3" (None : option ()) NewClockRequest r2).1 in
  toId <$> (published r3).*1 = ["B"; "C"; "B"].
Proof. by vm_compute. Qed.

End Remotes.

(** ** SuSetDataset *)

Section SuSetDataset.

Import MeldEncoding SuSet.

Context {TreeClock : Type} `{!CausalClock TreeClock}.

Implicit Types (ds : Dataset TreeClock) (constraint : MeldConstraint).

(** A delta whose TID is in [qs:all] is dropped. *)
Lemma apply_known constraint msgData msgTime arrivalTime localTime cxTid rid ds :
  closed ds = false →
  tid msgData ∈ allTids ds →
  apply constraint msgData msgTime arrivalTime localTime cxTid rid ds
  = mkOutcome ds (inr None) [].
Proof.
  intros Hopen Hknown.
  unfold apply, checkNotClosed, dataset_transact, apply_prepare, knowsTid.
  rewrite Hopen. by rewrite bool_decide_eq_true_2.
Qed.

(** C3. A local write that the constraint check rejects fails with the
    constraint's error: the rejection comes out of [prepare], so nothing is
    patched: the data graph, the TID graph and the journal are as before,
    and no update is notified. *)
Theorem transact_constraint_failed constraint txid rid prepare ds time patch err :
  closed ds = false →
  prepare ds = inr (time, patch) →
  Constraint.check constraint (asUpdate time patch) (graph ds) = Some err →
  (transact_prepare constraint txid rid prepare ds).1 = inl err
  ∧ transact constraint txid rid prepare ds = mkOutcome ds (inl err) [].
Proof.
  intros Hopen Hprep Hcheck.
  unfold transact, checkNotClosed, dataset_transact, transact_prepare.
  rewrite Hopen, Hprep. unfold mbind, Prep_bind; simpl. by rewrite Hcheck.
Qed.

(** The entry that [findEntry] locates is the first with the tick. *)
Lemma findEntry_found ticks (chain : list (JournalEntry TreeClock)) entry next :
  findEntry ticks chain = entry :: next →
  eticks entry = ticks
  ∧ ∃ before, chain = before ++ entry :: next
              ∧ Forall (λ e, eticks e ≠ ticks) before.
Proof.
  induction chain as [|e chain IH]; simpl; [done|].
  case_decide as Hticks.
  - intros [= -> ->]. split; [done|]. by exists [].
  - intros Hfound. destruct (IH Hfound) as (? & before & -> & ?).
    split; [done|]. exists (e :: before). split; [done|]. by constructor.
Qed.

Lemma findEntry_none ticks (chain : list (JournalEntry TreeClock)) :
  findEntry ticks chain = [] ↔ Forall (λ e, eticks e ≠ ticks) chain.
Proof.
  induction chain as [|e chain IH]; simpl; [done|].
  case_decide as Hticks.
  - split; [done|]. by inversion 1.
  - rewrite IH. split; [by constructor|by inversion 1].
Qed.

(** While the dataset is open the traversal sends the entries that pass the
    filter, in chain order, and completes. *)
Lemma emitJournalFrom_open (chain : list (JournalEntry TreeClock)) filter :
  emitJournalFrom false chain filter
  = ((λ e, Next (mkDeltaMessage (etime e) (edelta e)))
       <$> base.filter (λ e, filter e) chain) ++ [Complete].
Proof.
  induction chain as [|e chain IH]; simpl; [done|].
  rewrite IH, filter_cons. by destruct (filter e).
Qed.

(** C5, as the code has it. [operationsSince(time)] changes nothing. It
    returns undefined when [time.getTicks(journal.time)] is nil, and also
    when the journal has no entry with these ticks. Otherwise it returns the
    sequence that runs from the entry with these ticks, that entry included,
    to the tail, sends the entries for which
    [time.anyLt(entry.time, 'includeIds')] holds, and completes. *)
Theorem operationsSince_from_found time ds now :
  closed ds = false →
  journalTime ds = Some now →
  let called := operationsSince time ds in
  dataset called = ds ∧ effects called = []
  ∧ (outcome called = inr None
     ↔ getTicks time now = None
       ∨ ∃ ticks, getTicks time now = Some ticks
                  ∧ Forall (λ e, eticks e ≠ ticks) (entries ds))
  ∧ (∀ ticks, getTicks time now = Some ticks →
     ∀ entry next, findEntry ticks (entries ds) = entry :: next →
       eticks entry = ticks
       ∧ (∃ before, entries ds = before ++ entry :: next
                    ∧ Forall (λ e, eticks e ≠ ticks) before)
       ∧ ∃ updates, outcome called = inr (Some updates)
           ∧ updates false
             = ((λ e, Next (mkDeltaMessage (etime e) (edelta e)))
                  <$> filter (λ e, anyLt time (etime e)) (entry :: next))
               ++ [Complete]).
Proof.
  intros Hopen Hnow called.
  assert (called = mkOutcome ds
            (inr match match getTicks time now with
                       | Some ticks => findEntry ticks (entries ds)
                       | None => []
                       end with
                 | [] => None
                 | found => Some (λ datasetClosed,
                     emitJournalFrom datasetClosed found (λ entry, anyLt time (etime entry)))
                 end) []) as ->.
  { unfold called, operationsSince, checkNotClosed, dataset_transact, journal_state.
    rewrite Hopen, Hnow. simpl.
    by destruct (getTicks time now) as [ticks|]; [destruct (findEntry _ _)|]. }
  cbn [dataset outcome effects]. split; [done|]. split; [done|]. split; [split|].
  - destruct (getTicks time now) as [ticks|]; [|by left].
    destruct (findEntry ticks (entries ds)) eqn:Hfound; [|done].
    intros _. right. exists ticks. split; [done|]. by apply findEntry_none.
  - intros [Hnil|(ticks & Hticks & Hnone)]; [by rewrite Hnil|].
    rewrite Hticks. apply findEntry_none in Hnone. by rewrite Hnone.
  - intros ticks Hticks entry next Hfound. rewrite Hticks, Hfound.
    destruct (findEntry_found _ _ _ _ Hfound) as [Hentry Hbefore].
    split; [done|]. split; [done|].
    eexists. split; [done|]. cbv beta. apply emitJournalFrom_open.
Qed.

(** The reduce over the deletions pushes old quads only. *)
Lemma applyDeletion_newQuads ds deletions acc :
  newQuads (foldl (applyDeletion ds) acc deletions).1 = newQuads acc.1.
Proof.
  revert acc. induction deletions as [|[triple theirTids] deletions IH]; intros acc;
    [done|].
  simpl. rewrite IH. simpl. by case_decide.
Qed.

(** Every entry given to [reifyTriplesTids] is reified under some id. *)
Lemma reifyTriplesTids_entry (triplesTids : list (Triple * list UUID)) entry :
  entry ∈ triplesTids →
  ∀ next, ∃ rid, reifyEntry (blankNode rid) entry ⊆ reifyTriplesTids next triplesTids.
Proof.
  induction 1 as [entry rest|entry other rest _ IH]; intros next;
    cbn [reifyTriplesTids].
  - exists next. intros q Hq. apply elem_of_app. by left.
  - destruct (IH (S next)) as [rid Hrid]. exists rid.
    intros q Hq. apply elem_of_app. right. by apply Hrid.
Qed.

Lemma elem_of_patchGraph `{EqDecision Q} (p : PatchQuads Q) (g : list Q) q :
  q ∈ patchGraph p g ↔ (q ∈ g ∧ q ∉ oldQuads p) ∨ q ∈ newQuads p.
Proof.
  unfold patchGraph.
  by rewrite list_elem_of_union, list_elem_of_difference, elem_of_remove_dups.
Qed.

(** The laws of [Prep] that the transactions are read with. *)
Lemma Prep_bind_ret {A B} (f : A → Prep B) (a : A) : mret a ≫= f = f a.
Proof. unfold mbind, Prep_bind, mret, Prep_ret; simpl. by destruct (f a). Qed.

Lemma Prep_bind_throw {A B} (f : A → Prep B) (e : MeldError) :
  throw e ≫= f = throw e.
Proof. done. Qed.

Lemma Prep_bind_next {B} (f : () → Prep B) (update : MeldUpdate) :
  updateSource_next update ≫= f = ((f ()).1, update :: (f ()).2).
Proof. done. Qed.

Lemma apply_prepare_cases
    constraint msgData msgTime arrivalTime localTime cxTid rid ds :
  let prep := apply_prepare constraint msgData msgTime arrivalTime localTime cxTid rid ds in
  (tid msgData ∈ allTids ds ∧ prep = (inr (mkPrepared None None), []))
  ∨ (∃ err, prep = (inl err, []))
  ∨ (∃ deletions now tail,
       (tid msgData ∉ allTids ds)
       ∧ unreifyComplete (delete msgData) = Some deletions
       ∧ journalTime ds = Some now
       ∧ last (entries ds) = Some tail
       ∧ prep = prepared constraint msgData msgTime arrivalTime localTime cxTid rid
                  ds deletions).
Proof.
  intros prep. unfold prep, apply_prepare, knowsTid.
  case_bool_decide as Hknown; cbn [negb]; [by left|right].
  unfold unreifyDeletes.
  destruct (unreifyComplete (delete msgData)) as [deletions|] eqn:Hdeletions;
    cbn [fromOption].
  2:{ left. eexists. by rewrite Prep_bind_throw. }
  rewrite Prep_bind_ret.
  pose proof (eq_refl (prepared constraint msgData msgTime arrivalTime localTime
                         cxTid rid ds deletions)) as Hprepared.
  unfold prepared at 1 in Hprepared. cbv zeta in Hprepared.
  destruct (foldl _ _ deletions) as [patch tidPatch].
  cbn [fst snd] in Hprepared.
  destruct (applyConstraint _ _ _ _ _ _ _ _) as [patch' cxn].
  cbn [fst snd] in Hprepared.
  unfold journal_state, journal_tail.
  destruct (journalTime ds) as [now|]; cbn [fromOption].
  2:{ left. eexists. by rewrite Prep_bind_throw. }
  rewrite Prep_bind_ret.
  destruct (last (entries ds)) as [tail|]; cbn [fromOption].
  2:{ left. eexists. by rewrite Prep_bind_throw. }
  rewrite Prep_bind_ret.
  right. exists deletions, now, tail. repeat split; try done.
  rewrite <- Hprepared. unfold createNext.
  destruct cxn as [cxn|]; cbv beta iota zeta; by rewrite !Prep_bind_next.
Qed.

(** A delta that is new, with deletions that can be read, on a journal that
    has its state and tail, is prepared. *)
Lemma apply_prepare_prepared
    constraint msgData msgTime arrivalTime localTime cxTid rid ds deletions now tail :
  tid msgData ∉ allTids ds →
  unreifyComplete (delete msgData) = Some deletions →
  journalTime ds = Some now →
  last (entries ds) = Some tail →
  apply_prepare constraint msgData msgTime arrivalTime localTime cxTid rid ds
  = prepared constraint msgData msgTime arrivalTime localTime cxTid rid ds deletions.
Proof.
  intros Hnew Hdeletions Hnow Htail.
  destruct (apply_prepare_cases constraint msgData msgTime arrivalTime localTime
              cxTid rid ds)
    as [[Hknown _]|[[err Herr]|(deletions' & now' & tail' & _ & Hdeletions' & _ & _ & ->)]];
    [done| |congruence].
  exfalso. revert Herr. unfold apply_prepare, knowsTid.
  rewrite bool_decide_eq_false_2 by done. cbn [negb].
  unfold unreifyDeletes, journal_state, journal_tail.
  rewrite Hdeletions, Hnow, Htail. cbn [fromOption]. rewrite Prep_bind_ret.
  destruct (foldl _ _ deletions) as [patch tidPatch].
  destruct (applyConstraint _ _ _ _ _ _ _ _) as [patch' cxn].
  rewrite !Prep_bind_ret. unfold createNext.
  destruct cxn as [cxn|]; cbv beta iota zeta; by rewrite !Prep_bind_next.
Qed.

(** What [transact_prepare] comes to: it rejects before anything is handed
    to [updateSource], or it returns the patch and the message of the write
    that the caller prepared. *)
Lemma transact_prepare_cases constraint txid rid prepare ds :
  let prep := transact_prepare constraint txid rid prepare ds in
  (∃ err, prep = (inl err, []))
  ∨ (∃ time patch now tail,
       prepare ds = inr (time, patch)
       ∧ Constraint.check constraint (asUpdate time patch) (graph ds) = None
       ∧ journalTime ds = Some now
       ∧ last (entries ds) = Some tail
       ∧ let found := findTriplesTids ds (oldQuads patch) in
         let delta := txnDelta rid txid (newQuads patch) (asTripleTids <$> found) in
         prep = (inr (mkPrepared
                        (Some (transactionPatch patch (newTid txid)
                                 (txnTidPatches txid (newQuads patch) found).2
                                 (mkJournalPatch [mkEntry (ticks time) time None delta]
                                    (Some time))))
                        (mkDeltaMessage time delta)),
                 [asUpdate time patch])).
Proof.
  intros prep. unfold prep, transact_prepare.
  destruct (prepare ds) as [err|[time patch]] eqn:Hprepare.
  { left. by exists err. }
  destruct (Constraint.check constraint (asUpdate time patch) (graph ds))
    as [err|] eqn:Hcheck.
  { left. exists err. unfold mbind, Prep_bind; simpl. by rewrite Hcheck. }
  destruct (journalTime ds) as [now|] eqn:Hnow.
  2:{ left. eexists. unfold mbind, Prep_bind, journal_state; simpl.
      by rewrite Hcheck, Hnow. }
  destruct (last (entries ds)) as [tail|] eqn:Htail.
  2:{ left. eexists. unfold mbind, Prep_bind, journal_state, journal_tail; simpl.
      by rewrite Hcheck, Hnow, Htail. }
  right. exists time, patch, now, tail. repeat split; try done.
  unfold mbind, Prep_bind, journal_state, journal_tail; simpl.
  by rewrite Hcheck, Hnow, Htail.
Qed.

(** A delta that is applied has its TID in [qs:all] from then on. *)
Lemma prepared_newTid
    constraint msgData msgTime arrivalTime localTime cxTid rid ds deletions :
  ∃ p v notified,
    prepared constraint msgData msgTime arrivalTime localTime cxTid rid ds deletions
    = (inr (mkPrepared (Some p) v), notified)
    ∧ tid msgData ∈ newQuads (allTidsPatch p).
Proof.
  unfold prepared. destruct (applyConstraint _ _ _ _ _ _ _ _).2 as [cxn|].
  - eexists _, _, _. split; [done|]. cbn. left.
  - eexists _, _, _. split; [done|]. cbn. left.
Qed.

Lemma apply_applied constraint msgData msgTime arrivalTime localTime cxTid rid ds v :
  closed ds = false →
  let applied := apply constraint msgData msgTime arrivalTime localTime cxTid rid ds in
  outcome applied = inr v →
  closed (dataset applied) = false ∧ tid msgData ∈ allTids (dataset applied).
Proof.
  intros Hopen applied. unfold applied, apply, checkNotClosed. rewrite Hopen.
  unfold dataset_transact.
  destruct (apply_prepare_cases constraint msgData msgTime arrivalTime localTime
              cxTid rid ds)
    as [[Hknown ->]|[[err ->]|(deletions & now & tail & _ & _ & _ & _ & ->)]];
    [done|done|].
  destruct (prepared_newTid constraint msgData msgTime arrivalTime localTime
              cxTid rid ds deletions) as (p & v' & notified & -> & Hnew).
  cbn. intros _. split; [done|]. apply elem_of_patchGraph. by right.
Qed.

(** C1. A remote delta whose TID is in [qs:all] is dropped: nothing is
    patched, nothing journaled, no update notified, and [apply] returns
    null. A delta that has been applied is in that case: applying it once
    more, at whatever times, changes nothing. *)
Theorem apply_known_tid constraint msgData msgTime arrivalTime localTime cxTid rid ds :
  closed ds = false →
  (tid msgData ∈ allTids ds →
   apply constraint msgData msgTime arrivalTime localTime cxTid rid ds
   = mkOutcome ds (inr None) [])
  ∧ (∀ v msgTime' arrivalTime' localTime' cxTid' rid',
       let applied := apply constraint msgData msgTime arrivalTime localTime
                        cxTid rid ds in
       outcome applied = inr v →
       apply constraint msgData msgTime' arrivalTime' localTime' cxTid' rid'
         (dataset applied)
       = mkOutcome (dataset applied) (inr None) []).
Proof.
  intros Hopen. split.
  - by apply apply_known.
  - intros v msgTime' arrivalTime' localTime' cxTid' rid' applied Happlied.
    destruct (apply_applied constraint msgData msgTime arrivalTime localTime
                cxTid rid ds v Hopen Happlied) as [Hopen' Hknown].
    by apply apply_known.
Qed.

(** The quads of a reification, with the entry and the id of each. *)
Lemma elem_of_reifyTriplesTids (triplesTids : list (Triple * list UUID)) next q :
  q ∈ reifyTriplesTids next triplesTids
  ↔ ∃ i entry, triplesTids !! i = Some entry
               ∧ q ∈ reifyEntry (blankNode (next + i)) entry.
Proof.
  revert next. induction triplesTids as [|entry rest IH]; intros next;
    cbn [reifyTriplesTids].
  - split; [by intros ?%not_elem_of_nil|by intros (i & ? & ? & _)].
  - rewrite elem_of_app, IH. split.
    + intros [Hq|(i & e & Hi & Hq)].
      * exists 0, entry. by rewrite Nat.add_0_r.
      * exists (S i), e. by rewrite Nat.add_succ_r.
    + intros ([|i] & e & Hi & Hq).
      * left. injection Hi as <-. by rewrite Nat.add_0_r in Hq.
      * right. exists i, e. by rewrite Nat.add_succ_r in Hq.
Qed.

Lemma reifyEntry_subject rid (entry : Triple * list UUID) q :
  q ∈ reifyEntry rid entry → subject q = rid.
Proof.
  unfold reifyEntry. rewrite elem_of_app, list_elem_of_fmap. set_unfold.
  intros [[->|[->|[->|[->|[]]]]]|(tid & -> & _)]; done.
Qed.

(** The TID quads of the reification of an entry are of its TIDs. *)
Lemma reifyEntry_tid rid (entry : Triple * list UUID) tid :
  quad rid (name M_LD_tid) (Literal tid) ∈ reifyEntry rid entry ↔ tid ∈ entry.2.
Proof.
  unfold reifyEntry. rewrite elem_of_app, list_elem_of_fmap. set_unfold. split.
  - intros [[[=]|[[=]|[[=]|[[=]|[]]]]]|(tid' & [= ->] & Hin)]. done.
  - intros Hin. right. by exists tid.
Qed.

(** C4. When the constraint answers the update of a remote delta with a
    repair, [apply] returns the repair's message, stamped with [localTime]
    and carrying the repair's delta under its fresh TID, with the inserts of
    the repair; the journal has two more entries, the remote delta at
    [arrivalTime] with its remote time, then the repair at [localTime]; the
    two updates are notified in that order, and then the one patch is
    committed. In the repair's delta every triple that the remote delta
    inserted and the repair deletes is reified: under an id of its own
    there are the statement, its subject, predicate and object, and one TID,
    the remote delta's. *)
Theorem apply_constraint_repair
    constraint msgData msgTime arrivalTime localTime cxTid rid ds deletions now tail
    result :
  closed ds = false →
  tid msgData ∉ allTids ds →
  unreifyComplete (delete msgData) = Some deletions →
  journalTime ds = Some now →
  last (entries ds) = Some tail →
  let reduced := (foldl (applyDeletion ds) (mkPatch [] (insert msgData), emptyPatch)
                    deletions).1 in
  let update := asUpdate arrivalTime reduced in
  Constraint.apply constraint update (graph ds) = Some result →
  let cxPatch := result (graph ds) in
  let applied := apply constraint msgData msgTime arrivalTime localTime cxTid rid ds in
  ∃ repair p,
    outcome applied = inr (Some repair)
    ∧ time repair = localTime
    ∧ tid (data repair) = cxTid
    ∧ insert (data repair) = newQuads cxPatch
    ∧ entries (dataset applied)
      = entries ds ++ [ mkEntry (ticks arrivalTime) arrivalTime (Some msgTime) msgData;
                        mkEntry (ticks localTime) localTime None (data repair) ]
    ∧ journalTime (dataset applied) = Some localTime
    ∧ effects applied
      = [Notified update; Notified (asUpdate localTime cxPatch); Patched p]
    ∧ dataset applied = commit p ds
    ∧ ∀ triple, triple ∈ insert msgData → triple ∈ oldQuads cxPatch →
        ∃ rid',
          quad (blankNode rid') (name RDF_type) (name RDF_Statement)
            ∈ delete (data repair)
          ∧ quad (blankNode rid') (name RDF_subject) (subject triple)
              ∈ delete (data repair)
          ∧ quad (blankNode rid') (name RDF_predicate) (predicate triple)
              ∈ delete (data repair)
          ∧ quad (blankNode rid') (name RDF_object) (object triple)
              ∈ delete (data repair)
          ∧ ∀ tid', quad (blankNode rid') (name M_LD_tid) (Literal tid')
                      ∈ delete (data repair)
                    ↔ tid' = tid msgData.
Proof.
  intros Hopen Hnew Hdeletions Hnow Htail reduced update Hresult cxPatch applied.
  unfold applied, apply, checkNotClosed. rewrite Hopen. unfold dataset_transact.
  rewrite (apply_prepare_prepared constraint msgData msgTime arrivalTime localTime
             cxTid rid ds deletions now tail) by done.
  unfold prepared.
  pose proof (applyDeletion_newQuads ds deletions (mkPatch [] (insert msgData), emptyPatch))
    as Hinserted.
  fold reduced in Hinserted |- *. fold update.
  unfold applyConstraint. rewrite Hresult. fold cxPatch.
  cbn -[reifyEntry reifyTriplesTids blankNode findTriplesTids].
  eexists _, _. repeat (split; [done|]).
  intros triple Hins Hdel.
  set (triplesTids := (asTripleTids <$> findTriplesTids ds (oldQuads cxPatch))
                      ++ ((λ delQuad, (delQuad, [tid msgData]))
                            <$> filter (λ q, q ∈ oldQuads cxPatch) (newQuads reduced))).
  assert ((triple, [tid msgData]) ∈ triplesTids) as [i Hi]%list_elem_of_lookup_1.
  { apply elem_of_app. right. apply list_elem_of_fmap. exists triple. split; [done|].
    apply list_elem_of_filter. by rewrite Hinserted. }
  assert (∀ q, q ∈ reifyEntry (blankNode (rid + i)) (triple, [tid msgData]) →
               q ∈ reifyTriplesTids rid triplesTids) as Hentry.
  { intros q Hq. apply elem_of_reifyTriplesTids. by exists i, (triple, [tid msgData]). }
  exists (rid + i). repeat split.
  - apply Hentry. unfold reifyEntry. set_unfold. tauto.
  - apply Hentry. unfold reifyEntry. set_unfold. tauto.
  - apply Hentry. unfold reifyEntry. set_unfold. tauto.
  - apply Hentry. unfold reifyEntry. set_unfold. tauto.
  - intros (i' & entry & Hi' & Hq)%elem_of_reifyTriplesTids.
    pose proof (reifyEntry_subject _ _ _ Hq) as Hrid. cbn [subject] in Hrid.
    apply (f_equal Rdf.value), blankNode_inj in Hrid.
    assert (i' = i) as -> by lia. replace entry with (triple, [tid msgData]) in Hq
      by congruence.
    apply reifyEntry_tid in Hq. by apply list_elem_of_singleton in Hq.
  - intros ->. apply Hentry, reifyEntry_tid. left.
Qed.

(** *** Reified deletions and the TIDs of the triples *)

Lemma elem_of_findTripleTids ds id q :
  q ∈ findTripleTids ds id ↔ q.1 = id ∧ q ∈ tripleTids ds.
Proof. unfold findTripleTids. by rewrite list_elem_of_filter. Qed.

Lemma tids_nonempty ds triple :
  tids ds triple ≠ [] ↔ ∃ tid, (tripleId triple, tid) ∈ tripleTids ds.
Proof.
  unfold tids. split.
  - destruct (findTripleTids ds (tripleId triple)) as [|[id tid] found] eqn:Hfound;
      [done|].
    intros _. exists tid.
    assert ((id, tid) ∈ findTripleTids ds (tripleId triple)) as Hin
      by (rewrite Hfound; left).
    by apply elem_of_findTripleTids in Hin as [<- Hin].
  - intros [tid Hin] Hnil. apply fmap_nil_inv in Hnil.
    assert ((tripleId triple, tid) ∈ findTripleTids ds (tripleId triple)) as Hfound
      by by apply elem_of_findTripleTids.
    rewrite Hnil in Hfound. by apply not_elem_of_nil in Hfound.
Qed.

Lemma length_filter_all {A} (P : A → Prop) `{∀ x, Decision (P x)} (l : list A) :
  length (filter P l) = length l ↔ Forall P l.
Proof.
  induction l as [|x l IH]; [done|]. rewrite filter_cons. case_decide as HP; simpl.
  - rewrite Forall_cons. split; [intros [= ?%IH]; done|intros [_ ?%IH]; lia].
  - pose proof (length_filter P l). split; [lia|by inversion 1].
Qed.

(** The triple of a deletion goes when all of its TIDs are claimed. *)
Lemma applyDeletion_all ds triple (theirTids : list UUID) :
  length (filter (λ tripleTid : HashTid, tripleTid.2 ∈ theirTids)
            (findTripleTids ds (tripleId triple)))
  = length (findTripleTids ds (tripleId triple))
  ↔ ∀ tid, (tripleId triple, tid) ∈ tripleTids ds → tid ∈ theirTids.
Proof.
  rewrite length_filter_all, Forall_forall. split.
  - intros Hall tid Hin. apply (Hall (tripleId triple, tid)).
    by apply elem_of_findTripleTids.
  - intros Hall [id tid] [Hid Hin]%elem_of_findTripleTids. simpl in *. subst.
    by apply Hall.
Qed.

(** The old TID quads after the reduce: the TIDs we have of a deleted triple
    that its deletion claims. *)
Lemma applyDeletions_tids ds deletions acc q :
  q ∈ oldQuads (foldl (applyDeletion ds) acc deletions).2
  ↔ q ∈ oldQuads acc.2
    ∨ ∃ triple theirTids, (triple, theirTids) ∈ deletions
        ∧ q ∈ tripleTids ds ∧ q.1 = tripleId triple ∧ q.2 ∈ theirTids.
Proof.
  revert acc. induction deletions as [|[triple theirTids] deletions IH]; intros acc.
  - simpl. split; [by left|]. intros [?|(? & ? & []%not_elem_of_nil & _)]. done.
  - cbn [foldl]. rewrite IH. cbn [applyDeletion snd concat oldQuads].
    rewrite elem_of_app, list_elem_of_filter, elem_of_findTripleTids.
    split.
    + intros [[?|(? & ? & ?)]|(t & th & ? & ?)]; [by left|right..].
      * exists triple, theirTids. split; [left|done].
      * exists t, th. split; [by right|done].
    + intros [?|(t & th & [[= -> ->]|?]%elem_of_cons & ? & ? & ?)].
      * by left; left.
      * left; right. done.
      * right. by exists t, th.
Qed.

(** The old quads of the data graph after the reduce: the deleted triples
    whose TIDs are all claimed by one deletion. *)
Lemma applyDeletions_pushed ds deletions acc triple :
  triple ∈ oldQuads (foldl (applyDeletion ds) acc deletions).1
  ↔ triple ∈ oldQuads acc.1
    ∨ ∃ theirTids, (triple, theirTids) ∈ deletions
        ∧ ∀ tid, (tripleId triple, tid) ∈ tripleTids ds → tid ∈ theirTids.
Proof.
  revert acc. induction deletions as [|[t theirTids] deletions IH]; intros acc.
  - simpl. split; [by left|]. intros [?|(? & []%not_elem_of_nil & _)]. done.
  - cbn [foldl]. rewrite IH. cbn [applyDeletion fst].
    case_decide as Hall; rewrite applyDeletion_all in Hall.
    + cbn [pushOld oldQuads]. rewrite elem_of_app, list_elem_of_singleton. split.
      * intros [[?| ->]|(th & ? & ?)]; [by left|right..].
        -- exists theirTids. split; [left|done].
        -- exists th. split; [by right|done].
      * intros [?|(th & [[= -> ->]|?]%elem_of_cons & ?)].
        -- by left; left.
        -- by left; right.
        -- right. by exists th.
    + split.
      * intros [?|(th & ? & ?)]; [by left|right].
        exists th. split; [by right|done].
      * intros [?|(th & [[= -> ->]|?]%elem_of_cons & ?)]; [by left|done|].
        right. by exists th.
Qed.

Lemma applyDeletions_tids_new ds deletions acc :
  newQuads (foldl (applyDeletion ds) acc deletions).2 = newQuads acc.2.
Proof.
  revert acc. induction deletions as [|[triple theirTids] deletions IH]; intros acc;
    [done|].
  cbn [foldl]. rewrite IH. cbn. by rewrite app_nil_r.
Qed.

(** A triple that the reduce leaves in the graph keeps one of its TIDs,
    provided no two deletions are of the same triple. *)
Lemma applyDeletions_keeps_tid ds (deletions : list (Triple * list UUID))
    (inserted : list Triple) triple :
  NoDup deletions.*1 →
  tids ds triple ≠ [] →
  let reduced := foldl (applyDeletion ds) (mkPatch [] inserted, emptyPatch) deletions in
  triple ∉ oldQuads reduced.1 →
  ∃ tid, (tripleId triple, tid) ∈ tripleTids ds
         ∧ (tripleId triple, tid) ∉ oldQuads reduced.2.
Proof.
  intros Hnodup [tid0 Htid0]%tids_nonempty reduced Hkept. unfold reduced in *.
  rewrite applyDeletions_pushed in Hkept.
  destruct (decide (triple ∈ deletions.*1)) as [Hdeleted|Hnot].
  - apply list_elem_of_fmap in Hdeleted as [[t theirTids] [-> Hin]]. simpl in *.
    destruct (decide (Forall (λ q : HashTid, q.1 = tripleId t → q.2 ∈ theirTids)
                        (tripleTids ds))) as [Hall|Hsome].
    { exfalso. apply Hkept. right. exists theirTids. split; [done|].
      intros tid Htid. rewrite Forall_forall in Hall. by apply (Hall _ Htid). }
    apply not_Forall_Exists, Exists_exists in Hsome as [[id tid] [Hq Hnot]];
      [|apply _].
    assert (id = tripleId t ∧ tid ∉ theirTids) as [-> Hfree].
    { simpl in Hnot. destruct (decide (id = tripleId t)); [|tauto].
      split; [done|]. tauto. }
    exists tid. split; [done|]. rewrite applyDeletions_tids.
    intros [[]%not_elem_of_nil|(t' & theirs' & Hin' & _ & Hid & Hclaimed)].
    simpl in *. injection Hid as <-.
    assert (theirs' = theirTids) as ->; [|done].
    clear -Hnodup Hin Hin'. induction deletions as [|[t1 th1] deletions IH];
      [by apply not_elem_of_nil in Hin|].
    apply NoDup_cons in Hnodup as [Hfresh Hnodup].
    apply elem_of_cons in Hin as [[= -> ->]|Hin];
      apply elem_of_cons in Hin' as [[= ?]|Hin']; subst; try done.
    + exfalso. apply Hfresh. apply list_elem_of_fmap. by exists (t1, theirs').
    + exfalso. apply Hfresh. apply list_elem_of_fmap. by exists (t1, theirTids).
    + by apply IH.
  - exists tid0. split; [done|]. rewrite applyDeletions_tids.
    intros [[]%not_elem_of_nil|(t' & theirs' & Hin' & _ & Hid & _)].
    simpl in Hid. injection Hid as <-.
    apply Hnot, list_elem_of_fmap. by exists (triple, theirs').
Qed.

Lemma elem_of_tids ds triple tid :
  tid ∈ tids ds triple ↔ (tripleId triple, tid) ∈ tripleTids ds.
Proof.
  unfold tids. rewrite list_elem_of_fmap. split.
  - intros ([id tid'] & -> & [Hid Hin]%elem_of_findTripleTids). simpl in *. by subst.
  - intros Hin. exists (tripleId triple, tid). split; [done|].
    by apply elem_of_findTripleTids.
Qed.

Lemma elem_of_findTriplesTids ds (quads : list Triple) q :
  q ∈ mjoin (ttq_tids <$> findTriplesTids ds quads)
  ↔ ∃ triple, triple ∈ quads ∧ q.1 = tripleId triple ∧ q ∈ tripleTids ds.
Proof.
  rewrite list_elem_of_join. unfold findTriplesTids. split.
  - intros (found & Hq & (tt & -> & (triple & -> & Hin)%list_elem_of_fmap)%list_elem_of_fmap).
    simpl in Hq. apply elem_of_findTripleTids in Hq. by exists triple.
  - intros (triple & Hin & Hid & Hq).
    exists (findTripleTids ds (tripleId triple)). split.
    + by apply elem_of_findTripleTids.
    + apply list_elem_of_fmap.
      exists (mkTripleTidQuads triple (findTripleTids ds (tripleId triple))).
      split; [done|]. apply list_elem_of_fmap. by exists triple.
Qed.

(** A commit keeps the triples asserted when every new triple comes with a
    new TID and every triple that stays keeps one of its TIDs. *)
Lemma commit_asserted ds dataPatch allTidsPatch tidPatch journaling :
  (∀ triple, triple ∈ newQuads dataPatch →
     ∃ tid, (tripleId triple, tid) ∈ newQuads tidPatch) →
  (∀ triple, triple ∈ graph ds → triple ∉ oldQuads dataPatch →
     ∃ tid, (tripleId triple, tid) ∈ tripleTids ds
            ∧ (tripleId triple, tid) ∉ oldQuads tidPatch) →
  asserted (commit (transactionPatch dataPatch allTidsPatch tidPatch journaling) ds).
Proof.
  intros Hnew Hkept triple Hin. apply tids_nonempty. cbn in *.
  apply elem_of_patchGraph in Hin as [[Hin Hold]|Hin].
  - destruct (Hkept triple Hin Hold) as (tid & ? & ?). exists tid.
    apply elem_of_patchGraph. by left.
  - destruct (Hnew triple Hin) as [tid ?]. exists tid.
    apply elem_of_patchGraph. by right.
Qed.

Lemma prepared_asserted
    constraint msgData msgTime arrivalTime localTime cxTid rid ds deletions :
  NoDup deletions.*1 →
  asserted ds →
  ∃ p v notified,
    prepared constraint msgData msgTime arrivalTime localTime cxTid rid ds deletions
    = (inr (mkPrepared (Some p) v), notified)
    ∧ asserted (commit p ds).
Proof.
  intros Hnodup Hasserted. unfold prepared.
  pose proof (applyDeletion_newQuads ds deletions
                (mkPatch [] (insert msgData), emptyPatch)) as Hnew.
  pose proof (applyDeletions_tids_new ds deletions
                (mkPatch [] (insert msgData), emptyPatch)) as Hnewtids.
  pose proof (λ triple Hin, applyDeletions_keeps_tid ds deletions (insert msgData) triple
                Hnodup (Hasserted triple Hin)) as Hkeeps.
  destruct (foldl _ _ deletions) as [patch tidPatch]. cbn [fst snd] in *.
  unfold applyConstraint.
  destruct (Constraint.apply constraint _ (graph ds)) as [result|]; cbn [fst snd].
  - eexists _, _, _. split; [done|]. apply commit_asserted.
    + intros triple. cbn. rewrite !elem_of_app, list_elem_of_filter.
      intros [[Hnot Hin]|Hin].
      * exists (tid msgData). rewrite Hnewtids. cbn. rewrite !elem_of_app. left.
        apply list_elem_of_fmap. exists triple. split; [done|].
        by apply list_elem_of_filter.
      * exists cxTid. rewrite Hnewtids. cbn. rewrite !elem_of_app. right; left.
        apply list_elem_of_fmap. by exists triple.
    + intros triple Hin. cbn. rewrite !elem_of_app. intros Hkept.
      destruct (Hkeeps triple Hin) as (tid & Htid & Hfree); [tauto|].
      exists tid. split; [done|]. rewrite !app_nil_r, !elem_of_app.
      intros [?|(t & Ht & Hid & _)%elem_of_findTriplesTids]; [done|].
      simpl in Hid. injection Hid as <-. tauto.
  - eexists _, _, _. split; [done|]. apply commit_asserted.
    + intros triple Hin. exists (tid msgData). cbn. rewrite Hnewtids. cbn.
      apply list_elem_of_fmap. by exists triple.
    + intros triple Hin Hkept.
      destruct (Hkeeps triple Hin Hkept) as (tid & Htid & Hfree).
      exists tid. split; [done|]. cbn. by rewrite app_nil_r.
Qed.

(** One deletion at a time, the reduce in [apply] does what it is to do:
    for a deletion [(triple, theirTids)] it removes from the TID graph
    exactly the TIDs we have of the triple that are among [theirTids], and
    it pushes the triple to the old quads of the data patch if and only if
    these are all the TIDs we have of it. When no two reified deletions of
    the delta are of the same triple, [apply] keeps the dataset's invariant:
    every triple of the data graph is asserted by a TID. With two deletions
    of one triple it does not. *)
Theorem apply_deletion_tids
    constraint msgData msgTime arrivalTime localTime cxTid rid ds :
  (∀ acc triple theirTids,
     let reduced := applyDeletion ds acc (triple, theirTids) in
     (∀ q, q ∈ oldQuads reduced.2
           ↔ q ∈ oldQuads acc.2
             ∨ (q.1 = tripleId triple ∧ q.2 ∈ tids ds triple ∧ q.2 ∈ theirTids))
     ∧ newQuads reduced.2 = newQuads acc.2
     ∧ ((∀ tid, tid ∈ tids ds triple → tid ∈ theirTids) →
        reduced.1 = pushOld acc.1 triple)
     ∧ (¬ (∀ tid, tid ∈ tids ds triple → tid ∈ theirTids) → reduced.1 = acc.1))
  ∧ ((∀ deletions, unreifyComplete (delete msgData) = Some deletions →
                   NoDup deletions.*1) →
     asserted ds →
     asserted (dataset (apply constraint msgData msgTime arrivalTime localTime
                          cxTid rid ds))).
Proof.
  split.
  - intros acc triple theirTids reduced. unfold reduced. cbn [applyDeletion fst snd].
    split; [|split; [|split]].
    + intros [id tid]. cbn. rewrite elem_of_app, list_elem_of_filter,
        elem_of_findTripleTids, elem_of_tids. cbn.
      split; [intros [?|(? & -> & ?)]|intros [?|(-> & ? & ?)]]; tauto.
    + cbn. by rewrite app_nil_r.
    + intros Hall. rewrite decide_True; [done|].
      apply applyDeletion_all. intros tid Htid. by apply Hall, elem_of_tids.
    + intros Hsome. rewrite decide_False; [done|].
      rewrite applyDeletion_all. intros Hall. apply Hsome.
      intros tid Htid. by apply Hall, elem_of_tids.
  - intros Hnodup Hasserted. unfold apply, checkNotClosed.
    destruct (closed ds); [done|]. unfold dataset_transact.
    destruct (apply_prepare_cases constraint msgData msgTime arrivalTime localTime
                cxTid rid ds)
      as [[_ ->]|[[err ->]|(deletions & now & tail & _ & Hdeletions & _ & _ & ->)]];
      [done|done|].
    destruct (prepared_asserted constraint msgData msgTime arrivalTime localTime
                cxTid rid ds deletions (Hnodup _ Hdeletions) Hasserted)
      as (p & v & notified & -> & Hp).
    done.
Qed.

(** *** The order of notifications and commits *)




End SuSetDataset.

(** ** Local writes, rejections and what a session keeps *)

Section LocalWrites.

Import MeldEncoding SuSet.

Context {TreeClock : Type} `{!CausalClock TreeClock}.

Implicit Types (ds : Dataset TreeClock) (constraint : MeldConstraint).


(** The message that a local write returns carries the write's transaction
    id, which is in [qs:all] from then on: when the delta comes back to the
    clone that made it, [apply] drops it. *)
Theorem transact_echo_dropped constraint txid rid prepare ds msg :
  let written := transact constraint txid rid prepare ds in
  outcome written = inr msg →
  tid (data msg) = txid
  ∧ ∀ constraint' msgTime arrivalTime localTime cxTid rid',
      apply constraint' (data msg) msgTime arrivalTime localTime cxTid rid'
        (dataset written)
      = mkOutcome (dataset written) (inr None) [].
Proof.
  intros written. unfold written, transact, checkNotClosed.
  destruct (closed ds) eqn:Hopen; [done|]. unfold dataset_transact.
  destruct (transact_prepare_cases constraint txid rid prepare ds)
    as [[err ->]|(time & patch & now & tail & _ & _ & _ & _ & ->)]; [done|].
  cbn [fst snd SuSet.patch SuSet.value dataset outcome]. intros [= <-].
  split; [done|]. intros. apply apply_known; [done|].
  cbn. apply elem_of_patchGraph. right. cbn. left.
Qed.

(** A call that rejects has changed nothing and notified nothing: whether
    the caller's [prepare] rejects, the constraint, the reading of a delta or
    the journal, the rejection comes before anything is handed to
    [updateSource], and no patch is committed. *)
Theorem rejected_call_changes_nothing
    constraint txid rid prepare msgData msgTime arrivalTime localTime cxTid ds err :
  (outcome (transact constraint txid rid prepare ds) = inl err →
   transact constraint txid rid prepare ds = mkOutcome ds (inl err) [])
  ∧ (outcome (apply constraint msgData msgTime arrivalTime localTime cxTid rid ds)
     = inl err →
     apply constraint msgData msgTime arrivalTime localTime cxTid rid ds
     = mkOutcome ds (inl err) []).
Proof.
  split.
  - unfold transact, checkNotClosed. destruct (closed ds); [by intros [= <-]|].
    unfold dataset_transact.
    destruct (transact_prepare_cases constraint txid rid prepare ds)
      as [[err' ->]|(time & patch & now & tail & _ & _ & _ & _ & ->)];
      [by intros [= <-]|done].
  - unfold apply, checkNotClosed. destruct (closed ds); [by intros [= <-]|].
    unfold dataset_transact.
    destruct (apply_prepare_cases constraint msgData msgTime arrivalTime localTime
                cxTid rid ds)
      as [[_ ->]|[[err' ->]|(deletions & now & tail & _ & _ & _ & _ & ->)]];
      [done|by intros [= <-]|].
    destruct (prepared_newTid constraint msgData msgTime arrivalTime localTime
                cxTid rid ds deletions) as (p & v & notified & -> & _).
    done.
Qed.

(** No call takes a transaction id out of [qs:all], and no call closes the
    dataset. *)
Lemma dataset_transact_keeps_tids {V}
    (prepare : Dataset TreeClock → Prep (Prepared TreeClock V)) ds id :
  (∀ p v notified, prepare ds = (inr (mkPrepared (Some p) v), notified) →
     oldQuads (allTidsPatch p) = []) →
  id ∈ allTids ds →
  id ∈ allTids (dataset (checkNotClosed (dataset_transact prepare) ds)).
Proof.
  intros Hkeeps Hid. unfold checkNotClosed. destruct (closed ds); [done|].
  unfold dataset_transact.
  destruct (prepare ds) as [[err|[[p|] v]] notified] eqn:Hprepare; cbn; try done.
  apply elem_of_patchGraph. left. split; [done|].
  rewrite (Hkeeps p v notified eq_refl). apply not_elem_of_nil.
Qed.

Lemma call_keeps_tids constraint (c : Call TreeClock) ds id :
  id ∈ allTids ds → id ∈ allTids (call constraint c ds).1.
Proof.
  intros Hid. destruct c as [txid rid prepare|msgData msgTime arrivalTime localTime cxTid rid];
    cbn [call fst].
  - apply dataset_transact_keeps_tids; [|done]. intros p v notified.
    destruct (transact_prepare_cases constraint txid rid prepare ds)
      as [[err ->]|(time & patch & now & tail & _ & _ & _ & _ & ->)]; [done|].
    by intros [= <- _ _].
  - apply dataset_transact_keeps_tids; [|done]. intros p v notified.
    destruct (apply_prepare_cases constraint msgData msgTime arrivalTime localTime
                cxTid rid ds)
      as [[_ ->]|[[err ->]|(deletions & now & tail & _ & _ & _ & _ & ->)]];
      [done|done|].
    unfold prepared. destruct (applyConstraint _ _ _ _ _ _ _ _) as [patch' [cxn|]] eqn:Hcx;
      cbn [fst snd]; intros [= <- _ _]; cbn; [|done].
    unfold applyConstraint in Hcx.
    destruct (Constraint.apply constraint _ (graph ds)); [|done].
    by injection Hcx as _ <-.
Qed.

Lemma call_keeps_open constraint (c : Call TreeClock) ds :
  closed (call constraint c ds).1 = closed ds.
Proof.
  destruct c; cbn [call fst]; unfold transact, apply, checkNotClosed;
    (destruct (closed ds) eqn:Hclosed; [done|]); unfold dataset_transact;
    match goal with |- context [(?prep ds).1] => destruct (prep ds).1 as [?|[[?|] ?]] end;
    done.
Qed.

Lemma sessionEnd_keeps_tids constraint (calls : list (Call TreeClock)) ds id :
  closed ds = false →
  id ∈ allTids ds →
  closed (sessionEnd constraint calls ds) = false
  ∧ id ∈ allTids (sessionEnd constraint calls ds).
Proof.
  unfold sessionEnd. revert ds.
  induction calls as [|c calls IH]; intros ds Hopen Hknown; [done|].
  cbn [foldl]. apply IH.
  - by rewrite call_keeps_open.
  - by apply call_keeps_tids.
Qed.

(** A delta that has been applied stays applied: after whatever local
    writes and remote deltas come next, [apply] drops it. *)
Theorem applied_delta_stays_known
    constraint msgData msgTime arrivalTime localTime cxTid rid ds v
    (calls : list (Call TreeClock)) :
  closed ds = false →
  let applied := apply constraint msgData msgTime arrivalTime localTime cxTid rid ds in
  outcome applied = inr v →
  let later := sessionEnd constraint calls (dataset applied) in
  ∀ msgTime' arrivalTime' localTime' cxTid' rid',
    apply constraint msgData msgTime' arrivalTime' localTime' cxTid' rid' later
    = mkOutcome later (inr None) [].
Proof.
  intros Hopen applied Happlied later.
  destruct (apply_applied constraint msgData msgTime arrivalTime localTime
              cxTid rid ds v Hopen Happlied) as [Hopen' Hknown].
  fold applied in Hopen', Hknown.
  destruct (sessionEnd_keeps_tids constraint calls (dataset applied) (tid msgData)
              Hopen' Hknown) as [Hopen'' Hknown''].
  intros. by apply apply_known.
Qed.

(** The repair of a constraint is merged into the patch of the delta that it
    repairs: [applyConstraint] takes out of the delta's new quads those that
    the repair deletes, and with that the one merged patch leaves the graph
    that the delta's patch followed by the repair's patch would leave. *)
Theorem applyConstraint_merges
    constraint ds cxTid rid (to_patch : PatchQuads Triple) to_update to_tid
    (localTime : TreeClock) to_patch' cxn :
  applyConstraint constraint ds cxTid rid to_patch to_update to_tid localTime
  = (to_patch', Some cxn) →
  (∀ triple, triple ∈ newQuads to_patch' → triple ∉ oldQuads (cx_patch cxn))
  ∧ ∀ g triple,
      triple ∈ patchGraph (concat to_patch' (cx_patch cxn)) g
      ↔ triple ∈ patchGraph (cx_patch cxn) (patchGraph to_patch g).
Proof.
  unfold applyConstraint.
  destruct (Constraint.apply constraint to_update (graph ds)) as [result|]; [|done].
  cbn. intros [= <- <-]. cbn. split.
  - intros triple [Hnot _]%list_elem_of_filter. done.
  - intros g triple. rewrite !elem_of_patchGraph. cbn.
    rewrite !elem_of_app, list_elem_of_filter.
    destruct (decide (triple ∈ oldQuads (result (graph ds)))); tauto.
Qed.

(** *** A local write and its delta at another clone *)

Lemma fmap_Permutation_inj {A B} (g : A → B) `{!Inj (=) (=) g} (l1 l2 : list A) :
  g <$> l1 ≡ₚ g <$> l2 → l1 ≡ₚ l2.
Proof.
  revert l2. induction l1 as [|x l1 IH]; intros l2 Hperm.
  - apply Permutation_nil_l in Hperm. symmetry in Hperm.
    apply fmap_nil_inv in Hperm. by subst.
  - assert (x ∈ l2) as Hin.
    { apply (list_elem_of_fmap_inj g). rewrite <- Hperm. left. }
    apply list_elem_of_split in Hin as (k1 & k2 & ->).
    rewrite <- Permutation_middle. constructor. apply IH.
    rewrite fmap_app, !fmap_cons in Hperm. rewrite <- Permutation_middle in Hperm.
    apply (inj (cons (g x))) in Hperm. by rewrite fmap_app.
Qed.

#[local] Instance partial_entry_inj :
  Inj (=) (=) (λ entry : Triple * list UUID, (partial entry.1, entry.2)).
Proof. intros [[s p o] tids] [[s' p' o'] tids']. cbn. by intros [= -> -> -> ->]. Qed.

(** The reified deletions of a delta are read back by [apply] as they were
    given, when the deleted triples have IRIs as subject and predicate. *)
Lemma unreifyComplete_reify next (triplesTids : list (Triple * list UUID)) :
  Forall iriTriple triplesTids →
  ∃ deletions,
    unreifyComplete (reifyTriplesTids next triplesTids) = Some deletions
    ∧ deletions ≡ₚ triplesTids.
Proof.
  intros Hiri.
  assert (∃ entries, unreify (reifyTriplesTids next triplesTids) = Some entries
            ∧ entries ≡ₚ (λ entry, (partial entry.1, entry.2)) <$> triplesTids)
    as (entries & Hentries & Hperm).
  { unfold unreify.
    destruct (unreify_entries triplesTids next ∅) as (reduced & -> & Hperm);
      [intros; apply lookup_empty|done|].
    eexists. split; [done|]. by rewrite Hperm, map_to_list_empty. }
  unfold unreifyComplete. rewrite Hentries. cbn [mbind option_bind].
  destruct (mapM _ entries) as [deletions|] eqn:Hdeletions.
  - exists deletions. split; [done|].
    apply (fmap_Permutation_inj (λ entry, (partial entry.1, entry.2))).
    rewrite <- Hperm. apply mapM_fmap_Some_inv with (g := λ entry, (partial entry.1, entry.2))
      in Hdeletions; [by rewrite Hdeletions|].
    intros [[s p o] tids] [t tids']. unfold complete; cbn.
    destruct s, p, o; try done. by intros [= <- <-].
  - exfalso. apply mapM_None in Hdeletions. rewrite Hperm in Hdeletions.
    apply Exists_exists in Hdeletions as (r & (entry & -> & _)%list_elem_of_fmap & Hnone).
    cbn [fst snd] in Hnone. by rewrite complete_partial in Hnone.
Qed.

(** Two clones with the same triples and the same TIDs of the triples: a
    write at one of them, and its delta applied at the other, leave them with
    the same triples and the same TIDs again. The deleted triples have IRIs
    as subject and predicate; the other clone has not seen the transaction
    and its constraint has nothing to repair. *)
Theorem transact_apply_converges
    constraintA constraintB txid rid prepare dsA dsB time patch msg
    msgTime arrivalTime localTime cxTid rid' now tail :
  prepare dsA = inr (time, patch) →
  outcome (transact constraintA txid rid prepare dsA) = inr msg →
  Forall (λ t, isNamedNode (subject t) = true ∧ isNamedNode (predicate t) = true)
    (oldQuads patch) →
  closed dsB = false →
  journalTime dsB = Some now →
  last (entries dsB) = Some tail →
  txid ∉ allTids dsB →
  (∀ update, Constraint.apply constraintB update (graph dsB) = None) →
  (∀ triple, triple ∈ graph dsB ↔ triple ∈ graph dsA) →
  (∀ q, q ∈ tripleTids dsB ↔ q ∈ tripleTids dsA) →
  let written := dataset (transact constraintA txid rid prepare dsA) in
  let applied := apply constraintB (data msg) msgTime arrivalTime localTime
                   cxTid rid' dsB in
  outcome applied = inr None
  ∧ (∀ triple, triple ∈ graph (dataset applied) ↔ triple ∈ graph written)
  ∧ (∀ q, q ∈ tripleTids (dataset applied) ↔ q ∈ tripleTids written).
Proof.
  intros Hprepare Hwritten Hiri HopenB HnowB HtailB Hnew Hquiet Hgraph Htids.
  unfold transact, checkNotClosed in *. destruct (closed dsA); [done|].
  unfold dataset_transact in *.
  destruct (transact_prepare_cases constraintA txid rid prepare dsA)
    as [[err Herr]|(time' & patch' & nowA & tailA & Hprepare' & _ & _ & _ & Hprep)].
  { by rewrite Herr in Hwritten. }
  rewrite Hprepare in Hprepare'. injection Hprepare' as <- <-.
  cbv zeta in Hprep. rewrite Hprep in Hwritten |- *. clear Hprep.
  cbn [fst snd SuSet.patch SuSet.value dataset outcome] in *.
  injection Hwritten as <-. cbn [data].
  destruct (unreifyComplete_reify rid
              (asTripleTids <$> findTriplesTids dsA (oldQuads patch)))
    as (deletions & Hdeletions & Hperm).
  { rewrite Forall_fmap. unfold findTriplesTids. rewrite Forall_fmap.
    eapply Forall_impl; [exact Hiri|]. by intros t [? ?]. }
  assert (∀ triple theirTids, (triple, theirTids) ∈ deletions
            ↔ triple ∈ oldQuads patch ∧ theirTids = tids dsA triple) as Hdeleted.
  { intros triple theirTids. rewrite Hperm. unfold findTriplesTids.
    rewrite <- list_fmap_compose, list_elem_of_fmap. unfold asTripleTids, tids; cbn.
    split; [intros (t & [= -> ->] & Hin); done|intros [Hin ->]; by exists triple]. }
  unfold apply, checkNotClosed. rewrite HopenB. unfold dataset_transact.
  rewrite (apply_prepare_prepared constraintB _ msgTime arrivalTime localTime cxTid rid'
             dsB deletions now tail) by done.
  unfold prepared, applyConstraint. rewrite Hquiet.
  cbn [fst snd SuSet.patch SuSet.value dataset outcome tid insert].
  split; [done|]. split.
  - intros triple. cbn. rewrite !elem_of_patchGraph, applyDeletion_newQuads,
      applyDeletions_pushed. cbn [fst oldQuads newQuads]. rewrite Hgraph.
    apply or_iff_compat_r, and_iff_compat_l, not_iff_compat. split.
    + intros [[]%not_elem_of_nil|(theirTids & [Hin _]%Hdeleted & _)]. done.
    + intros Hin. right. exists (tids dsA triple). split; [by apply Hdeleted|].
      intros tid Htid. by apply elem_of_tids, Htids.
  - intros q. cbn. rewrite !elem_of_patchGraph. cbn.
    rewrite applyDeletion_newQuads, applyDeletions_tids_new, !elem_of_app,
      applyDeletions_tids, elem_of_findTriplesTids. cbn [fst snd oldQuads newQuads].
    rewrite Htids.
    assert ((∃ triple theirTids, (triple, theirTids) ∈ deletions
               ∧ q ∈ tripleTids dsB ∧ q.1 = tripleId triple ∧ q.2 ∈ theirTids)
            ↔ ∃ triple, triple ∈ oldQuads patch
                        ∧ q.1 = tripleId triple ∧ q ∈ tripleTids dsA) as ->.
    { split.
      - intros (t & theirTids & [Hin ->]%Hdeleted & Hq%Htids & Hid & _). by exists t.
      - intros (t & Hin & Hid & Hq). exists t, (tids dsA t).
        split; [by apply Hdeleted|]. split; [by apply Htids|]. split; [done|].
        apply elem_of_tids. rewrite <- Hid. by destruct q. }
    pose proof (not_elem_of_nil q). cbn [emptyPatch oldQuads newQuads]. tauto.
Qed.

End LocalWrites.

(** ** Snapshots *)

Section Snapshots.

Import MeldEncoding SuSet.

Context {TreeClock : Type} `{!CausalClock TreeClock}.

Implicit Types (ds : Dataset TreeClock).

(** The buffers of [bufferCount] hold the values of the source, in order. *)
Lemma bufferCount_from_join {A} size (buffer source : list A) :
  mjoin (bufferCount_from size buffer source) = buffer ++ source.
Proof.
  revert buffer. induction source as [|x source IH]; intros buffer; cbn.
  - destruct buffer; cbn; by rewrite ?app_nil_r.
  - case_decide; cbn; rewrite IH; by rewrite <- app_assoc.
Qed.

Lemma bufferCount_join {A} size (source : list A) :
  mjoin (bufferCount size source) = source.
Proof. apply bufferCount_from_join. Qed.

Lemma extends_refl ds : extends ds ds [] [] [].
Proof.
  unfold extends.
  split; [intros x; pose proof (not_elem_of_nil x); tauto|].
  split; [intros x; pose proof (not_elem_of_nil x); tauto|].
  split; [intros x; pose proof (not_elem_of_nil x); tauto|done].
Qed.

Lemma extends_trans ds1 ds2 ds3 triples ids tidQuads triples' ids' tidQuads' :
  extends ds2 ds1 triples ids tidQuads →
  extends ds3 ds2 triples' ids' tidQuads' →
  extends ds3 ds1 (triples ++ triples') (ids ++ ids') (tidQuads ++ tidQuads').
Proof.
  intros (Hg & Ha & Ht & He & Hj & Hc) (Hg' & Ha' & Ht' & He' & Hj' & Hc').
  unfold extends.
  split; [intros triple; rewrite Hg', Hg, elem_of_app; tauto|].
  split; [intros id; rewrite Ha', Ha, elem_of_app; tauto|].
  split; [intros q; rewrite Ht', Ht, elem_of_app; tauto|].
  repeat split; congruence.
Qed.

Lemma patchGraph_insert `{EqDecision Q} (new g : list Q) q :
  q ∈ patchGraph (mkPatch [] new) g ↔ q ∈ g ∨ q ∈ new.
Proof.
  rewrite elem_of_patchGraph. cbn. pose proof (not_elem_of_nil q). tauto.
Qed.

(** A batch of TIDs goes into [qs:all]. *)
Lemma snapshotTidsBatch_extends (tids : list UUID) ds :
  outcome (snapshotTidsBatch tids ds) = inr ()
  ∧ extends (dataset (snapshotTidsBatch tids ds)) ds [] tids [].
Proof.
  split; [done|]. unfold snapshotTidsBatch, dataset_transact, extends. cbn.
  unfold emptyPatch, newTids.
  split; [intros x; rewrite patchGraph_insert; tauto|].
  split; [intros x; rewrite patchGraph_insert; tauto|].
  split; [intros x; rewrite patchGraph_insert; tauto|].
  by rewrite app_nil_r.
Qed.

Lemma foldl_entryPatches (entries : list (Triple * list UUID))
    (triples : list Triple) (tidQuads : list HashTid) :
  foldl (λ batchPatch entryPatch : PatchQuads Triple * PatchQuads HashTid,
           (concat batchPatch.1 entryPatch.1, concat batchPatch.2 entryPatch.2))
    (mkPatch [] triples, mkPatch [] tidQuads)
    ((λ entry : Triple * list UUID,
        (mkPatch [] [entry.1], newTripleTids entry.1 entry.2)) <$> entries)
  = (mkPatch [] (triples ++ entries.*1),
     mkPatch [] (tidQuads
                 ++ mjoin ((λ entry : Triple * list UUID,
                              (λ tid, (tripleId entry.1, tid)) <$> entry.2)
                             <$> entries))).
Proof.
  revert triples tidQuads.
  induction entries as [|entry entries IH]; intros triples tidQuads; cbn.
  - by rewrite !app_nil_r.
  - change (concat (mkPatch [] triples) (mkPatch [] [entry.1]))
      with (mkPatch (Q:=Triple) [] (triples ++ [entry.1])).
    change (concat (mkPatch [] tidQuads) (newTripleTids entry.1 entry.2))
      with (mkPatch (Q:=HashTid) []
              (tidQuads ++ ((λ tid, (tripleId entry.1, tid)) <$> entry.2))).
    rewrite IH. by rewrite <- !app_assoc.
Qed.

(** A batch of the quads of [from], reified with their TIDs, goes into the
    data graph and the TID graph. *)
Lemma snapshotBatch_extends (from : Dataset TreeClock) rid (batch : list Triple) ds :
  Forall (λ t, isNamedNode (subject t) = true ∧ isNamedNode (predicate t) = true) batch →
  let reified := reifyTriplesTids rid (asTripleTids <$> findTriplesTids from batch) in
  outcome (snapshotBatch reified ds) = inr ()
  ∧ extends (dataset (snapshotBatch reified ds)) ds batch []
      (mjoin (ttq_tids <$> findTriplesTids from batch)).
Proof.
  intros Hiri reified.
  destruct (unreifyComplete_reify rid (asTripleTids <$> findTriplesTids from batch))
    as (entries & Hentries & Hperm).
  { rewrite Forall_fmap. unfold findTriplesTids. rewrite Forall_fmap.
    eapply Forall_impl; [exact Hiri|]. by intros t [? ?]. }
  fold reified in Hentries.
  unfold snapshotBatch, dataset_transact, unreifyDeletes. rewrite Hentries.
  cbn [fromOption]. rewrite Prep_bind_ret.
  assert (∀ triple, triple ∈ entries.*1 ↔ triple ∈ batch) as Htriples.
  { intros triple. rewrite Hperm. unfold findTriplesTids.
    rewrite <- !list_fmap_compose. cbn. rewrite list_elem_of_fmap.
    split; [by intros (t & -> & ?)|intros ?; by exists triple]. }
  assert (∀ q, q ∈ mjoin ((λ entry : Triple * list UUID,
                              (λ tid, (tripleId entry.1, tid)) <$> entry.2) <$> entries)
               ↔ q ∈ mjoin (ttq_tids <$> findTriplesTids from batch)) as Htids.
  { intros q. rewrite Hperm, elem_of_findTriplesTids, list_elem_of_join.
    unfold findTriplesTids. rewrite <- !list_fmap_compose. split.
    - intros (found & Hq & (t & -> & Ht)%list_elem_of_fmap). cbn in Hq.
      apply list_elem_of_fmap in Hq as (tid & -> & Htid). exists t.
      split; [done|]. split; [done|].
      apply list_elem_of_fmap in Htid as ([id tid'] & -> & Hin).
      by apply elem_of_findTripleTids in Hin as [<- Hin].
    - intros (t & Ht & Hid & Hq). eexists. split.
      2:{ apply list_elem_of_fmap. by exists t. }
      cbn. apply list_elem_of_fmap. exists q.2. split; [by rewrite <- Hid; destruct q|].
      apply list_elem_of_fmap. exists q. split; [done|].
      by apply elem_of_findTripleTids. }
  destruct entries as [|entry entries]; cbn [fmap list_fmap].
  - cbn. split; [done|].
    assert (batch = []) as ->.
    { destruct batch as [|t batch]; [done|]. exfalso.
      apply (not_elem_of_nil t), Htriples. left. }
    apply extends_refl.
  - pose proof (foldl_entryPatches entries [entry.1]
                  ((λ tid, (tripleId entry.1, tid)) <$> entry.2)) as Hfold.
    unfold newTripleTids. unfold newTripleTids in Hfold. cbv zeta. rewrite Hfold.
    cbn. split; [done|]. unfold extends. cbn. unfold emptyPatch.
    split; [intros x; rewrite patchGraph_insert, <- Htriples; cbn; tauto|].
    split; [intros x; rewrite patchGraph_insert; tauto|].
    split; [intros x; rewrite patchGraph_insert, <- Htids; cbn; tauto|].
    by rewrite app_nil_r.
Qed.

Lemma transactAll_cons (transaction : Dataset TreeClock → Outcome TreeClock ())
    transactions ds errors :
  transactAll (transaction :: transactions) (ds, errors)
  = transactAll transactions
      (dataset (transaction ds),
       errors ++ match outcome (transaction ds) with inl err => [err] | inr _ => [] end).
Proof. done. Qed.

Lemma transactAll_tids (batches : list (list UUID)) ds errors :
  (transactAll (snapshotTidsBatch <$> batches) (ds, errors)).2 = errors
  ∧ extends (transactAll (snapshotTidsBatch <$> batches) (ds, errors)).1 ds
      [] (mjoin batches) [].
Proof.
  revert ds. induction batches as [|tids batches IH]; intros ds.
  - split; [done|apply extends_refl].
  - rewrite fmap_cons, transactAll_cons.
    destruct (snapshotTidsBatch_extends tids ds) as [-> Hfirst]. rewrite app_nil_r.
    destruct (IH (dataset (snapshotTidsBatch tids ds))) as [-> Hrest].
    split; [done|]. exact (extends_trans _ _ _ _ _ _ _ _ _ Hfirst Hrest).
Qed.

Lemma transactAll_quads (from : Dataset TreeClock) (batches : list (list Triple)) :
  ∀ rid ds errors,
    Forall (λ t, isNamedNode (subject t) = true ∧ isNamedNode (predicate t) = true)
      (mjoin batches) →
    (transactAll (snapshotBatch <$> reifyBatches from rid batches) (ds, errors)).2 = errors
    ∧ extends (transactAll (snapshotBatch <$> reifyBatches from rid batches)
                 (ds, errors)).1 ds
        (mjoin batches) [] (mjoin (ttq_tids <$> findTriplesTids from (mjoin batches))).
Proof.
  induction batches as [|batch batches IH]; intros rid ds errors Hiri.
  - split; [done|apply extends_refl].
  - cbn [mjoin list_join] in Hiri. apply Forall_app in Hiri as [Hbatch Hiri].
    cbn [reifyBatches]. rewrite fmap_cons, transactAll_cons.
    destruct (snapshotBatch_extends from rid batch ds Hbatch) as [-> Hfirst].
    rewrite app_nil_r.
    destruct (IH (rid + length batch) (dataset (snapshotBatch
                (reifyTriplesTids rid (asTripleTids <$> findTriplesTids from batch)) ds))
                errors Hiri) as [-> Hrest].
    split; [done|]. cbn [mjoin list_join].
    unfold findTriplesTids. rewrite !fmap_app, join_app.
    exact (extends_trans _ _ _ _ _ _ _ _ _ Hfirst Hrest).
Qed.

(** A snapshot taken of one clone and applied to another brings over the
    triples of the data graph, the transaction ids of [qs:all] and the TIDs
    of the triples, whatever the sizes of the batches come to; nothing is
    rejected and the journal is left to the reset. The triples have IRIs as
    subject and predicate. On a dataset with no triples the snapshot of a
    dataset whose triples are all asserted leaves them all asserted. *)
Theorem applySnapshot_takeSnapshot rid (from : Dataset TreeClock) ds snapshot :
  outcome (takeSnapshot rid from) = inr snapshot →
  Forall (λ t, isNamedNode (subject t) = true ∧ isNamedNode (predicate t) = true)
    (graph from) →
  closed ds = false →
  let applied := applySnapshot snapshot ds in
  applied.2 = []
  ∧ (∀ triple, triple ∈ graph applied.1 ↔ triple ∈ graph ds ∨ triple ∈ graph from)
  ∧ (∀ id, id ∈ allTids applied.1 ↔ id ∈ allTids ds ∨ id ∈ allTids from)
  ∧ (∀ q, q ∈ tripleTids applied.1
          ↔ q ∈ tripleTids ds
            ∨ (q ∈ tripleTids from ∧ ∃ triple, triple ∈ graph from ∧ q.1 = tripleId triple))
  ∧ entries applied.1 = entries ds
  ∧ (graph ds = [] → asserted from → asserted applied.1).
Proof.
  intros Htaken Hiri Hopen applied.
  assert (snapshotQuads snapshot = reifyBatches from rid (bufferCount 10 (graph from))
          ∧ snapshotTids snapshot = bufferCount 10 (allTids from)) as [Hquads Htids].
  { revert Htaken. unfold takeSnapshot, checkNotClosed.
    destruct (closed from); [done|]. unfold dataset_transact, journal_state, journal_tail.
    destruct (journalTime from); [|done]. cbn [fromOption]. rewrite Prep_bind_ret.
    destruct (last (entries from)); [|done]. cbn [fromOption]. rewrite Prep_bind_ret.
    cbn. by intros [= <-]. }
  unfold applied, applySnapshot. rewrite Hopen, Hquads, Htids.
  destruct (transactAll_tids (bufferCount 10 (allTids from)) ds []) as [Herrors Hids].
  destruct (transactAll (snapshotTidsBatch <$> _) (ds, [])) as [ds1 errors1].
  cbn [fst snd] in Herrors, Hids. subst errors1.
  destruct (transactAll_quads from (bufferCount 10 (graph from)) rid ds1 [])
    as [Herrors Htriples]; [by rewrite bufferCount_join|].
  destruct (transactAll (snapshotBatch <$> _) (ds1, [])) as [ds2 errors2].
  cbn [fst snd] in *. subst errors2.
  pose proof (extends_trans _ _ _ _ _ _ _ _ _ Hids Htriples) as Hall.
  rewrite !bufferCount_join in Hall. cbn [app] in Hall. rewrite app_nil_r in Hall.
  destruct Hall as (Hg & Ha & Ht & He & _ & _).
  split; [done|]. split; [done|]. split; [done|]. split; [|split; [done|]].
  - intros q. rewrite Ht, elem_of_findTriplesTids. split.
    + intros [?|(triple & ? & ? & ?)]; [by left|right]. split; [done|]. by exists triple.
    + intros [?|[? (triple & ? & ?)]]; [by left|right]. by exists triple.
  - intros Hempty Hasserted triple Hin. apply tids_nonempty.
    apply Hg in Hin as [Hin|Hin]; [by rewrite Hempty in Hin; apply not_elem_of_nil in Hin|].
    destruct (proj1 (tids_nonempty from triple) (Hasserted triple Hin)) as [tid Htid].
    exists tid. apply Ht. right. apply elem_of_findTriplesTids. by exists triple.
Qed.

End Snapshots.

(** ** Reification: positions that are lost, ids that are shared *)

Section ReificationEdges.

Import MeldEncoding.

(** One step of [unreify] on each quad of a reification, whatever the
    terms are. The first quad finds an entry, or an id that names no
    inherited member. *)
Lemma unreify_step_type rids rid :
  is_Some (rids !! rid) ∨ inherited rid = false →
  unreify_step rids (quad (BlankNode rid) (name RDF_type) (name RDF_Statement))
  = Some (<[rid := default (emptyTriple, []) (rids !! rid)]> rids).
Proof.
  intros Hrid. unfold unreify_step; simpl.
  destruct (rids !! rid) as [[triple tids]|]; simpl.
  - repeat case_decide; done.
  - destruct Hrid as [[? [=]]| ->]. simpl. repeat case_decide; done.
Qed.

(** An id that names an inherited member and has no entry yet: the step
    throws. *)
Lemma unreify_step_inherited rids (reification : Triple) :
  rids !! value (subject reification) = None →
  inherited (value (subject reification)) = true →
  unreify_step rids reification = None.
Proof. intros Hrid Hinherited. unfold unreify_step. by rewrite Hrid, Hinherited. Qed.

Lemma unreify_step_subject_any rids rid triple tids o :
  rids !! rid = Some (triple, tids) →
  unreify_step rids (quad (BlankNode rid) (name RDF_subject) o)
  = Some (<[rid := (if isNamedNode o
                    then {| psubject := Some o; ppredicate := ppredicate triple;
                            pobject := pobject triple |}
                    else triple, tids)]> rids).
Proof.
  intros Hrid. unfold unreify_step; simpl. rewrite Hrid; simpl.
  repeat case_decide; done.
Qed.

Lemma unreify_step_predicate_any rids rid triple tids o :
  rids !! rid = Some (triple, tids) →
  unreify_step rids (quad (BlankNode rid) (name RDF_predicate) o)
  = Some (<[rid := (if isNamedNode o
                    then {| psubject := psubject triple; ppredicate := Some o;
                            pobject := pobject triple |}
                    else triple, tids)]> rids).
Proof.
  intros Hrid. unfold unreify_step; simpl. rewrite Hrid; simpl.
  repeat case_decide; done.
Qed.

(** The quads of one entry under the id [rid]: the triple that [unreify] has
    under [rid] is overlaid, the TIDs are added to those it has. *)
Lemma unreify_entry_overlay rids rid (entry : Triple * list UUID) :
  is_Some (rids !! rid) ∨ inherited rid = false →
  reduce unreify_step rids (reifyEntry (BlankNode rid) entry)
  = Some (<[rid := (overlay (default (emptyTriple, []) (rids !! rid)).1 entry.1,
                    (default (emptyTriple, []) (rids !! rid)).2 ++ entry.2)]> rids).
Proof.
  intros Hrid. destruct entry as [[s p o] tids]. unfold reifyEntry.
  cbn [fst snd subject predicate object].
  rewrite reduce_app. cbn [reduce]. rewrite unreify_step_type by done.
  cbn [mbind option_bind].
  destruct (default (emptyTriple, []) (rids !! rid)) as [prev prevTids].
  rewrite (unreify_step_subject_any _ rid prev prevTids) by apply lookup_insert_eq.
  cbn [mbind option_bind]. rewrite insert_insert_eq.
  rewrite (unreify_step_predicate_any _ rid _ prevTids) by apply lookup_insert_eq.
  cbn [mbind option_bind]. rewrite insert_insert_eq.
  rewrite (unreify_step_object _ rid _ prevTids) by apply lookup_insert_eq.
  cbn [mbind option_bind]. rewrite insert_insert_eq, unreify_tids. cbn [fst snd].
  f_equal. f_equal. f_equal. unfold overlay; cbn.
  by destruct (isNamedNode s), (isNamedNode p).
Qed.

Lemma unreify_entries_overlay (triplesTids : list (Triple * list UUID)) :
  ∀ next rids,
    (∀ k, next ≤ k → rids !! value (blankNode k) = None) →
    ∃ reduced,
      reduce unreify_step rids (reifyTriplesTids next triplesTids) = Some reduced
      ∧ snd <$> map_to_list reduced
        ≡ₚ (snd <$> map_to_list rids)
           ++ ((λ entry, (overlay emptyTriple entry.1, entry.2)) <$> triplesTids).
Proof.
  induction triplesTids as [|entry rest IH]; intros next rids Hfresh;
    cbn [reifyTriplesTids].
  - exists rids. split; [done|]. simpl. by rewrite app_nil_r.
  - rewrite reduce_app.
    change (blankNode next) with (BlankNode (value (blankNode next))).
    rewrite unreify_entry_overlay by (right; apply blankNode_own).
    rewrite (Hfresh next) by lia. cbn [default fst snd app mbind option_bind].
    destruct (IH (S next)
                (<[value (blankNode next) := (overlay emptyTriple entry.1, entry.2)]> rids))
      as (reduced & -> & Hperm); [intros k Hk|].
    + rewrite lookup_insert_ne; [apply Hfresh; lia|].
      intros Heq. apply (blankNode_inj next k) in Heq. lia.
    + exists reduced. split; [done|]. rewrite Hperm.
      rewrite map_to_list_insert by (apply (Hfresh next); lia).
      simpl. by rewrite Permutation_middle.
Qed.

(** What comes back from a reification, for any triples: [unreify] takes the
    subject and the predicate of a statement only when they are named nodes,
    so a triple comes back whole exactly when its subject and its predicate
    are IRIs; with a blank node or a literal there the position is missing
    from what [unreify] returns. *)
Theorem unreify_reifyTriplesTids_any (next : nat) (triplesTids : list (Triple * list UUID)) :
  (∃ entries,
     unreify (reifyTriplesTids next triplesTids) = Some entries
     ∧ entries ≡ₚ (λ entry, (overlay emptyTriple entry.1, entry.2)) <$> triplesTids)
  ∧ ∀ t, complete (overlay emptyTriple t)
         = if isNamedNode (subject t) && isNamedNode (predicate t)
           then Some t else None.
Proof.
  split.
  - unfold unreify.
    destruct (unreify_entries_overlay triplesTids next ∅) as (reduced & -> & Hperm);
      [intros; apply lookup_empty|].
    eexists. split; [done|]. by rewrite Hperm, map_to_list_empty.
  - intros [s p o]. unfold overlay, complete; cbn.
    by destruct (isNamedNode s), (isNamedNode p).
Qed.

(** Two statements reified under one id are read as one: [unreify] has one
    entry for the id, with the positions of the later statement over those of
    the earlier one, and with the TIDs of both. That is for an id that names
    no member of [Object.prototype]; for one that does, such as
    [constructor], [unreify] throws. *)
Theorem unreify_shared_id rid (entry1 entry2 : Triple * list UUID) :
  unreify (reifyEntry (BlankNode rid) entry1 ++ reifyEntry (BlankNode rid) entry2)
  = if inherited rid then None
    else Some [(overlay (overlay emptyTriple entry1.1) entry2.1, entry1.2 ++ entry2.2)].
Proof.
  unfold unreify. destruct (inherited rid) eqn:Hrid.
  - unfold reifyEntry. cbn [app reduce].
    by rewrite unreify_step_inherited by (done || apply lookup_empty).
  - rewrite reduce_app, unreify_entry_overlay by by right.
    cbn [mbind option_bind].
    rewrite unreify_entry_overlay by (left; rewrite lookup_insert_eq; eauto).
    rewrite lookup_empty, lookup_insert_eq, insert_insert_eq.
    cbn [default fst snd app mbind option_bind].
    by rewrite insert_empty, map_to_list_singleton.
Qed.

End ReificationEdges.

(** ** One transaction of [QuadStoreDataset] *)

Section OneTransaction.

Import QuadStore.

Context {Q : Type} `{EqDecision Q} {E T : Type}.

Lemma release_new key :
  release (mkAsyncLock {[ key := [] ]}) key = (mkAsyncLock ∅, None).
Proof. unfold release; cbn. by rewrite lookup_singleton_eq, delete_singleton_eq. Qed.

(** The task that is done was the last to be called: its lock is free
    again. *)
Lemma done_last (t : Task Q E T) id store (locks : list AsyncLock) tasks trace :
  lock t = length locks →
  done t (mkRuntime id store (locks ++ [mkAsyncLock {[ id := [] ]}]) tasks trace)
  = mkRuntime id store (locks ++ [mkAsyncLock ∅]) tasks trace.
Proof.
  intros Hlock. unfold done. cbn [QuadStore.locks QuadStore.id]. rewrite Hlock.
  rewrite list_lookup_middle by done. rewrite release_new.
  cbn [QuadStore.store QuadStore.tasks QuadStore.trace]. f_equal.
  rewrite insert_app_r_alt by lia. by rewrite Nat.sub_diag.
Qed.

Lemma setPhase_last (tasks : list (Task Q E T)) t ph :
  setPhase (length tasks) ph (tasks ++ [t])
  = tasks ++ [mkTask (lock t) (prepare t) ph].
Proof.
  unfold setPhase. rewrite alter_app_r_alt by lia. by rewrite Nat.sub_diag.
Qed.

(** A call of [transact] that runs to its end with no other step between:
    when [prepare] rejects or resolves with no patch the store is as it was;
    with a patch the store is patched once [store.patch] has settled; the
    caller gets the rejection or the value; and in every case the lock that
    the call took is free again. *)
Theorem transact_runs_to_end (prepare : Prepare Q E T) (rt : Runtime Q E T) :
  let task := length (tasks rt) in
  let prepared := resumePrepared task (transact prepare rt) in
  let settled store result events :=
    mkRuntime (id rt) store (locks rt ++ [mkAsyncLock ∅])
      (tasks rt ++ [mkTask (length (locks rt)) prepare (Returned result)])
      (trace rt ++ Prepared task (QuadStore.store rt) :: events) in
  match prepare (store rt) with
  | inl err => prepared = settled (store rt) (inl err) [Settled task]
  | inr (None, rtn) => prepared = settled (store rt) (inr rtn) [Settled task]
  | inr (Some patch, rtn) =>
      resumePatched task prepared
      = settled (patchGraph patch (store rt)) (inr rtn) [Patched task; Settled task]
  end.
Proof.
  intros task prepared settled. unfold prepared, settled, task.
  rewrite transact_never_waits. unfold resumePrepared.
  cbn [tasks QuadStore.store QuadStore.id locks trace].
  rewrite list_lookup_middle by done. cbn [phase QuadStore.prepare].
  destruct (prepare (store rt)) as [err|[[patch|] rtn]].
  - rewrite (setPhase_last _ (mkTask _ _ _)). by rewrite done_last.
  - rewrite (setPhase_last _ (mkTask _ _ _)). unfold resumePatched.
    cbn [tasks QuadStore.store QuadStore.id locks trace lock QuadStore.prepare].
    rewrite list_lookup_middle by done. cbn [phase].
    rewrite (setPhase_last _ (mkTask _ _ _)). rewrite done_last by done.
    by rewrite <- app_assoc.
  - rewrite (setPhase_last _ (mkTask _ _ _)). by rewrite done_last.
Qed.

End OneTransaction.

(** ** MqttRemotes: who is sent to *)

Section SendTargets.

Import Mqtt.

Context {TreeClock : Type} `{!CausalClock TreeClock}.

Implicit Types (r : MqttRemotes TreeClock) (present : list string).

Lemma onPresenceChange_others present r :
  onPresenceChange present r = true ↔ ∃ peer, peer ∈ present ∧ peer ≠ id r.
Proof.
  unfold onPresenceChange.
  assert (∀ online,
            foldl (λ online id', online || bool_decide (id' ≠ id r)) online present = true
            ↔ online = true ∨ ∃ peer, peer ∈ present ∧ peer ≠ id r) as Hfold.
  { induction present as [|peer present IH]; intros online; cbn [foldl].
    - split; [by left|]. intros [?|(? & []%not_elem_of_nil & _)]. done.
    - rewrite IH, orb_true_iff, bool_decide_eq_true. split.
      + intros [[?|?]|(peer' & ? & ?)]; [by left|right..].
        * exists peer. split; [left|done].
        * exists peer'. split; [by right|done].
      + intros [?|(peer' & [->|?]%elem_of_cons & ?)].
        * by left; left.
        * by left; right.
        * right. by exists peer'. }
  rewrite Hfold. split; [intros [?|?]; done|by right].
Qed.

(** The peers that [nextSendAddress] chooses from, when [recentlySentTo] is
    empty or holds the clone's own id, as it does from the first send on. *)
Lemma nextSendAddress_eligible present r :
  recentlySentTo r = ∅ ∨ id r ∈ recentlySentTo r →
  let recent : gset string :=
    (if forallb (λ id, bool_decide (id ∈ recentlySentTo r)) present
     then ∅ else recentlySentTo r) ∪ {[ id r ]} in
  filter (λ peer, peer ∉ recent) present = []
  ↔ ∀ peer, peer ∈ present → peer = id r.
Proof.
  intros Hrecent recent. split.
  - intros Hnone peer Hin. destruct (decide (peer = id r)) as [|Hother]; [done|].
    exfalso. unfold recent in Hnone.
    destruct (forallb_Forall (λ id, id ∈ recentlySentTo r) present) as [Hall|Hsome].
    + eapply (filter_nil_not_elem_of _ present peer); [exact Hnone| |done].
      rewrite not_elem_of_union, not_elem_of_singleton. split; [|done].
      apply not_elem_of_empty.
    + apply not_Forall_Exists, Exists_exists in Hsome as (other & Hother_in & Hfree);
        [|apply _].
      destruct Hrecent as [Hempty|Hself].
      * eapply (filter_nil_not_elem_of _ present peer); [exact Hnone| |done].
        rewrite Hempty, not_elem_of_union, not_elem_of_singleton. split; [|done].
        apply not_elem_of_empty.
      * eapply (filter_nil_not_elem_of _ present other); [exact Hnone| |done].
        rewrite not_elem_of_union, not_elem_of_singleton. split; [done|].
        by intros ->.
  - intros Hme. destruct (filter _ present) as [|peer eligible] eqn:Hfilter; [done|].
    assert (peer ∈ filter (λ peer, peer ∉ recent) present) as [Hfree Hin]%list_elem_of_filter
      by (rewrite Hfilter; left).
    exfalso. apply Hfree. rewrite (Hme peer Hin). apply elem_of_union. right.
    by apply elem_of_singleton.
Qed.

(** [send] raises [NONE_VISIBLE] exactly when the presence listener has the
    clone offline: no one else is present. [recentlySentTo] never keeps a
    request from a clone that is present alone with us. From the first send
    on, [recentlySentTo] holds the clone's own id. *)
Theorem send_none_visible_offline {R} present messageId (reply : option R) request r :
  recentlySentTo r = ∅ ∨ id r ∈ recentlySentTo r →
  let sent := send present messageId reply request r in
  ((∃ detail, sent.2 = inl (NONE_VISIBLE detail)) ↔ onPresenceChange present r = false)
  ∧ ((¬ ∃ detail, sent.2 = inl (NONE_VISIBLE detail)) → sent.2 = getResponse reply)
  ∧ id r ∈ recentlySentTo sent.1.
Proof.
  intros Hrecent sent. unfold sent, send, nextSendAddress.
  pose proof (nextSendAddress_eligible present r Hrecent) as Heligible.
  cbv zeta in Heligible.
  assert (onPresenceChange present r = false ↔ ∀ peer, peer ∈ present → peer = id r)
    as ->.
  { rewrite <- not_true_iff_false, onPresenceChange_others. split.
    - intros Hnone peer Hin. destruct (decide (peer = id r)); [done|].
      exfalso. apply Hnone. by exists peer.
    - intros Hme (peer & Hin & Hother). by apply Hother, Hme. }
  rewrite <- Heligible.
  destruct (filter _ present) as [|toId eligible]; cbn.
  - split; [split; [done|eauto]|]. split; [intros []; eauto|].
    apply elem_of_union. right. by apply elem_of_singleton.
  - split; [split; [intros [? ?]; by destruct reply|done]|]. split; [done|].
    apply elem_of_union. left. apply elem_of_union. right. by apply elem_of_singleton.
Qed.

(** *** Round robin *)

Lemma list_filter_iff_in {A} (P1 P2 : A → Prop)
    `{!∀ x, Decision (P1 x), !∀ x, Decision (P2 x)} (l : list A) :
  (∀ x, x ∈ l → P1 x ↔ P2 x) → filter P1 l = filter P2 l.
Proof.
  induction l as [|x l IH]; intros Hiff; [done|].
  rewrite !filter_cons, IH by (intros y Hy; apply Hiff; by right).
  destruct (decide (P1 x)) as [HP|HP], (decide (P2 x)) as [HP'|HP']; try done;
    exfalso; apply (Hiff x) in HP || apply (Hiff x) in HP'; try done; left.
Qed.

Lemma filter_not_take {A} `{EqDecision A} (l : list A) j :
  NoDup l → filter (λ x, x ∉ take j l) l = drop j l.
Proof.
  revert j. induction l as [|x l IH]; intros j Hnodup; [by destruct j|].
  apply NoDup_cons in Hnodup as [Hfresh Hnodup]. destruct j as [|j]; cbn [take drop].
  - rewrite filter_cons_True by apply not_elem_of_nil.
    f_equal. pose proof (IH 0 Hnodup) as IH0. by rewrite take_0, drop_0 in IH0.
  - rewrite filter_cons_False by (intros Hnot; apply Hnot; left).
    rewrite <- (IH j Hnodup). apply list_filter_iff_in. intros y Hy.
    rewrite not_elem_of_cons. split; [tauto|]. intros ?. split; [|done].
    by intros ->.
Qed.

(** One send, when [recentlySentTo] holds the clone's id and the first [j]
    peers present: the request goes to the next peer, or to the first one
    again when all have been sent to. *)
Lemma send_next_peer {R} present messageId (reply : option R) request r j :
  NoDup present →
  let peers := filter (λ peer, peer ≠ id r) present in
  peers ≠ [] →
  j ≤ length peers →
  (recentlySentTo r = ∅ ∧ j = 0)
  ∨ recentlySentTo r = {[ id r ]} ∪ list_to_set (take j peers) →
  let sent := (send present messageId reply request r).1 in
  ∃ peer,
    peers !! (j mod length peers) = Some peer
    ∧ published sent
      = published r ++ [(mkSendTopic peer (id r) messageId (controlTopic r), request)]
    ∧ recentlySentTo sent
      = {[ id r ]} ∪ list_to_set (take (S (j mod length peers)) peers)
    ∧ id sent = id r
    ∧ controlTopic sent = controlTopic r
    ∧ (send present messageId reply request r).2 = getResponse reply.
Proof.
  intros Hnodup peers Hpeers Hj Hrecent sent.
  assert (NoDup peers) as Hnodup' by by apply NoDup_filter.
  assert (0 < length peers) as Hn by (destruct peers; [done|cbn; lia]).
  assert (j mod length peers < length peers) as Hj' by (apply Nat.mod_upper_bound; lia).
  destruct (lookup_lt_is_Some_2 peers _ Hj') as [peer Hpeer].
  assert (∃ recent : gset string,
            (if forallb (λ id, bool_decide (id ∈ recentlySentTo r)) present
             then ∅ else recentlySentTo r) ∪ {[ id r ]} = recent
            ∧ recent = {[ id r ]} ∪ list_to_set (take (j mod length peers) peers))
    as (recent & Hrecent' & Hrecent'').
  { eexists. split; [done|].
    destruct (forallb_Forall (λ id, id ∈ recentlySentTo r) present) as [Hall|Hsome].
    - (* every clone present has been sent to: start again *)
      assert (j = length peers) as ->.
      { destruct (decide (j = length peers)) as [|Hlt]; [done|]. exfalso.
        rewrite Nat.mod_small in Hpeer by lia.
        assert (peer ∈ peers) as [Hother Hin]%list_elem_of_filter
          by by eapply list_elem_of_lookup_2.
        rewrite Forall_forall in Hall. specialize (Hall peer Hin).
        destruct Hrecent as [[Hempty _]|Hrecent]; [by rewrite Hempty in Hall|].
        rewrite Hrecent, elem_of_union, elem_of_singleton, elem_of_list_to_set in Hall.
        destruct Hall as [|Hall]; [done|].
        apply list_elem_of_lookup in Hall as [i Hi].
        pose proof (lookup_lt_Some _ _ _ Hi) as Hlen. rewrite length_take in Hlen.
        rewrite lookup_take_lt in Hi by lia.
        pose proof (NoDup_lookup _ _ _ _ Hnodup' Hi Hpeer). lia. }
      rewrite Nat.Div0.mod_same, take_0. set_unfold. tauto.
    - (* some clone present has not been sent to *)
      destruct Hrecent as [[Hempty ->]|Hrecent].
      + rewrite Nat.Div0.mod_0_l, take_0, Hempty. set_unfold. tauto.
      + destruct (decide (j = length peers)) as [->|Hlt].
        * exfalso. apply Hsome, Forall_forall. intros other Hin.
          rewrite Hrecent, take_ge, elem_of_union, elem_of_singleton,
            elem_of_list_to_set by lia.
          destruct (decide (other = id r)); [by left|right].
          by apply list_elem_of_filter.
        * rewrite Nat.mod_small, Hrecent by lia. set_unfold. tauto. }
  unfold sent, send, nextSendAddress. rewrite Hrecent'.
  assert (filter (λ id0, id0 ∉ recent) present = drop (j mod length peers) peers) as ->.
  { rewrite <- (filter_not_take peers) by done. rewrite Hrecent''.
    generalize (take (j mod length peers) peers). intros sentTo. unfold peers.
    rewrite list_filter_filter. apply list_filter_iff. intros other.
    rewrite not_elem_of_union, not_elem_of_singleton, elem_of_list_to_set.
    tauto. }
  rewrite (drop_S _ _ _ Hpeer). cbn.
  exists peer. split; [done|]. split; [done|]. split; [|done].
  rewrite (take_S_r _ _ _ Hpeer), list_to_set_snoc_L, Hrecent''. set_unfold. tauto.
Qed.

(** *** Revup: who is asked *)

(** [revupFrom] asks the peers in turn. While the peers that are asked
    cannot revup, answering with their own ids, the next one is asked; the
    first peer that can gives the updates. When none of the [n] peers can,
    the first is asked again, and [revupFrom] resolves to undefined on its
    second refusal, after [n + 1] requests. [answers] has the address of the
    updates of the peers that can revup; [i] is the number of refusals
    before the request that decides. *)
Theorem revupFrom_asks_in_turn present (sends : list (string * option RevupResponse))
    time r (answers : string → option string) i :
  NoDup present →
  recentlySentTo r = ∅ →
  let peers := filter (λ peer, peer ≠ id r) present in
  let asked k := peers !!! (k mod length peers) in
  peers ≠ [] →
  (∀ k s, sends !! k = Some s → s.2 = Some (replyRevup (asked k) (answers (asked k)))) →
  i ≤ length peers →
  (∀ k, k < i → answers (asked k) = None) →
  (i < length peers → is_Some (answers (asked i))) →
  i < length sends →
  let revup := revupFrom present sends time r in
  revup.2 = Some (inr (if decide (i < length peers) then answers (asked i) else None))
  ∧ published revup.1
    = published r
      ++ imap (λ k s, (mkSendTopic (asked k) (id r) s.1 (controlTopic r),
                       RevupRequest time)) (take (S i) sends).
Proof.
  intros Hnodup Hempty peers asked Hpeers Hreplies Hi Hrefuse Hcan Hsends.
  assert (NoDup peers) as Hnodup' by by apply NoDup_filter.
  assert (0 < length peers) as Hn by (destruct peers; [done|cbn; lia]).
  assert (∀ d j sends' r' tried,
            j + d = i →
            id r' = id r → controlTopic r' = controlTopic r →
            (recentlySentTo r' = ∅ ∧ j = 0)
            ∨ recentlySentTo r' = {[ id r ]} ∪ list_to_set (take j peers) →
            tried = list_to_set (take j peers) →
            (∀ k s, sends' !! k = Some s →
               s.2 = Some (replyRevup (asked (j + k)) (answers (asked (j + k))))) →
            d < length sends' →
            (revupFromNext present sends' time tried r').2
            = Some (inr (if decide (i < length peers) then answers (asked i) else None))
            ∧ published (revupFromNext present sends' time tried r').1
              = published r'
                ++ imap (λ k s, (mkSendTopic (asked (j + k)) (id r) s.1 (controlTopic r),
                                 RevupRequest time)) (take (S d) sends')) as Hfrom.
  { induction d as [|d IH]; intros j sends' r' tried Hjd Hid Htopic Hrecent Htried
      Hreplies' Hlen.
    - (* the request that decides *)
      destruct sends' as [|[messageId reply] sends']; [cbn in Hlen; lia|].
      assert (j = i) as -> by lia.
      pose proof (Hreplies' 0 _ eq_refl) as Hreply. cbn [snd] in Hreply.
      rewrite Nat.add_0_r in Hreply. subst reply.
      pose proof (send_next_peer present messageId
                    (Some (replyRevup (asked i) (answers (asked i))))
                    (RevupRequest time) r' i Hnodup) as Hstep.
      cbv zeta in Hstep. rewrite Hid in Hstep. fold peers in Hstep.
      destruct (Hstep Hpeers Hi Hrecent)
        as (peer & Hpeer & Hpublished & _ & _ & _ & Hres).
      cbn [revupFromNext].
      destruct (send present messageId _ (RevupRequest time) r') as [r1 res].
      cbn [fst snd] in Hpublished, Hres. subst res. cbn [getResponse take imap].
      rewrite Nat.add_0_r, Htopic in *.
      assert (asked i = peer) as Hasked
        by by apply list_lookup_total_correct.
      rewrite Hasked in *.
      destruct (decide (i < length peers)) as [Hlt|Hall].
      + destruct (Hcan Hlt) as [address Haddress].
        rewrite Haddress. cbn. done.
      + assert (i = length peers) as -> by lia.
        assert (answers peer = None) as ->.
        { rewrite <- Hasked. unfold asked. rewrite Nat.Div0.mod_same.
          specialize (Hrefuse 0 Hn). unfold asked in Hrefuse.
          by rewrite Nat.Div0.mod_0_l in Hrefuse. }
        cbn. rewrite decide_False; [done|].
        intros Hfresh. apply Hfresh. rewrite Htried, take_ge by lia.
        apply elem_of_list_to_set. by eapply list_elem_of_lookup_2.
    - (* a refusal: the next peer is asked *)
      destruct sends' as [|[messageId reply] sends']; [cbn in Hlen; lia|].
      assert (j < i) as Hji by lia.
      pose proof (Hreplies' 0 _ eq_refl) as Hreply. cbn [snd] in Hreply.
      rewrite Nat.add_0_r in Hreply. subst reply.
      pose proof (send_next_peer present messageId
                    (Some (replyRevup (asked j) (answers (asked j))))
                    (RevupRequest time) r' j Hnodup) as Hstep.
      cbv zeta in Hstep. rewrite Hid in Hstep. fold peers in Hstep.
      destruct (Hstep Hpeers ltac:(lia) Hrecent)
        as (peer & Hpeer & Hpublished & Hrecent' & Hid' & Htopic' & Hres).
      rewrite Nat.mod_small in Hpeer, Hrecent' by lia.
      cbn [revupFromNext].
      destruct (send present messageId _ (RevupRequest time) r') as [r1 res].
      cbn [fst snd] in Hpublished, Hres, Hrecent', Hid', Htopic'. subst res.
      cbn [getResponse].
      assert (asked j = peer) as Hasked.
      { unfold asked. rewrite Nat.mod_small by lia.
        by apply list_lookup_total_correct. }
      rewrite (Hrefuse j Hji), Hasked.
      cbn [replyRevup canRevup updatesAddress].
      rewrite decide_True.
      2:{ rewrite Htried, elem_of_list_to_set. intros Hin.
          apply list_elem_of_lookup in Hin as [k Hk].
          pose proof (lookup_lt_Some _ _ _ Hk) as Hlen'. rewrite length_take in Hlen'.
          rewrite lookup_take_lt in Hk by lia.
          pose proof (NoDup_lookup _ _ _ _ Hnodup' Hk Hpeer). lia. }
      destruct (IH (S j) sends' r1 (tried ∪ {[peer]})) as [Hresult Hpublished'];
        [lia|by rewrite Hid'|by rewrite Htopic'|by right| | |cbn in Hlen; lia|].
      + rewrite Htried, (take_S_r _ _ _ Hpeer). by rewrite list_to_set_snoc_L.
      + intros k s Hk. rewrite (Hreplies' (S k) s Hk).
        by replace (j + S k) with (S j + k) by lia.
      + split; [done|]. rewrite Hpublished', Hpublished, Htopic, <- app_assoc.
        cbn [app]. f_equal. cbn [take]. rewrite imap_cons. cbn [fst].
        rewrite Nat.add_0_r, Hasked. f_equal.
        apply imap_ext. intros k [messageId' reply'] _. cbn [fst compose].
        by replace (j + S k) with (S j + k) by lia. }
  unfold revupFrom. rewrite (proj1 (Hfrom i 0 sends r ∅ ltac:(lia) eq_refl eq_refl
                                     (or_introl (conj Hempty eq_refl)) eq_refl
                                     Hreplies Hsends)).
  split; [done|].
  by rewrite (proj2 (Hfrom i 0 sends r ∅ ltac:(lia) eq_refl eq_refl
                       (or_introl (conj Hempty eq_refl)) eq_refl Hreplies Hsends)).
Qed.

(** *** Echoes *)

(** An update that a clone publishes on the operations topic is ignored
    when it comes back to the clone, and goes to [nextUpdate] at every other
    clone; the id of the clone is not the empty string, which the test of
    the channel id takes for no id. *)
Theorem onRemoteUpdate_echo {D} (from me : string) (msg : D) :
  from ≠ "" →
  ∃ json, relay from true msg = Some json
          ∧ (from = me → onRemoteUpdate me json = Ignored)
          ∧ (from ≠ me → onRemoteUpdate me json = NextUpdate msg).
Proof.
  intros Hfrom. eexists. split; [done|]. unfold onRemoteUpdate. cbn.
  rewrite (bool_decide_eq_false_2 (from = "")) by done. cbn. split.
  - intros ->. by rewrite bool_decide_eq_true_2.
  - intros Hother. by rewrite bool_decide_eq_false_2.
Qed.

(** Round robin: with the same clones present, and starting with an empty
    [recentlySentTo], the requests go to the peers in the order of their
    presence, one each, and around again: the [k]th request goes to the peer
    number [k mod n] of the [n] peers. *)
Theorem sendAll_round_robin {R} present request (sends : list (string * option R)) r :
  NoDup present →
  recentlySentTo r = ∅ →
  let peers := filter (λ peer, peer ≠ id r) present in
  peers ≠ [] →
  published (sendAll present request sends r)
  = published r
    ++ imap (λ k s, (mkSendTopic (peers !!! (k mod length peers)) (id r) s.1
                       (controlTopic r), request)) sends.
Proof.
  intros Hnodup Hempty peers Hpeers.
  assert (∀ j r',
            id r' = id r → controlTopic r' = controlTopic r →
            j ≤ length peers →
            (recentlySentTo r' = ∅ ∧ j = 0)
            ∨ recentlySentTo r' = {[ id r ]} ∪ list_to_set (take j peers) →
            published (sendAll present request sends r')
            = published r'
              ++ imap (λ k s, (mkSendTopic (peers !!! ((j + k) mod length peers)) (id r)
                                 s.1 (controlTopic r), request)) sends) as Hfrom.
  { induction sends as [|[messageId reply] sends IH]; intros j r' Hid Htopic Hj Hrecent.
    - cbn. by rewrite app_nil_r.
    - unfold sendAll in *. cbn [foldl fst snd].
      pose proof (send_next_peer present messageId reply request r' j Hnodup) as Hstep.
      cbv zeta in Hstep. rewrite Hid in Hstep. fold peers in Hstep.
      destruct (Hstep Hpeers Hj Hrecent)
        as (peer & Hpeer & Hpublished & Hrecent' & Hid' & Htopic' & _).
      assert (j mod length peers < length peers) as Hlt
        by by eapply lookup_lt_Some.
      rewrite (IH (S (j mod length peers))); [| | |lia|by right].
      + rewrite Hpublished, Htopic, <- app_assoc. cbn [app]. f_equal.
        rewrite imap_cons. cbn [fst]. rewrite Nat.add_0_r.
        rewrite (list_lookup_total_correct _ _ _ Hpeer). f_equal.
        apply imap_ext. intros k [messageId' reply'] _. cbn [fst compose].
        replace (S (j mod length peers) + k) with (j mod length peers + S k) by lia.
        by rewrite Nat.Div0.add_mod_idemp_l.
      + done.
      + by rewrite Htopic'. }
  rewrite (Hfrom 0 r); [done..|lia|by left].
Qed.

End SendTargets.

(** ** The notify lock: notifications are published in the order of the calls *)

Section NotifyOrder.

Import QuadStore Notify.

Context {J E : Type} (stringify : J → string).

Implicit Types (rt : Remotes J E) (t : Task J).

Lemma lookup_setPhase (tasks : list (Task J)) task ph k :
  setPhase task ph tasks !! k
  = (λ t, if decide (k = task) then mkTask (address t) (notification t) ph else t)
      <$> tasks !! k.
Proof.
  unfold setPhase. destruct (decide (k = task)) as [->|Hne].
  - by rewrite list_lookup_alter, decide_True.
  - rewrite list_lookup_alter_ne by done. by destruct (tasks !! k).
Qed.

Lemma lookup_setPhase_Some (tasks : list (Task J)) task ph k t' :
  setPhase task ph tasks !! k = Some t' →
  ∃ t, tasks !! k = Some t ∧ address t' = address t ∧ notification t' = notification t
       ∧ phase t' = (if decide (k = task) then ph else phase t).
Proof.
  rewrite lookup_setPhase. destruct (tasks !! k) as [t|]; [|done].
  intros [= <-]. exists t. by destruct (decide (k = task)).
Qed.

Lemma invariant_new : invariant stringify (newRemotes : Remotes J E).
Proof. by split. Qed.

Lemma invariant_settle promise outcome rt :
  invariant stringify rt → invariant stringify (settle promise outcome rt).
Proof.
  intros [Hqueued Hsorted Hlocked Hturn Htask Horder Hstarted Hlate].
  assert (Hkeep : ∀ n outcome', awaited rt n = Some outcome' →
                  awaited (settle promise outcome rt) n = Some outcome').
  { intros [|p] outcome' Hn; [done|]. cbn in *.
    destruct (promises rt !! promise) eqn:Hpromise; [done|].
    rewrite lookup_insert_ne; [done|]. intros ->. congruence. }
  split; try done.
  - intros k task a payload Hk.
    destruct (Htask _ _ _ _ Hk) as (t & json & Ht & Ha & Hph & Hjson & Hp).
    exists t, json. repeat split; try done. by apply Hkeep.
  - intros task t Ht Hph. destruct (Hstarted _ _ Ht Hph) as [[err Herr]|Hk]; [left|by right].
    exists err. by apply Hkeep.
Qed.

Lemma sorted_NoDup {A} (R : relation A) (l : list A) :
  (∀ x, ¬ R x x) → StronglySorted R l → NoDup l.
Proof.
  intros Hirreflexive. induction 1 as [|x l _ IH Hall]; constructor; [|done].
  intros Hin. rewrite Forall_forall in Hall. by eapply Hirreflexive, Hall.
Qed.

(** The tasks that wait for an address are fewer than the calls so far. *)
Lemma pending_calls rt a :
  invariant stringify rt → pending (notifyLock rt) a ≤ length (tasks rt).
Proof.
  intros [Hqueued Hsorted _ _ _ _ _ _]. unfold pending.
  destruct (queues (notifyLock rt) !! a) as [waiting|] eqn:Ha; cbn; [|lia].
  transitivity (length (seq 0 (length (tasks rt)))); [|by rewrite length_seq].
  apply submseteq_length, NoDup_submseteq.
  - apply (sorted_NoDup lt); [lia|by eapply Hsorted].
  - intros w Hw. destruct (Hqueued _ _ _ Ha Hw) as (t & Ht%lookup_lt_Some & _).
    apply elem_of_seq. lia.
Qed.

Lemma invariant_notify a n rt :
  invariant stringify rt → invariant stringify (notify a n rt).
Proof.
  intros Hinv. pose proof (pending_calls rt a Hinv) as Hpending.
  destruct Hinv as [Hqueued Hsorted Hlocked Hturn Htask Horder Hstarted Hlate].
  assert (Hold : ∀ a' waiting w, queues (notifyLock rt) !! a' = Some waiting →
                 w ∈ waiting → ∀ new,
                 ∃ t, (tasks rt ++ [new]) !! w = Some t ∧ address t = a' ∧ phase t = Queued).
  { intros a' waiting w Hw Hin new. destruct (Hqueued _ _ _ Hw Hin) as (t & Ht & ? & ?).
    exists t. split; [by apply lookup_app_l_Some|done]. }
  assert (Hpublished : ∀ k task a' payload new,
            published rt !! k = Some (task, a', payload) →
            ∃ t json, (tasks rt ++ [new]) !! task = Some t ∧ address t = a'
                      ∧ (phase t = Publishing ∨ phase t = Settled)
                      ∧ awaited rt (notification t) = Some (inr json)
                      ∧ payload = stringify json).
  { intros k task a' payload new Hk.
    destruct (Htask _ _ _ _ Hk) as (t & json & Ht & Hrest).
    exists t, json. split; [by apply lookup_app_l_Some|done]. }
  assert (Hstarted' : ∀ new, phase new ≠ Publishing → phase new ≠ Settled →
            ∀ task t, (tasks rt ++ [new]) !! task = Some t →
            phase t = Publishing ∨ phase t = Settled →
            (∃ err, awaited rt (notification t) = Some (inl err))
            ∨ (∃ k payload, published rt !! k = Some (task, address t, payload))).
  { intros new Hnew Hnew' task t [[Hlt Ht]|[-> <-]]%lookup_snoc_Some Hph.
    - by eapply Hstarted.
    - by destruct Hph. }
  assert (Hlate' : ∀ new, (phase new = Refused → maxPending ≤ length (tasks rt)) →
            ∀ task t, (tasks rt ++ [new]) !! task = Some t →
            phase t = Refused → maxPending ≤ task).
  { intros new Hnew task t [[Hlt Ht]|[-> <-]]%lookup_snoc_Some Hph.
    - by eapply Hlate.
    - by apply Hnew. }
  unfold notify. case_decide as Hfull.
  { split; cbn.
    - intros a' waiting w Hw Hin. by eapply Hold.
    - done.
    - intros task t [[Hlt Ht]|[-> <-]]%lookup_snoc_Some Hph; cbn.
      + by eapply Hlocked.
      + exfalso. apply Hph. by right.
    - intros i j ti tj [[Hi Hti]|[-> <-]]%lookup_snoc_Some
        [[Hj Htj]|[-> <-]]%lookup_snoc_Some; cbn; try lia; try done.
      by eapply Hturn.
    - intros k task a' payload Hk. by eapply Hpublished.
    - done.
    - by apply Hstarted'.
    - apply Hlate'. intros _. cbn. lia. }
  unfold acquire.
  destruct (queues (notifyLock rt) !! a) as [waiting|] eqn:Ha.
  - split; cbn.
    + intros a' waiting' w Hw Hin. destruct (decide (a' = a)) as [->|Hne].
      * rewrite lookup_insert_eq in Hw. injection Hw as <-.
        apply elem_of_app in Hin as [Hin|Hin]; [by eapply Hold|].
        apply list_elem_of_singleton in Hin as ->.
        eexists. split; [apply lookup_snoc_Some; by right|done].
      * rewrite lookup_insert_ne in Hw by done. by eapply Hold.
    + intros a' waiting' Hw. destruct (decide (a' = a)) as [->|Hne].
      * rewrite lookup_insert_eq in Hw. injection Hw as <-.
        apply StronglySorted_app_2; [|by eapply Hsorted|repeat constructor].
        intros w w' Hin ->%list_elem_of_singleton.
        destruct (Hqueued _ _ _ Ha Hin) as (t & Ht & _). by eapply lookup_lt_Some.
      * rewrite lookup_insert_ne in Hw by done. by eapply Hsorted.
    + intros task t [[Hlt Ht]|[-> <-]]%lookup_snoc_Some Hph; cbn.
      * destruct (Hlocked _ _ Ht Hph) as (waiting' & Hw & Hin).
        destruct (decide (address t = a)) as [Heq|Hne].
        -- rewrite Heq in *. rewrite lookup_insert_eq. eexists. split; [done|].
           intros Hq. apply elem_of_app. left. replace waiting with waiting' by congruence.
           by apply Hin.
        -- rewrite lookup_insert_ne by done. by exists waiting'.
      * rewrite lookup_insert_eq. eexists. split; [done|].
        intros _. apply elem_of_app. right. by apply list_elem_of_singleton.
    + intros i j ti tj [[Hi Hti]|[-> <-]]%lookup_snoc_Some
        [[Hj Htj]|[-> <-]]%lookup_snoc_Some; cbn; try lia; try done.
      by eapply Hturn.
    + intros k task a' payload Hk. by eapply Hpublished.
    + done.
    + by apply Hstarted'.
    + by apply Hlate'.
  - split; cbn.
    + intros a' waiting' w Hw Hin. destruct (decide (a' = a)) as [->|Hne].
      * rewrite lookup_insert_eq in Hw. injection Hw as <-. by apply elem_of_nil in Hin.
      * rewrite lookup_insert_ne in Hw by done. by eapply Hold.
    + intros a' waiting' Hw. destruct (decide (a' = a)) as [->|Hne].
      * rewrite lookup_insert_eq in Hw. injection Hw as <-. constructor.
      * rewrite lookup_insert_ne in Hw by done. by eapply Hsorted.
    + intros task t [[Hlt Ht]|[-> <-]]%lookup_snoc_Some Hph; cbn.
      * destruct (Hlocked _ _ Ht Hph) as (waiting' & Hw & Hin).
        destruct (decide (address t = a)) as [Heq|Hne]; [congruence|].
        rewrite lookup_insert_ne by done. by exists waiting'.
      * rewrite lookup_insert_eq. by eexists.
    + intros i j ti tj [[Hi Hti]|[-> <-]]%lookup_snoc_Some
        [[Hj Htj]|[-> <-]]%lookup_snoc_Some; cbn; try lia; try done.
      * by eapply Hturn.
      * intros Heq _ _ _. destruct (decide (over (phase ti))) as [|Hph]; [done|].
        destruct (Hlocked _ _ Hti Hph) as (waiting' & Hw & _). congruence.
    + intros k task a' payload Hk. by eapply Hpublished.
    + done.
    + by apply Hstarted'.
    + by apply Hlate'.
Qed.

Lemma invariant_finish task t rt :
  invariant stringify rt → tasks rt !! task = Some t →
  phase t = Awaiting ∨ phase t = Publishing →
  (phase t = Awaiting → ∃ err, awaited rt (notification t) = Some (inl err)) →
  invariant stringify (finish task t rt).
Proof.
  intros [Hqueued Hsorted Hlocked Hturn Htask Horder Hstarted Hlate] Ht Hactive Hrejected.
  assert (Hunqueued : phase t ≠ Queued ∧ phase t ≠ Refused ∧ ¬ over (phase t))
    by (unfold over; destruct Hactive as [-> | ->]; intuition congruence).
  destruct Hunqueued as (Hunqueued & Hunrefused & Hactive').
  assert (Htask' : (∃ err, awaited rt (notification t) = Some (inl err))
                   ∨ (∃ k payload, published rt !! k = Some (task, address t, payload))).
  { destruct Hactive as [Haw|Hpub]; [left; auto|]. eapply Hstarted; eauto. }
  destruct (Hlocked _ _ Ht Hactive') as (waiting & Hw & _).
  assert (Hothers : ∀ k tk, tasks rt !! k = Some tk → address tk = address t →
            k ≠ task → over (phase tk) ∨ (phase tk = Queued ∧ k ∈ waiting)).
  { intros k tk Hk Ha Hne.
    destruct (decide (over (phase tk))) as [|Hph]; [by left|].
    destruct (decide (phase tk = Queued)) as [Hq|Hph'].
    - right. split; [done|]. destruct (Hlocked _ _ Hk Hph) as (w' & Hw' & Hin).
      rewrite Ha in Hw'. replace waiting with w' by congruence. by apply Hin.
    - exfalso. destruct (decide (k < task)).
      + apply Hph. by eapply (Hturn k task).
      + apply Hactive'. eapply (Hturn task k); try done; [lia|].
        intros Hrefused. apply Hph. by right. }
  assert (Hnotover : ∀ tk, tasks rt !! task = Some tk → ¬ over (phase tk))
    by (intros tk Hk; by replace tk with t by congruence).
  unfold finish, release. rewrite Hw. destruct waiting as [|next rest].
  - split; cbn; [| | | | |done| |].
    + intros a' waiting' w Hw' Hin. destruct (decide (a' = address t)) as [->|Hne].
      { by rewrite lookup_delete_eq in Hw'. }
      rewrite lookup_delete_ne in Hw' by done.
      destruct (Hqueued _ _ _ Hw' Hin) as (tw & Htw & Ha & Hph). exists tw.
      rewrite lookup_setPhase, Htw; cbn. rewrite decide_False; [done|].
      intros ->. congruence.
    + intros a' waiting' Hw'. destruct (decide (a' = address t)) as [->|Hne].
      { by rewrite lookup_delete_eq in Hw'. }
      rewrite lookup_delete_ne in Hw' by done. by eapply Hsorted.
    + intros k t' (tk & Hk & Ha & _ & Hphase)%lookup_setPhase_Some Hph.
      rewrite Hphase in *. rewrite Ha in *.
      destruct (decide (k = task)) as [->|Hne]; [exfalso; apply Hph; by left|].
      destruct (decide (address tk = address t)) as [Heq|Hne'].
      { destruct (Hothers _ _ Hk Heq Hne) as [|[_ Hin]]; [done|].
        by apply elem_of_nil in Hin. }
      rewrite lookup_delete_ne by done. by eapply Hlocked.
    + intros i j ti' tj' (ti & Hi & Hai & _ & Hphi)%lookup_setPhase_Some
        (tj & Hj & Haj & _ & Hphj)%lookup_setPhase_Some Ha Hlt Hph Hph'.
      rewrite Hphi, Hphj in *. rewrite Hai, Haj in *.
      destruct (decide (i = task)) as [->|Hne]; [by left|].
      eapply (Hturn i j); try done.
      * destruct (decide (j = task)) as [->|Hne']; [congruence|done].
      * destruct (decide (j = task)) as [->|Hne']; [congruence|done].
    + intros k task0 a' payload Hk.
      destruct (Htask _ _ _ _ Hk) as (t0 & json & Ht0 & Ha & Hph & Hjson & Hp).
      eexists _, json. rewrite lookup_setPhase, Ht0. cbn. split; [done|].
      destruct (decide (task0 = task)); cbn; repeat split; try done. by right.
    + intros k t' (tk & Hk & Ha & Hn & Hphase)%lookup_setPhase_Some Hph.
      rewrite Ha, Hn. destruct (decide (k = task)) as [->|Hne].
      { by replace tk with t by congruence. }
      rewrite Hphase in Hph. by eapply Hstarted.
    + intros k t' (tk & Hk & _ & _ & Hphase)%lookup_setPhase_Some Hph.
      rewrite Hphase in Hph. destruct (decide (k = task)); [done|]. by eapply Hlate.
  - assert (next ∈ next :: rest) as Hin by left.
    destruct (Hqueued _ _ _ Hw Hin) as (tn & Htn & Han & Hphn).
    assert (next ≠ task) as Hnext by (intros ->; congruence).
    destruct (StronglySorted_inv (Hsorted _ _ Hw)) as [Hrest Hlt].
    rewrite Forall_forall in Hlt.
    assert (Hlookup : ∀ k t', setPhase next Awaiting (setPhase task Settled (tasks rt)) !! k
                               = Some t' →
              ∃ tk, tasks rt !! k = Some tk ∧ address t' = address tk
                    ∧ notification t' = notification tk
                    ∧ phase t' = (if decide (k = next) then Awaiting
                                  else if decide (k = task) then Settled else phase tk)).
    { intros k t' (t'' & (tk & Hk & Ha & Hn & Hph)%lookup_setPhase_Some & Ha' & Hn' & Hph')
        %lookup_setPhase_Some.
      exists tk. repeat split; try congruence.
      rewrite Hph'. by destruct (decide (k = next)). }
    assert (Hkeep : ∀ k tk, tasks rt !! k = Some tk → k ≠ next → k ≠ task →
              setPhase next Awaiting (setPhase task Settled (tasks rt)) !! k = Some tk).
    { intros k tk Hk Hne Hne'. rewrite !lookup_setPhase, Hk. cbn.
      by rewrite !decide_False. }
    split; cbn; [| | | | |done| |].
    + intros a' waiting' w Hw' Hin'.
      assert (∃ tw, tasks rt !! w = Some tw ∧ address tw = a' ∧ phase tw = Queued ∧ w ≠ next)
        as (tw & Htw & Ha & Hph & Hne).
      { destruct (decide (a' = address t)) as [->|Hne].
        - rewrite lookup_insert_eq in Hw'. injection Hw' as <-.
          destruct (Hqueued _ _ _ Hw (list_elem_of_further _ _ _ Hin')) as (tw & ? & ? & ?).
          exists tw. repeat split; try done. specialize (Hlt _ Hin'). lia.
        - rewrite lookup_insert_ne in Hw' by done.
          destruct (Hqueued _ _ _ Hw' Hin') as (tw & ? & ? & ?).
          exists tw. repeat split; try done. intros ->. congruence. }
      exists tw. split; [|done]. apply Hkeep; try done. intros ->. congruence.
    + intros a' waiting' Hw'. destruct (decide (a' = address t)) as [->|Hne].
      { rewrite lookup_insert_eq in Hw'. by injection Hw' as <-. }
      rewrite lookup_insert_ne in Hw' by done. by eapply Hsorted.
    + intros k t' (tk & Hk & Ha & _ & Hphase)%Hlookup Hph.
      rewrite Hphase in *. rewrite Ha in *.
      destruct (decide (k = next)) as [->|Hne].
      { replace tk with tn by congruence. rewrite Han, lookup_insert_eq. by eexists. }
      destruct (decide (k = task)) as [->|Hne']; [exfalso; apply Hph; by left|].
      destruct (decide (address tk = address t)) as [Heq|Hne''].
      { rewrite Heq, lookup_insert_eq. eexists. split; [done|]. intros _.
        destruct (Hothers _ _ Hk Heq Hne') as [|[_ Hin']]; [done|].
        apply elem_of_cons in Hin' as [|]; done. }
      rewrite lookup_insert_ne by done. by eapply Hlocked.
    + intros i j ti' tj' (ti & Hi & Hai & _ & Hphi)%Hlookup
        (tj & Hj & Haj & _ & Hphj)%Hlookup Ha Hij Hph Hph'.
      rewrite Hphi, Hphj in *. rewrite Hai, Haj in *.
      destruct (decide (j = next)) as [->|Hj'].
      * replace tj with tn in * by congruence.
        rewrite decide_False by lia.
        destruct (decide (i = task)) as [->|Hne]; [by left|].
        destruct (Hothers _ _ Hi) as [|[_ Hin']]; [congruence|done|done|].
        apply elem_of_cons in Hin' as [|Hin']; [lia|]. specialize (Hlt _ Hin'). lia.
      * assert (over (phase ti)) as Hover.
        { eapply (Hturn i j); try done.
          - destruct (decide (j = task)) as [->|]; [congruence|done].
          - destruct (decide (j = task)) as [->|]; [congruence|done]. }
        destruct (decide (i = next)) as [->|].
        { replace ti with tn in * by congruence. unfold over in Hover.
          destruct Hover; congruence. }
        destruct (decide (i = task)) as [->|]; [by left|done].
    + intros k task0 a' payload Hk.
      destruct (Htask _ _ _ _ Hk) as (t0 & json & Ht0 & Ha & Hph & Hjson & Hp).
      eexists _, json. rewrite !lookup_setPhase, Ht0. cbn. split; [done|].
      destruct (decide (task0 = next)) as [->|].
      { replace t0 with tn in * by congruence. destruct Hph; congruence. }
      destruct (decide (task0 = task)); cbn; repeat split; try done. by right.
    + intros k t' (tk & Hk & Ha & Hn & Hphase)%Hlookup Hph.
      rewrite Ha, Hn. rewrite Hphase in Hph.
      destruct (decide (k = next)) as [->|Hne]; [by destruct Hph|].
      destruct (decide (k = task)) as [->|Hne'].
      { by replace tk with t by congruence. }
      by eapply Hstarted.
    + intros k t' (tk & Hk & _ & _ & Hphase)%Hlookup Hph.
      rewrite Hphase in Hph. destruct (decide (k = next)); [done|].
      destruct (decide (k = task)); [done|]. by eapply Hlate.
Qed.

Lemma invariant_resumeAwait task rt :
  invariant stringify rt → invariant stringify (resumeAwait stringify task rt).
Proof.
  intros Hinv. unfold resumeAwait.
  destruct (tasks rt !! task) as [t|] eqn:Ht; [|done].
  destruct (phase t) eqn:Hph; try done.
  destruct (awaited rt (notification t)) as [[err|json]|] eqn:Hjson; [| |done].
  { apply invariant_finish; eauto. }
  destruct Hinv as [Hqueued Hsorted Hlocked Hturn Htask Horder Hstarted Hlate].
  assert (Hactive : ¬ over (phase t)) by (rewrite Hph; unfold over; intuition congruence).
  split; cbn.
  - intros a' waiting w Hw Hin.
    destruct (Hqueued _ _ _ Hw Hin) as (tw & Htw & Ha & Hphw). exists tw.
    rewrite lookup_setPhase, Htw; cbn. rewrite decide_False; [done|].
    intros ->. congruence.
  - done.
  - intros k t' (tk & Hk & Ha & _ & Hphase)%lookup_setPhase_Some Hph'.
    rewrite Hphase, Ha in *. destruct (decide (k = task)) as [->|Hne].
    + replace tk with t by congruence.
      destruct (Hlocked _ _ Ht Hactive) as (waiting & Hw & _). by exists waiting.
    + by eapply Hlocked.
  - intros i j ti' tj' (ti & Hi & Hai & _ & Hphi)%lookup_setPhase_Some
      (tj & Hj & Haj & _ & Hphj)%lookup_setPhase_Some Ha Hlt Hph' Hph''.
    rewrite Hphi, Hphj in *. rewrite Hai, Haj in *.
    assert (over (phase ti)) as Hover.
    { eapply (Hturn i j); try done.
      - destruct (decide (j = task)) as [->|]; [congruence|done].
      - destruct (decide (j = task)) as [->|]; [congruence|done]. }
    destruct (decide (i = task)) as [->|]; [|done].
    by replace ti with t in * by congruence.
  - intros k task0 a' payload [[_ Hk]|[_ [= <- <- <-]]]%lookup_snoc_Some.
    + destruct (Htask _ _ _ _ Hk) as (t0 & json0 & Ht0 & Ha & Hph0 & Hjson0 & Hp).
      eexists _, json0. rewrite lookup_setPhase, Ht0. cbn. split; [done|].
      destruct (decide (task0 = task)); cbn; repeat split; try done. by left.
    + eexists _, json. rewrite lookup_setPhase, Ht. cbn. split; [done|].
      rewrite decide_True by done. cbn. repeat split; try done. by left.
  - intros i j task0 task1 a' payload payload' [[Hi Hk]|[-> _]]%lookup_snoc_Some
      [[Hj Hk']|[-> Heq]]%lookup_snoc_Some Hlt; try lia.
    + by eapply Horder.
    + injection Heq as <- <- <-.
      destruct (Htask _ _ _ _ Hk) as (t0 & json0 & Ht0 & Ha & Hph0 & _).
      destruct (decide (task0 = task)) as [->|Hne].
      { replace t0 with t in * by congruence. destruct Hph0; congruence. }
      destruct (decide (task0 < task)); [done|]. exfalso.
      apply Hactive. eapply (Hturn task task0); try done; [lia|..];
        destruct Hph0; congruence.
  - intros k t' (tk & Hk & Ha & Hn & Hphase)%lookup_setPhase_Some Hph'.
    rewrite Ha, Hn. destruct (decide (k = task)) as [->|Hne].
    { right. exists (length (published rt)), (stringify json).
      replace tk with t by congruence. apply lookup_snoc_Some. by right. }
    rewrite Hphase in Hph'. destruct (Hstarted _ _ Hk Hph') as [|(k0 & payload & Hk0)].
    { by left. }
    right. exists k0, payload. by apply lookup_app_l_Some.
  - intros k t' (tk & Hk & _ & _ & Hphase)%lookup_setPhase_Some Hph'.
    rewrite Hphase in Hph'. destruct (decide (k = task)); [done|]. by eapply Hlate.
Qed.

Lemma invariant_resumePublished task rt :
  invariant stringify rt → invariant stringify (resumePublished task rt).
Proof.
  intros Hinv. unfold resumePublished.
  destruct (tasks rt !! task) as [t|] eqn:Ht; [|done].
  destruct (phase t) eqn:Hph; try done. apply invariant_finish; auto.
  intros Hph'. congruence.
Qed.

Lemma invariant_run steps rt :
  invariant stringify rt → invariant stringify (run stringify steps rt).
Proof.
  revert rt. induction steps as [|s steps IH]; intros rt Hinv; [done|].
  apply IH. destruct s; cbn.
  - by apply invariant_notify.
  - by apply invariant_settle.
  - by apply invariant_resumeAwait.
  - by apply invariant_resumePublished.
Qed.

(** Notifications to one address are published in the order of the
    calls of [notify], whatever the order in which their promises settle:
    of two calls of [this.mqtt.publish] with the same address, the earlier
    one is of the earlier call of [notify]; and every such call publishes,
    to the address of its call of [notify], the JSON string of what the
    notification resolved to. *)
Theorem notify_publishes_in_order (steps : list (Step J E)) i j task task' a payload payload' :
  let rt := run stringify steps newRemotes in
  published rt !! i = Some (task, a, payload) →
  published rt !! j = Some (task', a, payload') →
  i < j →
  task < task'
  ∧ ∃ t json, tasks rt !! task = Some t ∧ address t = a
              ∧ awaited rt (notification t) = Some (inr json)
              ∧ payload = stringify json.
Proof.
  intros rt Hi Hj Hlt.
  destruct (invariant_run steps _ invariant_new) as [_ _ _ _ Htask Horder _ _].
  split; [by eapply Horder|].
  destruct (Htask _ _ _ _ Hi) as (t & json & ? & ? & _ & ? & ?). by exists t, json.
Qed.

Lemma sorted_filter_lookup {A} (R : relation A) (P : A → Prop)
    `{∀ x, Decision (P x)} (l : list A) :
  (∀ i j x y, l !! i = Some x → l !! j = Some y → i < j → P x → P y → R x y) →
  StronglySorted R (filter P l).
Proof.
  induction l as [|x l IH]; intros Hl; [constructor|].
  assert (StronglySorted R (filter P l)) as Hrest.
  { apply IH. intros i j y z Hi Hj Hlt. apply (Hl (S i) (S j)); try done. lia. }
  rewrite filter_cons. destruct (decide (P x)) as [Hx|]; [|done].
  constructor; [done|]. apply Forall_forall.
  intros y [Hy [j Hj]%list_elem_of_lookup_1]%list_elem_of_filter.
  apply (Hl 0 (S j)); try done. lia.
Qed.

Lemma sorted_omap_seq {A} (key : A → nat) (f : nat → option A) i n :
  (∀ k y, f k = Some y → key y = k) →
  StronglySorted (λ x y, key x < key y) (omap f (seq i n)).
Proof.
  intros Hkey. revert i. induction n as [|n IH]; intros i; cbn; [constructor|].
  destruct (f i) as [x|] eqn:Hx; [|done].
  constructor; [done|]. apply Forall_forall.
  intros y (k & Hk%elem_of_seq & Hy)%list_elem_of_omap.
  rewrite (Hkey _ _ Hx), (Hkey _ _ Hy). lia.
Qed.

(** No notification is lost or published twice. Once the calls of [notify]
    for an address are over, what has been published to the address is what
    the calls were given, in the order of the calls, whatever the order in
    which the promises settled and the tasks resumed: one message for every
    call that the lock did not refuse and whose notification was not
    rejected. The lock refuses a call only when [maxPending] calls wait for
    its address: none of the first [maxPending] calls is refused. *)
Theorem notify_publishes_all (steps : list (Step J E)) a :
  let rt := run stringify steps newRemotes in
  (∀ task t, tasks rt !! task = Some t → address t = a → over (phase t)) →
  filter (λ p, p.1.2 = a) (published rt) = notified stringify rt a
  ∧ ∀ task t, tasks rt !! task = Some t → phase t = Refused → maxPending ≤ task.
Proof.
  intros rt Hover.
  pose proof (invariant_run steps _ invariant_new) as Hinv. fold rt in Hinv.
  clearbody rt. destruct Hinv as [_ _ _ _ Htask Horder Hstarted Hlate].
  split; [|done].
  set (R := λ x y : nat * string * string, x.1.1 < y.1.1).
  assert (AntiSymm eq R) by (intros x y ? ?; unfold R in *; lia).
  assert (∀ x, ¬ R x x) as Hirreflexive by (unfold R; lia).
  assert (StronglySorted R (filter (λ p, p.1.2 = a) (published rt))) as Hpublished.
  { apply sorted_filter_lookup.
    intros i j [[task a1] p1] [[task' a2] p2] Hi Hj Hlt Ha1 Ha2. cbn in *. subst.
    by eapply Horder. }
  assert (StronglySorted R (notified stringify rt a)) as Hnotified.
  { apply (sorted_omap_seq (λ x, x.1.1)). intros k y Hy.
    destruct (tasks rt !! k); cbn in Hy; [|done].
    destruct (decide _); [|done].
    destruct (awaited _ _) as [[|]|]; try done. by injection Hy as <-. }
  apply (StronglySorted_unique R); try done.
  apply NoDup_Permutation; [by eapply sorted_NoDup..|].
  intros [[task a'] payload]. rewrite list_elem_of_filter. unfold notified.
  rewrite list_elem_of_omap. cbn. split.
  - intros [-> [k Hk]%list_elem_of_lookup_1].
    destruct (Htask _ _ _ _ Hk) as (t & json & Ht & Ha & Hph & Hjson & ->).
    exists task. split.
    { apply elem_of_seq. split; [lia|]. cbn. by eapply lookup_lt_Some. }
    rewrite Ht. cbn. rewrite decide_True by (destruct Hph; split; congruence).
    by rewrite Hjson.
  - intros (k & Hk & Hf). destruct (tasks rt !! k) as [t|] eqn:Ht; cbn in Hf; [|done].
    destruct (decide _) as [[Ha Hph]|]; [|done].
    destruct (awaited _ _) as [[|json]|] eqn:Hjson; try done.
    injection Hf as <- <- <-. split; [done|].
    destruct (Hstarted _ _ Ht) as [[err Herr]|(k0 & payload & Hk0)].
    { right. by destruct (Hover _ _ Ht Ha). }
    { congruence. }
    destruct (Htask _ _ _ _ Hk0) as (t' & json' & Ht' & _ & _ & Hjson' & ->).
    replace t' with t in * by congruence.
    assert (json' = json) as -> by congruence.
    rewrite <- Ha. by eapply list_elem_of_lookup_2.
Qed.

End NotifyOrder.

(** ** AblyRemotes: direct message names come back *)

Section DirectMessages.

Import Ably.

Implicit Types (s : string) (sep : Ascii.ascii).

Lemma split_plain sep s :
  sep ∉ String.list_ascii_of_string s → split sep s = (s, []).
Proof.
  induction s as [|c s IH]; cbn; [done|].
  rewrite not_elem_of_cons. intros [Hc Hs]. rewrite (IH Hs).
  by rewrite decide_False.
Qed.

Lemma split_fst_plain sep s :
  (split sep s).1 = s → sep ∉ String.list_ascii_of_string s.
Proof.
  induction s as [|c s IH]; cbn; [intros _; apply not_elem_of_nil|].
  destruct (split sep s) as [piece pieces]. case_decide; cbn; [done|].
  intros [= Hpiece]. apply not_elem_of_cons. split; [done|]. by apply IH.
Qed.

Lemma split_app sep s1 s2 :
  sep ∉ String.list_ascii_of_string s1 →
  split sep (s1 +:+ String sep s2) = (s1, (split sep s2).1 :: (split sep s2).2).
Proof.
  induction s1 as [|c s1 IH]; cbn.
  - intros _. change ("" +:+ String sep s2) with (String sep s2). cbn.
    destruct (split sep s2). by rewrite decide_True.
  - change (String c s1 +:+ String sep s2) with (String c (s1 +:+ String sep s2)).
    rewrite not_elem_of_cons. intros [Hc Hs]. cbn. rewrite (IH Hs).
    by rewrite decide_False.
Qed.

Lemma split_app_fst sep s1 s2 :
  (split sep (s1 +:+ String sep s2)).1 = (split sep s1).1.
Proof.
  induction s1 as [|c s1 IH].
  - change ("" +:+ String sep s2) with (String sep s2). cbn.
    destruct (split sep s2). by rewrite decide_True.
  - change (String c s1 +:+ String sep s2) with (String c (s1 +:+ String sep s2)).
    cbn. destruct (split sep (s1 +:+ String sep s2)), (split sep s1). cbn in IH. subst.
    by case_decide.
Qed.

(** The name that [sender] and [replier] publish under, read back by
    [getParams]. *)
Lemma getParams_getSubPub {D} (domain me from : string) (payload : D) :
  (∀ messageId,
     getParams me (mkMessage (publishName (sender domain me messageId)) from payload)
     = Some (SendTypeParams (Some messageId) from me)
     ↔ ":"%char ∉ String.list_ascii_of_string messageId)
  ∧ (∀ messageId sentMessageId,
       getParams me (mkMessage (publishName (replier domain me messageId sentMessageId))
                       from payload)
       = Some (ReplyTypeParams (Some messageId) (Some sentMessageId) from me)
       ↔ (":"%char ∉ String.list_ascii_of_string messageId)
         ∧ (":"%char ∉ String.list_ascii_of_string sentMessageId)).
Proof.
  split.
  - intros messageId. unfold getParams, sender, getSubPub. cbn [publishName name clientId].
    change ("__send:" +:+ messageId) with ("__send" +:+ String ":" messageId).
    rewrite split_app by (apply (bool_decide_unpack _); by vm_compute).
    rewrite decide_True by done. cbn [lookup list_lookup]. split.
    + intros [= Hid]. by apply split_fst_plain.
    + intros Hplain. by rewrite split_plain.
  - intros messageId sentMessageId. unfold getParams, replier, getSubPub.
    cbn [publishName name clientId].
    change ("__reply:" +:+ messageId +:+ ":" +:+ sentMessageId)
      with ("__reply" +:+ String ":" (messageId +:+ String ":" sentMessageId)).
    rewrite split_app by (apply (bool_decide_unpack _); by vm_compute).
    rewrite decide_False, decide_True by done. cbn [lookup list_lookup]. split.
    + intros [= Hid Hsent]. rewrite split_app_fst in Hid.
      apply split_fst_plain in Hid. rewrite split_app in Hsent by done.
      cbn in Hsent. injection Hsent as Hsent. by apply split_fst_plain in Hsent.
    + intros [Hplain Hplain']. rewrite split_app by done. cbn.
      by rewrite (split_plain _ sentMessageId).
Qed.

(** A request that [sender] publishes reaches [onSent] at the clone that it
    is for, and a response that [replier] publishes reaches [onReply], with
    the message ids that were given and with the id of the client that
    published, exactly when the message ids have no colon in them:
    [getParams] splits the name at every colon. *)
Theorem onDirectMessage_getSubPub {D} (domain me from : string) (payload : D) :
  (∀ messageId,
     onDirectMessage me
       (mkMessage (publishName (sender domain me messageId)) from payload)
     = OnSent payload (SendTypeParams (Some messageId) from me)
     ↔ ":"%char ∉ String.list_ascii_of_string messageId)
  ∧ (∀ messageId sentMessageId,
       onDirectMessage me
         (mkMessage (publishName (replier domain me messageId sentMessageId))
            from payload)
       = OnReply payload (ReplyTypeParams (Some messageId) (Some sentMessageId) from me)
       ↔ (":"%char ∉ String.list_ascii_of_string messageId)
         ∧ (":"%char ∉ String.list_ascii_of_string sentMessageId)).
Proof.
  destruct (getParams_getSubPub domain me from payload) as [Hsend Hreply]. split.
  - intros messageId. rewrite <- Hsend. unfold onDirectMessage. cbn [data].
    destruct (getParams me _) as [[]|]; split; try done; by intros [= -> -> ->].
  - intros messageId sentMessageId. rewrite <- Hreply. unfold onDirectMessage.
    cbn [data].
    destruct (getParams me _) as [[]|]; split; try done; by intros [= -> -> -> ->].
Qed.

End DirectMessages.

(** ** MeldApi: what an update does to a subject *)

Section SubjectUpdates.

Import MeldApi.

Context {Atom Body : Type} `{EqDecision Atom}.

Implicit Types (v : Value Atom Body) (arr : list (Value Atom Body))
  (value insertVal deleteVal : option (Property Atom Body))
  (msg : Subject Atom Body) (a : Atom).

Lemma includesValue_nil v : includesValue [] v = false.
Proof. destruct v as [a|id body|ref body]; cbn; [done| |done]. by rewrite andb_false_r. Qed.

(** An atom is included when it is among the values. *)
Lemma includesValue_atom arr a :
  includesValue arr (VAtom a) = true ↔ VAtom a ∈ arr.
Proof.
  cbn. induction arr as [|v arr IH]; cbn.
  - split; [done|by intros ?%not_elem_of_nil].
  - rewrite orb_true_iff, IH, elem_of_cons. apply or_iff_compat_r.
    destruct v as [b|id body|ref body]; [|split; done..].
    rewrite bool_decide_eq_true. split; [by intros ->|by intros [= ->]].
Qed.

(** The values of an updated property: those that stay, then those that
    come. *)
Lemma array_updateProperty value insertVal deleteVal :
  array (Some (updateProperty value insertVal deleteVal))
  = let kept := filter (λ v, includesValue (array deleteVal) v = false) (array value) in
    kept ++ filter (λ v, includesValue kept v = false) (array insertVal).
Proof.
  unfold updateProperty. cbv zeta.
  destruct (_ ++ _) as [|v [|w rtn]]; [done| |done]. by destruct (isArray value).
Qed.

(** With nothing to insert and nothing to delete a property is as it
    was. *)
Lemma updateProperty_none (p : Property Atom Body) : updateProperty (Some p) None None = p.
Proof.
  unfold updateProperty. cbn [array].
  assert (∀ vs : list (Value Atom Body),
            filter (λ v, includesValue [] v = false) vs = vs) as ->.
  { induction vs as [|v vs IH]; [done|].
    by rewrite filter_cons_True, IH by apply includesValue_nil. }
  rewrite filter_nil, app_nil_r. destruct p as [v|[|v [|w vs]]]; done.
Qed.

Lemma update_lookup msg (upd : DeleteInsert Atom Body) key :
  props (update msg upd) !! key
  = match props msg !! key, forSubject msg (insert upd) !! key with
    | None, None => None
    | value, insertVal =>
        Some (updateProperty value insertVal (forSubject msg (delete upd) !! key))
    end.
Proof.
  unfold update. cbn [props]. rewrite map_lookup_imap, lookup_merge.
  unfold diag_None.
  by destruct (props msg !! key), (forSubject msg (insert upd) !! key).
Qed.

(** An update for another subject leaves the subject as it is, when none of
    the subject's keys names a member of [Object.prototype]: every property
    keeps its values, and keeps being a single value or an array. (Under a
    key such as [constructor] the empty inserts answer with the inherited
    member, and the source adds it to the values.) *)
Theorem update_other_subject msg (upd : DeleteInsert Atom Body) :
  plain (props msg) →
  (∀ s, insert upd = Some s → sid s ≠ sid msg) →
  (∀ s, delete upd = Some s → sid s ≠ sid msg) →
  update msg upd = msg.
Proof.
  intros _ Hinsert Hdelete.
  assert (∀ s : option (Subject Atom Body),
            (∀ s', s = Some s' → sid s' ≠ sid msg) → forSubject msg s = ∅) as Hother.
  { intros [s'|] Hs'; [|done]. unfold forSubject. rewrite decide_False; [done|].
    intros Heq. by apply (Hs' s'). }
  assert (props (update msg upd) = props msg) as Hprops.
  { apply map_eq. intros key.
    rewrite update_lookup, (Hother _ Hinsert), (Hother _ Hdelete), !lookup_empty.
    destruct (props msg !! key) as [p|]; [|done]. by rewrite updateProperty_none. }
  destruct msg as [id properties]. unfold update in *. cbn [sid props] in *.
  by f_equal.
Qed.

(** An update for the subject itself, atom by atom: after it a key has an
    atom exactly when the update inserts it there, or the subject had it
    there and the update does not delete it. *)
Theorem update_atoms msg (upd : DeleteInsert Atom Body) deletes inserts key a :
  delete upd = Some deletes → sid deletes = sid msg →
  insert upd = Some inserts → sid inserts = sid msg →
  VAtom a ∈ array (props (update msg upd) !! key)
  ↔ VAtom a ∈ array (props inserts !! key)
    ∨ (VAtom a ∈ array (props msg !! key) ∧ VAtom a ∉ array (props deletes !! key)).
Proof.
  intros Hdelete Hdeletes Hinsert Hinserts.
  pose proof (update_lookup msg upd key) as Hlookup. unfold forSubject in Hlookup.
  rewrite Hdelete, Hinsert, !decide_True in Hlookup by done.
  assert (array (props (update msg upd) !! key)
          = array (Some (updateProperty (props msg !! key) (props inserts !! key)
                           (props deletes !! key)))) as ->.
  { rewrite Hlookup.
    by destruct (props msg !! key) as [p|], (props inserts !! key) as [q|]. }
  rewrite array_updateProperty. cbv zeta.
  rewrite elem_of_app, !list_elem_of_filter.
  rewrite <- (not_true_iff_false (includesValue (filter _ _) _)), includesValue_atom,
    list_elem_of_filter.
  rewrite <- !includesValue_atom.
  destruct (includesValue (array (props deletes !! key)) (VAtom a)),
    (includesValue (array (props msg !! key)) (VAtom a)),
    (includesValue (array (props inserts !! key)) (VAtom a)); intuition congruence.
Qed.

(** One step of [bySubject], and all of them: the subjects are filed under
    their ids, the later of two with the same id over the earlier, and the
    other side of an entry is kept. *)
Lemma bySubject_lookup (update : Update Atom Body) key
    (byId : gmap string (DeleteInsert Atom Body)) k :
  bySubject update key byId !! k
  = match last (filter (λ s, idKey s = k) (side key update)) with
    | Some subject => Some (withSide key subject (byId !! k))
    | None => byId !! k
    end.
Proof.
  unfold bySubject. generalize (side key update). intros subjects.
  induction subjects as [|subject subjects IH] using rev_ind; [done|].
  rewrite foldl_snoc, filter_app, filter_cons, filter_nil.
  case_decide as Hk.
  - rewrite last_snoc. subst k. rewrite lookup_insert_eq. f_equal.
    rewrite IH. destruct (last _) as [earlier|]; [|done].
    unfold withSide. by destruct key, (byId !! idKey subject) as [[]|].
  - rewrite app_nil_r, lookup_insert_ne by done. apply IH.
Qed.

(** [asSubjectUpdates] files an update under the ids of its subjects, with
    ["*"] for a subject that has none: an id has an entry when a deleted or
    an inserted subject has it, and the entry holds the last deleted and the
    last inserted subject with the id. *)
Theorem asSubjectUpdates_lookup (update : Update Atom Body) k :
  asSubjectUpdates update !! k
  = match last (filter (λ s, default "*" (sid s) = k) (deleted update)),
          last (filter (λ s, default "*" (sid s) = k) (inserted update)) with
    | None, None => None
    | lastDeleted, lastInserted => Some (mkDeleteInsert lastDeleted lastInserted)
    end.
Proof.
  unfold asSubjectUpdates. rewrite !bySubject_lookup, lookup_empty. cbn [side].
  fold (@idKey Atom Body).
  by destruct (last (filter _ (deleted update))), (last (filter _ (inserted update))).
Qed.

End SubjectUpdates.


(** ** The properties at work *)

Section Witnesses.

Import MeldEncoding SuSet Examples.

(** Dedup: the broker redelivers the delta to [B]. *)
Lemma apply_known_tid_witness :
  closed dsBFred = false
  ∧ tid deltaFred ∈ allTids dsBFred
  ∧ apply NO_CONSTRAINT deltaFred (clockA 1 0) (clockB 1 3) (clockB 1 4) "cx" 0 dsBFred
    = mkOutcome dsBFred (inr None) [].
Proof.
  assert (tid deltaFred ∈ allTids dsBFred) as Hknown by (vm_compute; left).
  split; [done|]. split; [done|].
  by apply (apply_known_tid NO_CONSTRAINT deltaFred (clockA 1 0) (clockB 1 3)
              (clockB 1 4) "cx" 0 dsBFred).
Defined.

Lemma apply_deletion_tids_witness :
  let applied := apply NO_CONSTRAINT retractionOfNames (clockB 1 2) (clockA 4 2)
                   (clockA 5 2) "cx2" 0 dsFlintstone in
  asserted dsFlintstone
  ∧ unreifyComplete (delete retractionOfNames)
    = Some [(fred_flintstone, ["t2"]); (fred_name, ["t1"])]
  ∧ graph (dataset applied) = [fred_height]
  ∧ asserted (dataset applied).
Proof.
  assert (asserted dsFlintstone) as Hasserted.
  { intros triple [->|[->|[]%elem_of_nil]%elem_of_cons]%elem_of_cons;
      by vm_compute. }
  split; [done|]. split; [by vm_compute|]. split; [by vm_compute|].
  apply (apply_deletion_tids NO_CONSTRAINT retractionOfNames (clockB 1 2) (clockA 4 2)
           (clockA 5 2) "cx2" 0 dsFlintstone); [|done].
  intros deletions. vm_compute. intros [= <-].
  apply NoDup_cons. split; [|apply NoDup_singleton].
  by intros [=]%list_elem_of_singleton.
Defined.

(** A delta that retracts a triple in two reifications, one TID in each:
    neither claims all the TIDs we have, both are removed, and the triple
    stays in the data graph with no TID. *)
Lemma apply_split_retraction :
  asserted dsTwoTids
  ∧ ¬ asserted (dataset (apply NO_CONSTRAINT splitRetraction (clockB 0 1) (clockA 1 1)
                           (clockA 2 1) "cx" 0 dsTwoTids)).
Proof.
  split.
  - intros triple ->%list_elem_of_singleton. done.
  - intros Hasserted. apply (Hasserted fred_name); [vm_compute; left|done].
Qed.


(** Single-valued fail: a second name for Fred. *)
Lemma transact_constraint_failed_witness :
  closed dsFred = false
  ∧ transact singleName "t9" 0 (λ _, inr (clockA 2 0, mkPatch [] [fred_flintstone])) dsFred
    = mkOutcome dsFred
        (inl (mkMeldError "Multiple values for single-valued property")) [].
Proof.
  split; [done|].
  by apply (transact_constraint_failed singleName "t9" 0
              (λ _, inr (clockA 2 0, mkPatch [] [fred_flintstone])) dsFred
              (clockA 2 0) (mkPatch [] [fred_flintstone])).
Defined.

(** Single-valued remote repair: [B] names Fred Flintstone, [A] has Fred.
    The repair takes Flintstone back, reified under [b8] with the TID of
    [B]'s delta. *)
Lemma apply_constraint_repair_witness :
  let applied := apply singleName deltaFlintstone (clockB 0 1) (clockA 2 1) (clockA 3 1)
                   "cx" 7 dsFred in
  (tid deltaFlintstone ∉ allTids dsFred)
  ∧ Constraint.apply singleName (asUpdate (clockA 2 1) (mkPatch [] [fred_flintstone]))
      (graph dsFred)
    = Some (λ _, mkPatch [fred_flintstone] [])
  ∧ outcome applied = inr (Some repairOfFlintstone)
  ∧ entries (dataset applied)
    = entries dsFred ++ [ mkEntry 2 (clockA 2 1) (Some (clockB 0 1)) deltaFlintstone;
                          mkEntry 3 (clockA 3 1) None (data repairOfFlintstone) ]
  ∧ ∃ rid',
      quad (blankNode rid') (name RDF_subject) (subject fred_flintstone)
        ∈ delete (data repairOfFlintstone)
      ∧ quad (blankNode rid') (name M_LD_tid) (Literal "t2")
          ∈ delete (data repairOfFlintstone).
Proof.
  intros applied.
  assert (tid deltaFlintstone ∉ allTids dsFred) as Hnew
    by by intros [=]%list_elem_of_singleton.
  assert (Constraint.apply singleName (asUpdate (clockA 2 1) (mkPatch [] [fred_flintstone]))
            (graph dsFred)
          = Some (λ _, mkPatch [fred_flintstone] [])) as Hresult by by vm_compute.
  split; [done|]. split; [done|].
  destruct (apply_constraint_repair singleName deltaFlintstone (clockB 0 1)
              (clockA 2 1) (clockA 3 1) "cx" 7 dsFred [] (clockA 1 0) _ _
              eq_refl Hnew eq_refl eq_refl eq_refl Hresult)
    as (repair & p & Hout & _ & _ & _ & Hentries & _ & _ & _ & Hreified).
  assert (repair = repairOfFlintstone) as ->.
  { assert (outcome applied = inr (Some repairOfFlintstone)) as Hrepair by by vm_compute.
    unfold applied in Hrepair. congruence. }
  split; [done|]. split; [done|].
  destruct (Hreified fred_flintstone) as (rid' & _ & Hsubject & _ & _ & Htid);
    [left|left|].
  exists rid'. split; [done|]. by apply Htid.
Defined.

(** Revup from [A], which has journaled Fred (tick 1) and then Flintstone
    from [B] (tick 2), by a clone that has seen tick 1 of [A]: the traversal
    starts at the entry of tick 1, which the filter drops, and sends the
    entry of tick 2. *)
Lemma operationsSince_from_found_witness :
  closed dsFlintstone = false
  ∧ journalTime dsFlintstone = Some (clockA 3 1)
  ∧ getTicks (clockB 1 0) (clockA 3 1) = Some 1
  ∧ ∃ updates,
      outcome (operationsSince (clockB 1 0) dsFlintstone) = inr (Some updates)
      ∧ updates false = [Next (mkDeltaMessage (clockA 2 1) deltaFlintstone); Complete].
Proof.
  split; [done|]. split; [done|]. split; [done|].
  destruct (operationsSince_from_found (clockB 1 0) dsFlintstone (clockA 3 1)
              eq_refl eq_refl) as (_ & _ & _ & Hfound).
  destruct (Hfound 1 eq_refl _ _ eq_refl) as (_ & _ & updates & Hout & Hupdates).
  exists updates. split; [done|]. by rewrite Hupdates.
Defined.

(** C5, the claim as it stands, fails when the requester has seen ticks of
    this clone that the journal no longer has an entry for: after the reset
    by a snapshot at tick 5, a requester that has seen tick 2 gets undefined,
    and [getTicks] is not nil. *)
Lemma operationsSince_no_entry :
  getTicks (clockB 2 1) (clockA 5 2) = Some 2
  ∧ closed dsReset = false
  ∧ journalTime dsReset = Some (clockA 5 2)
  ∧ outcome (operationsSince (clockB 2 1) dsReset) = inr None.
Proof. by vm_compute. Qed.


(** Genesis: clone [A] sees its own hello first, and takes [GENESIS]. Had it
    seen the hello of [B] first, it would ask [B] and take the clock that [B]
    answers with. *)
Lemma newClock_first_hello_witness :
  Mqtt.isGenesis remotesA = None
  ∧ Mqtt.newClock ["A"; "B"] "m1" None (Mqtt.observe ["A"; "B"] remotesA)
    = (Mqtt.observe ["A"; "B"] remotesA, Some (inr GENESIS))
  ∧ clockA 0 1 ≠ GENESIS
  ∧ let called := Mqtt.newClock ["A"; "B"] "m1" (Some (Mqtt.mkNewClockResponse (clockA 0 1)))
                    (Mqtt.observe ["B"; "A"] remotesA) in
    Mqtt.published called.1
    = [(Mqtt.mkSendTopic "B" "A" "m1" "test.m-ld.org/control", Mqtt.NewClockRequest)]
    ∧ called.2 = Some (inr (clockA 0 1)).
Proof.
  split; [done|]. split.
  - assert (∀ res : Mqtt.NewClockResponse VClock, None = Some res → Mqtt.clock res ≠ GENESIS)
      as Hfork by done.
    by destruct (newClock_first_hello remotesA "A" ["B"] ["A"; "B"] "m1" None eq_refl Hfork)
      as [Hown _]; apply Hown.
  - assert (clockA 0 1 ≠ GENESIS) as Hne by done. split; [done|].
    assert (∀ res, Some (Mqtt.mkNewClockResponse (clockA 0 1)) = Some res →
                   Mqtt.clock res ≠ GENESIS) as Hfork by by intros res [= <-].
    destruct (newClock_first_hello remotesA "B" ["A"] ["A"; "B"] "m1"
                (Some (Mqtt.mkNewClockResponse (clockA 0 1))) eq_refl Hfork)
      as (_ & Hother & _).
    apply Hother. done.
Defined.

(** The reification of Fred's name and height comes back. *)
Lemma unreify_reifyTriplesTids_witness :
  Forall iriTriple [(fred_name, ["t1"; "t2"]); (fred_height, ["t3"])]
  ∧ ∃ entries,
      unreify (reifyTriplesTids 0 [(fred_name, ["t1"; "t2"]); (fred_height, ["t3"])])
      = Some entries
      ∧ entries ≡ₚ [(partial fred_name, ["t1"; "t2"]); (partial fred_height, ["t3"])].
Proof.
  assert (Forall iriTriple [(fred_name, ["t1"; "t2"]); (fred_height, ["t3"])]) as Hiri
    by (repeat constructor).
  split; [done|].
  apply (unreify_reifyTriplesTids 0 _ Hiri).
Defined.


(** The delta of that write comes back to [A]. *)
Lemma transact_echo_dropped_witness :
  let written := transact NO_CONSTRAINT "t9" 0
                   (λ _, inr (clockA 2 0, mkPatch [fred_name] [fred_flintstone])) dsFred in
  ∃ msg, outcome written = inr msg
         ∧ apply NO_CONSTRAINT (data msg) (clockA 2 0) (clockA 3 0) (clockA 4 0) "cx" 0
             (dataset written)
           = mkOutcome (dataset written) (inr None) [].
Proof.
  intros written. eexists. split; [by vm_compute|].
  by destruct (transact_echo_dropped NO_CONSTRAINT "t9" 0
                 (λ _, inr (clockA 2 0, mkPatch [fred_name] [fred_flintstone])) dsFred
                 _ eq_refl) as [_ Hecho].
Defined.

(** The same write at [A], and its delta at [B], which has Fred's name from
    [A]: both have Fred Flintstone, under the TID of the write. *)
Lemma transact_apply_converges_witness :
  let prepare := λ _ : Dataset VClock,
    inr (clockA 2 0, mkPatch [fred_name] [fred_flintstone]) in
  let written := transact NO_CONSTRAINT "t9" 0 prepare dsFred in
  ∃ msg, outcome written = inr msg
    ∧ let applied := apply NO_CONSTRAINT (data msg) (clockA 2 0) (clockB 2 3) (clockB 2 4)
                       "cx" 0 dsBFred in
      outcome applied = inr None
      ∧ (∀ triple, triple ∈ graph (dataset applied) ↔ triple ∈ graph (dataset written))
      ∧ (∀ q, q ∈ tripleTids (dataset applied) ↔ q ∈ tripleTids (dataset written)).
Proof.
  intros prepare written. eexists. split; [by vm_compute|].
  apply (transact_apply_converges NO_CONSTRAINT NO_CONSTRAINT "t9" 0 prepare dsFred dsBFred
           (clockA 2 0) (mkPatch [fred_name] [fred_flintstone])
           _ (clockA 2 0) (clockB 2 3) (clockB 2 4) "cx" 0
           (clockB 1 2) (mkEntry 1 (clockB 1 1) (Some (clockA 1 0)) deltaFred));
    try done.
  - by repeat constructor.
  - apply (bool_decide_unpack _). by vm_compute.
Defined.

(** A write whose [prepare] rejects. *)
Lemma rejected_call_changes_nothing_witness :
  transact NO_CONSTRAINT "t9" 0 (λ _, inl (mkMeldError "Not now")) dsFred
  = mkOutcome dsFred (inl (mkMeldError "Not now")) [].
Proof.
  by apply (rejected_call_changes_nothing NO_CONSTRAINT "t9" 0
              (λ _, inl (mkMeldError "Not now")) deltaFred (clockA 1 0) (clockA 2 0)
              (clockA 3 0) "cx" dsFred (mkMeldError "Not now")).
Defined.

(** [B] applies Fred's name from [A], writes Fred's height and applies the
    Flintstone delta; then the broker redelivers Fred's name. *)
Lemma applied_delta_stays_known_witness :
  let later :=
    sessionEnd NO_CONSTRAINT
      [ Transact "t7" 0 (λ _, inr (clockB 1 3, mkPatch [] [fred_height]));
        Apply deltaFlintstone (clockA 2 0) (clockB 2 4) (clockB 2 5) "cx" 0 ]
      (dataset (apply NO_CONSTRAINT deltaFred (clockA 1 0) (clockB 1 1) (clockB 1 2)
                  "cx" 0 dsB)) in
  closed dsB = false
  ∧ apply NO_CONSTRAINT deltaFred (clockA 1 0) (clockB 2 6) (clockB 2 7) "cx" 0 later
    = mkOutcome later (inr None) [].
Proof.
  intros later. split; [done|].
  by apply (applied_delta_stays_known NO_CONSTRAINT deltaFred (clockA 1 0) (clockB 1 1)
              (clockB 1 2) "cx" 0 dsB None).
Defined.

(** The repair of the second name of Fred, merged into the patch of the
    delta that brought it. *)
Lemma applyConstraint_merges_witness :
  let update := asUpdate (clockA 2 1) (mkPatch [] [fred_flintstone]) in
  ∃ to_patch' cxn,
    applyConstraint singleName dsFred "cx" 7 (mkPatch [] [fred_flintstone]) update "t2"
      (clockA 3 1)
    = (to_patch', Some cxn)
    ∧ ∀ g triple,
        triple ∈ patchGraph (concat to_patch' (cx_patch cxn)) g
        ↔ triple ∈ patchGraph (cx_patch cxn)
                     (patchGraph (mkPatch [] [fred_flintstone]) g).
Proof.
  intros update. eexists _, _. split; [by vm_compute|].
  by destruct (applyConstraint_merges singleName dsFred "cx" 7
                 (mkPatch [] [fred_flintstone]) update "t2" (clockA 3 1) _ _ eq_refl)
    as [_ Hmerged].
Defined.

(** A snapshot of [A], which has Fred's name, applied to the new clone
    [B]. *)
Lemma applySnapshot_takeSnapshot_witness :
  ∃ snapshot,
    outcome (takeSnapshot 0 dsFred) = inr snapshot
    ∧ (applySnapshot snapshot dsB).2 = []
    ∧ asserted (applySnapshot snapshot dsB).1
    ∧ ∀ triple, triple ∈ graph (applySnapshot snapshot dsB).1 ↔ triple ∈ graph dsFred.
Proof.
  eexists. split; [by vm_compute|].
  destruct (applySnapshot_takeSnapshot 0 dsFred dsB _ eq_refl)
    as (Hnone & Hgraph & _ & _ & _ & Hasserted); [by repeat constructor|done|].
  split; [done|]. split.
  - apply Hasserted; [done|]. intros triple ->%list_elem_of_singleton. done.
  - intros triple. rewrite Hgraph. cbn. pose proof (not_elem_of_nil triple). tauto.
Defined.

(** Alone on the domain, [A] cannot send. *)
Lemma send_none_visible_offline_witness :
  Mqtt.onPresenceChange ["A"] remotesA = false
  ∧ ∃ detail,
      (Mqtt.send ["A"] "m1" (None : option ()) Mqtt.NewClockRequest remotesA).2
      = inl (Mqtt.NONE_VISIBLE detail).
Proof.
  split; [done|].
  destruct (send_none_visible_offline ["A"] "m1" (None : option ()) Mqtt.NewClockRequest
              remotesA (or_introl eq_refl)) as [Hoffline _].
  by apply Hoffline.
Defined.

(** With [B] and [C] present, five requests of [A] go to [B], [C], [B], [C]
    and [B]. *)
Lemma sendAll_round_robin_witness :
  let sends : list (string * option ()) :=
    [("m1", None); ("m2", None); ("m3", None); ("m4", None); ("m5", None)] in
  Mqtt.toId <$> (Mqtt.published
                   (Mqtt.sendAll ["A"; "B"; "C"] Mqtt.NewClockRequest sends remotesA)).*1
  = ["B"; "C"; "B"; "C"; "B"].
Proof.
  intros sends.
  rewrite (sendAll_round_robin ["A"; "B"; "C"] Mqtt.NewClockRequest sends remotesA);
    [done| |done|done].
  apply (bool_decide_unpack _). by vm_compute.
Defined.

(** Nobody can revup [A]: after three requests [revupFrom] is undefined. *)
Lemma revupFrom_asks_in_turn_witness :
  (Mqtt.revupFrom ["A"; "B"; "C"] refusals (clockA 1 0) remotesA).2 = Some (inr None)
  ∧ Mqtt.toId <$> (Mqtt.published
                     (Mqtt.revupFrom ["A"; "B"; "C"] refusals (clockA 1 0) remotesA).1).*1
    = ["B"; "C"; "B"].
Proof.
  destruct (revupFrom_asks_in_turn ["A"; "B"; "C"] refusals (clockA 1 0) remotesA
              (λ _, None) 2) as [Hresult Hpublished]; try done.
  - apply (bool_decide_unpack _). by vm_compute.
  - by intros [|[|[|k]]] s [= <-].
  - intros Hlt. vm_compute in Hlt. lia.
  - cbn. lia.
Defined.

(** The update that [A] publishes comes back to [A]. *)
Lemma onRemoteUpdate_echo_witness :
  ∃ json, Mqtt.relay "A" true deltaFred = Some json
          ∧ Mqtt.onRemoteUpdate "A" json = Mqtt.Ignored.
Proof.
  destruct (onRemoteUpdate_echo "A" "A" deltaFred) as (json & Hrelay & Hecho & _);
    [done|].
  exists json. split; [done|]. by apply Hecho.
Defined.

(** An update for Wilma leaves Fred as he is. *)
Lemma update_other_subject_witness :
  MeldApi.plain (MeldApi.props apiFred) ∧ MeldApi.update apiFred apiWilma = apiFred.
Proof.
  assert (MeldApi.plain (MeldApi.props apiFred)) as Hplain.
  { intros key [p Hkey]. unfold apiFred in Hkey. cbn [MeldApi.props] in Hkey.
    apply lookup_singleton_Some in Hkey as [<- _]. by vm_compute. }
  split; [done|].
  by apply (update_other_subject apiFred apiWilma Hplain); intros s [= <-].
Defined.

(** After the renaming Fred has the name Flintstone, and not Fred. *)
Lemma update_atoms_witness :
  MeldApi.VAtom "Flintstone" ∈ MeldApi.array (MeldApi.props (MeldApi.update apiFred apiRename) !! "name")
  ∧ MeldApi.VAtom "Fred" ∉ MeldApi.array (MeldApi.props (MeldApi.update apiFred apiRename) !! "name").
Proof.
  split.
  - apply (update_atoms apiFred apiRename _ _ "name" "Flintstone" eq_refl eq_refl
             eq_refl eq_refl).
    left. cbn [MeldApi.props]. rewrite lookup_singleton_eq. left.
  - rewrite (update_atoms apiFred apiRename _ _ "name" "Fred" eq_refl eq_refl
               eq_refl eq_refl).
    unfold apiFred. cbn [MeldApi.props]. rewrite !lookup_singleton_eq. cbn.
    rewrite !list_elem_of_singleton. intros [[=]|[_ Hnot]]. by apply Hnot.
Defined.

Lemma notify_publishes_in_order_witness :
  0 < 1
  ∧ ∃ t json, Notify.tasks (Notify.run id notifySteps Notify.newRemotes) !! 0 = Some t
              ∧ Notify.address t = "sub"
              ∧ Notify.awaited (Notify.run id notifySteps Notify.newRemotes)
                  (Notify.notification t) = Some (inr json)
              ∧ "one" = id json.
Proof.
  apply (notify_publishes_in_order id notifySteps 0 1 0 1 "sub" "one" "two");
    [reflexivity|reflexivity|lia].
Defined.

Lemma notify_publishes_all_witness :
  filter (λ p, p.1.2 = "sub") (Notify.published (Notify.run id notifySteps Notify.newRemotes))
  = Notify.notified id (Notify.run id notifySteps Notify.newRemotes) "sub"
  ∧ ∀ task t,
      Notify.tasks (Notify.run id notifySteps Notify.newRemotes) !! task = Some t →
      Notify.phase t = Notify.Refused → QuadStore.maxPending ≤ task.
Proof.
  apply (notify_publishes_all id notifySteps "sub").
  intros [|[|task]] t Ht _; vm_compute in Ht; [injection Ht as <-; by left..|done].
Defined.

End Witnesses.
